(** * hono-swagger-ui: route registry, path normalisation, runtime
      interception and the Zod-to-OpenAPI schema converter

    A shallow embedding of [src/index.ts] (class [HonoSwagger]) and of
    [src/analyzer.ts] (class [HonoSwaggerAnalyzer]), followed by the
    properties of the registry, of the discovery paths and of the schema
    converter. *)

From Stdlib Require Import ZArith Ascii String List.
From stdpp Require Import base option list strings gmap.

Local Open Scope string_scope.
Local Open Scope list_scope.
Set Warnings "-register-all".

(** ** JavaScript values

    The values that the two classes store and pass around: route metadata,
    default values, literals.  Numbers only ever occur as constants that
    are copied (status codes, bounds of a check), so they are integers
    here.  An object is the sequence of its own properties in insertion
    order. *)

Inductive jsval : Type :=
  | JUndefined
  | JNull
  | JBool (b : bool)
  | JNum (n : Z)
  | JStr (s : string)
  | JArr (items : list jsval)
  | JObj (props : list (string * jsval)).

(** Truthiness, as used by [||], [&&] and [if]. *)
Definition truthy (v : jsval) : bool :=
  match v with
  | JUndefined | JNull => false
  | JBool b => b
  | JNum n => negb (n =? 0)%Z
  | JStr s => negb (String.eqb s "")
  | JArr _ | JObj _ => true
  end.

(** [a || b] *)
Definition js_or (a b : jsval) : jsval := if truthy a then a else b.

(** [typeof v] *)
Definition js_typeof (v : jsval) : string :=
  match v with
  | JUndefined => "undefined"
  | JNull => "object"
  | JBool _ => "boolean"
  | JNum _ => "number"
  | JStr _ => "string"
  | JArr _ | JObj _ => "object"
  end.

(** A plain object used as a record of optional properties: a finite map
    from property name to value.  A key that is absent and a key that is
    present and holds [undefined] are different objects; reading either
    gives [undefined]. *)
Abbreviation props := (gmap string jsval).

Definition get_prop (o : props) (k : string) : jsval :=
  default JUndefined (o !! k).

(** Object spread [{ ...a, ...b }]: every own property of [b] is copied
    over the copy of [a], whatever its value. *)
Definition spread (a b : props) : props := b ∪ a.

Module Swagger.

(** *** Strings *)

Definition code (c : ascii) : nat := nat_of_ascii c.

Definition between (lo hi n : nat) : bool := (lo <=? n)%nat && (n <=? hi)%nat.

(** The class [\w] of a regular expression: [A-Za-z0-9_]. *)
Definition is_word (c : ascii) : bool :=
  between 48 57 (code c) || between 65 90 (code c)
  || between 97 122 (code c) || (code c =? 95)%nat.

Definition is_colon (c : ascii) : bool := Ascii.eqb c ":".
Definition is_slash (c : ascii) : bool := Ascii.eqb c "/".

(** Does the string begin with a [\w] character? *)
Definition starts_word (s : string) : bool :=
  match s with
  | EmptyString => false
  | String c _ => is_word c
  end.

(** The longest prefix of [\w] characters: what [\w+] takes, greedily. *)
Fixpoint take_word (s : string) : string :=
  match s with
  | EmptyString => ""
  | String c r => if is_word c then String c (take_word r) else ""
  end.

Definition upper_char (c : ascii) : ascii :=
  if between 97 122 (code c) then ascii_of_nat (code c - 32) else c.
Definition lower_char (c : ascii) : ascii :=
  if between 65 90 (code c) then ascii_of_nat (code c + 32) else c.

Fixpoint map_string (f : ascii -> ascii) (s : string) : string :=
  match s with
  | EmptyString => ""
  | String c r => String (f c) (map_string f r)
  end.

(** [s.toUpperCase()], [s.toLowerCase()] (on ASCII letters). *)
Definition toUpperCase : string -> string := map_string upper_char.
Definition toLowerCase : string -> string := map_string lower_char.

(** [s.startsWith(pre)] *)
Definition startsWith (s pre : string) : bool := String.prefix pre s.

(** [s.endsWith('/')] *)
Fixpoint endsWithSlash (s : string) : bool :=
  match s with
  | EmptyString => false
  | String c EmptyString => is_slash c
  | String _ r => endsWithSlash r
  end.

(** [s.slice(0, -1)]: all but the last character. *)
Fixpoint dropLast (s : string) : string :=
  match s with
  | EmptyString => ""
  | String _ EmptyString => ""
  | String c r => String c (dropLast r)
  end.

(** [s.split('/')] *)
Fixpoint split_slash (s : string) : list string :=
  match s with
  | EmptyString => [""]
  | String c r =>
      if is_slash c then "" :: split_slash r
      else match split_slash r with
           | [] => [String c ""]
           | seg :: segs => String c seg :: segs
           end
  end.

(** *** Paths *)

(** [path.replace(/:(\w+)/g, '{$1}')].  The scan goes left to right; a
    colon that is followed by at least one [\w] character opens a match,
    the match takes every following [\w] character, and the scan resumes
    right after it.  [in_match] tells that the characters read so far since
    the last colon are the name being copied between the braces. *)
Fixpoint replace_params (in_match : bool) (s : string) : string :=
  match s with
  | EmptyString => if in_match then "}" else ""
  | String c r =>
      if in_match && is_word c then String c (replace_params true r)
      else
        ((if in_match then "}" else "") ++
         (if is_colon c && starts_word r
          then String "{" (replace_params true r)
          else String c (replace_params false r)))%string
  end.

(** [convertToOpenAPIPath(path, {} as Context)], the only way the
    registration operations call it: with the empty context [c.req.param()]
    raises, the [catch] ignores it, and the result is the rewritten path. *)
Definition convertToOpenAPIPath (path : string) : string :=
  replace_params false path.

(** The trailing-slash step of [autoRegisterRoute]:
    [p.endsWith('/') && p !== '/' ? p.slice(0, -1) : p]. *)
Definition normalizePath (openAPIPath : string) : string :=
  if endsWithSlash openAPIPath && negb (String.eqb openAPIPath "/")
  then dropLast openAPIPath
  else openAPIPath.

(** [path.match(/:\w+/g)], with [[]] for [null].  A match is a colon with
    the [\w] characters that follow it; matches cannot overlap, because a
    match starts at a colon and a colon is not a [\w] character, so the
    matches are exactly the colons that are followed by a [\w] character. *)
Fixpoint match_params (s : string) : list string :=
  match s with
  | EmptyString => []
  | String c r =>
      if is_colon c && starts_word r
      then String c (take_word r) :: match_params r
      else match_params r
  end.

(** [param.substring(1)] *)
Definition substring1 (s : string) : string :=
  match s with
  | EmptyString => ""
  | String _ r => r
  end.

(** [extractParametersFromPath(path)] *)
Definition extractParametersFromPath (path : string) : list jsval :=
  map (fun param =>
         JObj [("name", JStr (substring1 param)); ("in", JStr "path");
               ("required", JBool true);
               ("schema", JObj [("type", JStr "string")])])
      (match_params path).

(** [generateTagFromPath(path)] *)
Definition generateTagFromPath (path : string) : string :=
  let segments :=
    filter (fun s => negb (String.eqb s "") && negb (startsWith s "{"))
           (split_slash path) in
  match segments with
  | [] => "default"
  | s0 :: [] => s0
  | _ :: s1 :: _ => s1
  end.

(** [generateDefaultResponses()] *)
Definition json_content (schema : jsval) : jsval :=
  JObj [("application/json", JObj [("schema", schema)])].

Definition message_schema : jsval :=
  JObj [("type", JStr "object");
        ("properties", JObj [("message", JObj [("type", JStr "string")])])].

Definition generateDefaultResponses : jsval :=
  JObj [("200", JObj [("description", JStr "Success");
                      ("content",
                       json_content (JObj [("type", JStr "object")]))]);
        ("400", JObj [("description", JStr "Bad Request");
                      ("content", json_content message_schema)]);
        ("500", JObj [("description", JStr "Internal Server Error");
                      ("content", json_content message_schema)])].

(** [['post', 'put', 'patch'].includes(method.toLowerCase())] *)
Definition carries_body (method : string) : bool :=
  let m := toLowerCase method in
  String.eqb m "post" || String.eqb m "put" || String.eqb m "patch".

(** [options?.key]: [undefined] when [options] is absent. *)
Definition opt_prop (options : option props) (k : string) : jsval :=
  match options with
  | None => JUndefined
  | Some o => get_prop o k
  end.

(** [generateRequestBodyFromMethod(method, options)] *)
Definition generateRequestBodyFromMethod (method : string)
    (options : option props) : jsval :=
  if carries_body method && truthy (opt_prop options "requestBody")
  then opt_prop options "requestBody"
  else if carries_body method
  then JObj [("content", json_content (JObj [("type", JStr "object")]))]
  else JUndefined.

(** [interface RouteInfo]: [method] and [path] are mandatory strings; the
    other own properties ([parameters], [responses], [tags], [summary],
    [description], [zodSchema], [requestBody]) are kept by name. *)
Record RouteInfo : Type := mkRoute {
  method : string;
  path : string;
  fields : props
}.

(** [{ ...r1, ...r2 }] on two routes. *)
Definition spread_route (r1 r2 : RouteInfo) : RouteInfo :=
  {| method := method r2; path := path r2;
     fields := spread (fields r1) (fields r2) |}.

(** [r.method === m && r.path === p] *)
Definition same_key (m p : string) (r : RouteInfo) : bool :=
  String.eqb (method r) m && String.eqb (path r) p.

(** [Array.prototype.findIndex]; [None] stands for [-1]. *)
Fixpoint findIndex {A} (f : A -> bool) (l : list A) : option nat :=
  match l with
  | [] => None
  | x :: l' => if f x then Some 0 else S <$> findIndex f l'
  end.

(** [addRoute(route)], on the [routes] array of the instance. *)
Definition addRoute (route : RouteInfo) (routes : list RouteInfo)
  : list RouteInfo :=
  match findIndex (same_key (method route) (path route)) routes with
  | Some existingIndex =>
      match routes !! existingIndex with
      | Some existing => <[existingIndex := spread_route existing route]> routes
      | None => routes
      end
  | None => routes ++ [route]
  end.

(** [isRouteDocumented(method, path)]: [Array.prototype.some]. *)
Definition isRouteDocumented (m p : string) (routes : list RouteInfo) : bool :=
  existsb (same_key m p) routes.

(** [SwaggerOptions] as the constructor leaves them, restricted to what
    the registry reads: [route] (default ['/swagger-ui']) and
    [excludePaths] (default [[]]; [None] is an explicit [undefined]). *)
Record SwaggerOptions : Type := mkOptions {
  route : string;
  excludePaths : option (list string)
}.

Definition defaultOptions : SwaggerOptions :=
  {| route := "/swagger-ui"; excludePaths := Some [] |}.

(** [shouldExcludePath(path)] *)
Definition shouldExcludePath (opts : SwaggerOptions) (path : string) : bool :=
  if startsWith path (route opts) then true
  else match excludePaths opts with
       | Some l => existsb (fun excludePath => startsWith path excludePath) l
       | None => false
       end.

(** The [routeInfo] object that [autoRegisterRoute] builds. *)
Definition autoRouteInfo (method path normalizedPath : string)
    (options : option props) : RouteInfo :=
  {| Swagger.method := toLowerCase method;
     Swagger.path := normalizedPath;
     fields :=
       {[ "parameters" := JArr (extractParametersFromPath normalizedPath);
          "responses" := generateDefaultResponses;
          "tags" :=
            js_or (opt_prop options "tags")
                  (JArr [JStr (generateTagFromPath path)]);
          "summary" :=
            js_or (opt_prop options "summary")
                  (JStr (toUpperCase method ++ " " ++ path));
          "description" := opt_prop options "description";
          "requestBody" := generateRequestBodyFromMethod method options ]} |}.

(** [autoRegisterRoute(method, path, options)] *)
Definition autoRegisterRoute (opts : SwaggerOptions) (method path : string)
    (options : option props) (routes : list RouteInfo) : list RouteInfo :=
  if shouldExcludePath opts path then routes
  else
    let openAPIPath := convertToOpenAPIPath path in
    let normalizedPath := normalizePath openAPIPath in
    if isRouteDocumented method normalizedPath routes then routes
    else
      let routeInfo := autoRouteInfo method path normalizedPath options in
      addRoute routeInfo routes.

(** [registerRoute(method, path, options)], the manual registration. *)
Definition registerRoute (method path : string) (options : option props)
    (routes : list RouteInfo) : list RouteInfo :=
  let routeInfo :=
    {| Swagger.method := toLowerCase method;
       Swagger.path := convertToOpenAPIPath path;
       fields :=
         {[ "parameters" := js_or (opt_prop options "parameters") (JArr []);
            "responses" :=
              js_or (opt_prop options "responses") generateDefaultResponses;
            "tags" :=
              js_or (opt_prop options "tags")
                    (JArr [JStr (generateTagFromPath path)]);
            "requestBody" := opt_prop options "requestBody" ]} |} in
  addRoute routeInfo routes.

(** *** Rendering *)

(** The operation object that [generateOpenAPISpec] builds for a route. *)
Definition operation_of (route : RouteInfo) : props :=
  let operation : props :=
    {[ "tags" := get_prop (fields route) "tags";
       "summary" := get_prop (fields route) "summary";
       "parameters" := get_prop (fields route) "parameters";
       "responses" := get_prop (fields route) "responses" ]} in
  let operation :=
    if truthy (get_prop (fields route) "description")
    then <["description" := get_prop (fields route) "description"]> operation
    else operation in
  if String.eqb (method route) "post" || String.eqb (method route) "put"
     || String.eqb (method route) "patch"
  then <["requestBody" :=
           js_or (get_prop (fields route) "requestBody")
                 (JObj [("content",
                         json_content (JObj [("type", JStr "object")]))])]>
         operation
  else operation.

(** The own properties of [Object.prototype].  [paths], and the object
    under each path, are plain objects ([{}]) and inherit them: under one
    of these names, [paths[name]] is a built-in value, which is truthy,
    when [paths] has no own property of that name. *)
Definition objectPrototype : list string :=
  ["constructor"; "__defineGetter__"; "__defineSetter__"; "hasOwnProperty";
   "__lookupGetter__"; "__lookupSetter__"; "isPrototypeOf";
   "propertyIsEnumerable"; "toString"; "valueOf"; "__proto__";
   "toLocaleString"].

Definition inherited (name : string) : bool :=
  existsb (String.eqb name) objectPrototype.

(** [item[method] = operation] on the object under a path: an own
    property is written, except under [__proto__], whose setter replaces
    the prototype of the object and adds no own property. *)
Definition assign_operation (method : string) (operation : props)
    (item : gmap string props) : gmap string props :=
  if String.eqb method "__proto__" then item
  else <[method := operation]> item.

(** The body of the [forEach] of [generateOpenAPISpec], on the own
    properties of [paths].  [None]: the path of the route names a property
    that [paths] inherits, so that [!paths[route.path]] is false, no object
    is created under the path, and [paths[route.path][route.method] =
    operation] writes on a built-in object ([Object.prototype] itself for
    [__proto__]).  The write is outside the document; the model stops
    there. *)
Definition render_route (paths : gmap string (gmap string props))
    (route : RouteInfo) : option (gmap string (gmap string props)) :=
  if inherited (path route) then None
  else
    Some (<[path route :=
              assign_operation (method route) (operation_of route)
                (default ∅ (paths !! path route))]> paths).

Fixpoint render_routes (routes : list RouteInfo)
    (paths : gmap string (gmap string props))
  : option (gmap string (gmap string props)) :=
  match routes with
  | [] => Some paths
  | route :: routes' =>
      paths' ← render_route paths route; render_routes routes' paths'
  end.

(** The own properties of the [paths] property of the object that
    [generateOpenAPISpec()] returns: path, then method. *)
Definition generateOpenAPISpec_paths (routes : list RouteInfo)
  : option (gmap string (gmap string props)) :=
  render_routes routes ∅.

(** *** Static scan registration *)

(** A route found by the scanner ([routerScanner.ts], [RouteInfo]) and the
    descriptor of a router file ([RouterInfo]), as far as the registration
    reads them. *)
Record ScannedRoute : Type := mkScanned {
  sr_method : string;
  sr_path : string;
  sr_lineNumber : nat
}.

Record RouterInfo : Type := mkRouter {
  filePath : string;
  routerName : string;
  scanned : list ScannedRoute
}.

Fixpoint endsWith (s suffix : string) : bool :=
  String.eqb s suffix ||
  match s with
  | EmptyString => false
  | String _ r => endsWith r suffix
  end.

Fixpoint dropLastN (n : nat) (s : string) : string :=
  match n with
  | O => s
  | S n' => dropLastN n' (dropLast s)
  end.

(** [fileName.replace(/\.(ts|js|tsx|jsx)$/, '')] *)
Definition stripExtension (fileName : string) : string :=
  if endsWith fileName ".ts" || endsWith fileName ".js"
  then dropLastN 3 fileName
  else if endsWith fileName ".tsx" || endsWith fileName ".jsx"
  then dropLastN 4 fileName
  else fileName.

(** [generateBasePathFromFilePath(filePath)]: both branches of the source
    return the same string. *)
Definition generateBasePathFromFilePath (filePath : string) : string :=
  let pathParts := split_slash filePath in
  let fileName := List.last pathParts "" in
  ("/api/" ++ stripExtension fileName)%string.

(** The options that [scanAndRegisterRouters] builds for one route. *)
Definition scanOptions (filePath method fullPath : string) : props :=
  {[ "tags" := JArr [JStr (generateTagFromPath fullPath)];
     "summary" := JStr (toUpperCase method ++ " " ++ fullPath);
     "description" := JStr ("Auto-generated from " ++ filePath);
     "requestBody" := generateRequestBodyFromMethod method None ]}.

(** The body of the outer loop of [scanAndRegisterRouters]. *)
Definition registerRouter (opts : SwaggerOptions) (router : RouterInfo)
    (routes : list RouteInfo) : list RouteInfo :=
  let basePath := generateBasePathFromFilePath (filePath router) in
  fold_left
    (fun routes route =>
       let fullPath := (basePath ++ sr_path route)%string in
       autoRegisterRoute opts (sr_method route) fullPath
         (Some (scanOptions (filePath router) (sr_method route) fullPath))
         routes)
    (scanned router) routes.

(** [scanAndRegisterRouters()], given what the scanner returned;
    [enabled] is [autoScanEnabled || fileWatcher]. *)
Definition scanAndRegisterRouters (opts : SwaggerOptions) (enabled : bool)
    (routers : list RouterInfo) (routes : list RouteInfo) : list RouteInfo :=
  if enabled
  then fold_left (fun routes router => registerRouter opts router routes)
                 routers routes
  else routes.

(** *** Runtime interception *)

(** The first argument of a verb call ([args[0]]): a path or, in the form
    of the framework without a path ([app.get(handler)]), a function.  Of
    such a function the wrappers use the text only: [basePath + path] is
    then the base path followed by the text of the function. *)
Inductive argument : Type :=
  | Path (path : string)
  | Handler (source : string).

Coercion Path : string >-> argument.

(** [String(path)], as the concatenation [basePath + path] takes it. *)
Definition text_of (first : argument) : string :=
  match first with
  | Path path => path
  | Handler source => source
  end.

(** An argument after the first one in a verb call ([args.slice(1)]): a
    function, which may carry [__swaggerOptions] and
    [__swaggerRouteOptions], or something else. *)
Inductive handler : Type :=
  | NotAFunction
  | Fn (swaggerOptions swaggerRouteOptions : option props).

(** The loop over [handlers] that both wrappers run. *)
Definition routeOptionsOf (handlers : list handler) : props :=
  fold_left
    (fun routeOptions h =>
       match h with
       | NotAFunction => routeOptions
       | Fn so sro =>
           let routeOptions :=
             match so with
             | Some o => spread routeOptions o
             | None => routeOptions
             end in
           match sro with
           | Some o => spread routeOptions o
           | None => routeOptions
           end
       end)
    handlers ∅.

(** What sits in a verb property ([get], [post], ...) of an application
    object: the framework's own method, or a wrapper, which holds the
    method it replaced. *)
Inductive verb_slot : Type :=
  | OriginalVerb
  | MainWrapper (method : string) (originalMethod : verb_slot)
  | SubWrapper (basePath method : string) (originalMethod : verb_slot).

(** What sits in the [route] property. *)
Inductive route_slot : Type :=
  | OriginalRoute
  | RouteWrapper (originalRouteMethod : route_slot).

(** An application or sub-router object: its verb methods by name and its
    [route] method (absent when the object has none). *)
Record HonoApp : Type := mkApp {
  verbs : gmap string verb_slot;
  mount : option route_slot
}.

(** What an execution does, in order: a call of [autoRegisterRoute] and a
    call of a method of the framework. *)
Inductive event : Type :=
  | Observed (method fullPath : string)
  | DelegatedVerb (app : nat) (name : string) (first : argument)
  | DelegatedRoute (app : nat) (path : string) (subApp : nat).

(** The [HonoSwagger] instance ([options], [app], [routes]) with the
    application objects it can reach, by reference, and the trace. *)
Record state : Type := mkState {
  st_options : SwaggerOptions;
  st_app : nat;
  st_routes : list RouteInfo;
  st_heap : gmap nat HonoApp;
  st_trace : list event
}.

Definition log (e : event) (st : state) : state :=
  {| st_options := st_options st; st_app := st_app st;
     st_routes := st_routes st; st_heap := st_heap st;
     st_trace := st_trace st ++ [e] |}.

Definition set_heap (h : gmap nat HonoApp) (st : state) : state :=
  {| st_options := st_options st; st_app := st_app st;
     st_routes := st_routes st; st_heap := h;
     st_trace := st_trace st |}.

(** [this.autoRegisterRoute(method, path, routeOptions)] inside a wrapper. *)
Definition observe (method fullPath : string) (routeOptions : props)
    (st : state) : state :=
  log (Observed method fullPath)
    {| st_options := st_options st; st_app := st_app st;
       st_routes :=
         autoRegisterRoute (st_options st) method fullPath
           (Some routeOptions) (st_routes st);
       st_heap := st_heap st; st_trace := st_trace st |}.

Definition methods : list string :=
  ["get"; "post"; "put"; "delete"; "patch"; "head"; "options"].

(** The [methods.forEach] of [hookIntoRouteMethods] and of
    [hookIntoSubAppRoutes]: a method that the object has is replaced by a
    wrapper around it. *)
Definition wrapVerbs (wrapper : string -> verb_slot -> verb_slot)
    (a : HonoApp) : HonoApp :=
  {| verbs :=
       fold_left
         (fun vs method =>
            match vs !! method with
            | Some originalMethod =>
                <[method := wrapper method originalMethod]> vs
            | None => vs
            end)
         methods (verbs a);
     mount := mount a |}.

(** [hookIntoRouteMethods()] *)
Definition hookIntoRouteMethods (st : state) : state :=
  match st_heap st !! st_app st with
  | Some a =>
      set_heap (<[st_app st := wrapVerbs MainWrapper a]> (st_heap st)) st
  | None => st
  end.

(** [hookIntoRouteMethod()] *)
Definition hookIntoRouteMethod (st : state) : state :=
  match st_heap st !! st_app st with
  | Some a =>
      match mount a with
      | Some originalRouteMethod =>
          set_heap
            (<[st_app st :=
                 {| verbs := verbs a;
                    mount := Some (RouteWrapper originalRouteMethod) |}]>
               (st_heap st)) st
      | None => st
      end
  | None => st
  end.

(** [hookIntoSubAppRoutes(basePath, subApp)] *)
Definition hookIntoSubAppRoutes (basePath : string) (subApp : nat)
    (st : state) : state :=
  match st_heap st !! subApp with
  | Some a =>
      set_heap (<[subApp := wrapVerbs (SubWrapper basePath) a]> (st_heap st)) st
  | None => st
  end.

(** [new HonoSwagger(app, options)] over the given objects. *)
Definition construct (opts : SwaggerOptions) (app : nat)
    (heap : gmap nat HonoApp) : state :=
  hookIntoRouteMethod
    (hookIntoRouteMethods
       {| st_options := opts; st_app := app; st_routes := [];
          st_heap := heap; st_trace := [] |}).

(** Running what sits in the verb property [name] of the object [self],
    called with [(first, ...handlers)].  [None]: the call raises.  The
    wrapper of the application passes [args[0]] to [autoRegisterRoute],
    whose first statement calls [path.startsWith]: on a function this is a
    [TypeError], raised before anything is written and before the original
    method is called.  The wrapper of a mounted object passes the string
    [basePath + path]. *)
Fixpoint runVerb (slot : verb_slot) (self : nat) (name : string)
    (first : argument) (handlers : list handler) (st : state)
  : option state :=
  match slot with
  | OriginalVerb => Some (log (DelegatedVerb self name first) st)
  | MainWrapper method originalMethod =>
      match first with
      | Path path =>
          runVerb originalMethod self name first handlers
            (observe method path (routeOptionsOf handlers) st)
      | Handler _ => None
      end
  | SubWrapper basePath method originalMethod =>
      let fullPath := (basePath ++ text_of first)%string in
      runVerb originalMethod self name first handlers
        (observe method fullPath (routeOptionsOf handlers) st)
  end.

(** Running what sits in the [route] property of [self], called with
    [(path, subApp)]. *)
Fixpoint runRoute (slot : route_slot) (self : nat) (path : string)
    (subApp : nat) (st : state) : state :=
  match slot with
  | OriginalRoute => log (DelegatedRoute self path subApp) st
  | RouteWrapper originalRouteMethod =>
      runRoute originalRouteMethod self path subApp
        (hookIntoSubAppRoutes path subApp st)
  end.

(** The calls that the hosting program makes on its objects:
    [app.name(first, ...handlers)] and [app.route(path, subApp)].  [None]:
    the call raises a [TypeError] (the object has no such method, or a
    wrapper raises), and the hosting program, a sequence of calls, stops
    there. *)
Inductive call : Type :=
  | CallVerb (app : nat) (name : string) (first : argument)
      (handlers : list handler)
  | CallRoute (app : nat) (path : string) (subApp : nat).

Definition step (c : call) (st : state) : option state :=
  match c with
  | CallVerb app name first handlers =>
      a ← st_heap st !! app;
      slot ← verbs a !! name;
      runVerb slot app name first handlers st
  | CallRoute app path subApp =>
      a ← st_heap st !! app;
      slot ← mount a;
      Some (runRoute slot app path subApp st)
  end.

Fixpoint run (calls : list call) (st : state) : option state :=
  match calls with
  | [] => Some st
  | c :: calls' => st' ← step c st; run calls' st'
  end.

(** A freshly created framework object that has all the methods. *)
Definition freshApp : HonoApp :=
  {| verbs := list_to_map (map (fun m => (m, OriginalVerb)) methods);
     mount := Some OriginalRoute |}.

End Swagger.

Module Analyzer.

(** *** Schemas

    The part of a Zod schema object that [zodToOpenAPI] reads: the class
    of the node and the properties of its [_def]. *)

(** A check of a [ZodString], by [kind].  A [regex] check holds a regular
    expression, of which the converter reads [source]; [None] is a check
    whose [regex] is missing, so that reading [source] raises. *)
Inductive string_check : Type :=
  | SEmail
  | SUrl
  | SMin (value : Z)
  | SMax (value : Z)
  | SRegex (source : option string)
  | SOther (kind : string).

(** A check of a [ZodNumber]. *)
Inductive number_check : Type :=
  | NMin (value : Z)
  | NMax (value : Z)
  | NInt
  | NOther (kind : string).

(** A schema node.  [shape] of an object is the sequence that
    [Object.entries(schema._def.shape())] yields (its keys are distinct),
    or [None] when calling [shape()] raises; [defaultValue] of a default
    wrapper is what the call [defaultValue()] returns, or [None] when it
    raises.  [ZodOther] is an instance of any other class. *)
Inductive zod : Type :=
  | ZodString (checks : list string_check)
  | ZodNumber (checks : list number_check)
  | ZodBoolean
  | ZodObject (shape : option (list (string * zod)))
  | ZodArray (type : zod)
  | ZodOptional (innerType : zod)
  | ZodDefault (innerType : zod) (defaultValue : option jsval)
  | ZodEnum (values : list string)
  | ZodUnion (options : list zod)
  | ZodLiteral (value : jsval)
  | ZodOther (typeName : string).

(** *** Fragments

    The object that the converter builds; a property that was never
    assigned is [None]. *)
Inductive fragment : Type := mkFragment {
  f_type : option string;
  f_format : option string;
  f_minLength : option Z;
  f_maxLength : option Z;
  f_pattern : option string;
  f_minimum : option Z;
  f_maximum : option Z;
  f_properties : option (list (string * fragment));
  f_required : option (list string);
  f_items : option fragment;
  f_default : option jsval;
  f_enum : option (list jsval);
  f_oneOf : option (list fragment)
}.

(** [{}] *)
Definition empty_fragment : fragment :=
  mkFragment None None None None None None None None None None None None None.

(** Assignments [o.type = v], [o.format = v], ... *)
Definition set_type (v : string) (o : fragment) : fragment :=
  mkFragment (Some v) (f_format o) (f_minLength o) (f_maxLength o)
    (f_pattern o) (f_minimum o) (f_maximum o) (f_properties o)
    (f_required o) (f_items o) (f_default o) (f_enum o) (f_oneOf o).
Definition set_format (v : string) (o : fragment) : fragment :=
  mkFragment (f_type o) (Some v) (f_minLength o) (f_maxLength o)
    (f_pattern o) (f_minimum o) (f_maximum o) (f_properties o)
    (f_required o) (f_items o) (f_default o) (f_enum o) (f_oneOf o).
Definition set_minLength (v : Z) (o : fragment) : fragment :=
  mkFragment (f_type o) (f_format o) (Some v) (f_maxLength o)
    (f_pattern o) (f_minimum o) (f_maximum o) (f_properties o)
    (f_required o) (f_items o) (f_default o) (f_enum o) (f_oneOf o).
Definition set_maxLength (v : Z) (o : fragment) : fragment :=
  mkFragment (f_type o) (f_format o) (f_minLength o) (Some v)
    (f_pattern o) (f_minimum o) (f_maximum o) (f_properties o)
    (f_required o) (f_items o) (f_default o) (f_enum o) (f_oneOf o).
Definition set_pattern (v : string) (o : fragment) : fragment :=
  mkFragment (f_type o) (f_format o) (f_minLength o) (f_maxLength o)
    (Some v) (f_minimum o) (f_maximum o) (f_properties o)
    (f_required o) (f_items o) (f_default o) (f_enum o) (f_oneOf o).
Definition set_minimum (v : Z) (o : fragment) : fragment :=
  mkFragment (f_type o) (f_format o) (f_minLength o) (f_maxLength o)
    (f_pattern o) (Some v) (f_maximum o) (f_properties o)
    (f_required o) (f_items o) (f_default o) (f_enum o) (f_oneOf o).
Definition set_maximum (v : Z) (o : fragment) : fragment :=
  mkFragment (f_type o) (f_format o) (f_minLength o) (f_maxLength o)
    (f_pattern o) (f_minimum o) (Some v) (f_properties o)
    (f_required o) (f_items o) (f_default o) (f_enum o) (f_oneOf o).
Definition set_properties (v : list (string * fragment)) (o : fragment)
  : fragment :=
  mkFragment (f_type o) (f_format o) (f_minLength o) (f_maxLength o)
    (f_pattern o) (f_minimum o) (f_maximum o) (Some v)
    (f_required o) (f_items o) (f_default o) (f_enum o) (f_oneOf o).
Definition set_required (v : list string) (o : fragment) : fragment :=
  mkFragment (f_type o) (f_format o) (f_minLength o) (f_maxLength o)
    (f_pattern o) (f_minimum o) (f_maximum o) (f_properties o)
    (Some v) (f_items o) (f_default o) (f_enum o) (f_oneOf o).
Definition set_items (v : fragment) (o : fragment) : fragment :=
  mkFragment (f_type o) (f_format o) (f_minLength o) (f_maxLength o)
    (f_pattern o) (f_minimum o) (f_maximum o) (f_properties o)
    (f_required o) (Some v) (f_default o) (f_enum o) (f_oneOf o).
Definition set_default (v : jsval) (o : fragment) : fragment :=
  mkFragment (f_type o) (f_format o) (f_minLength o) (f_maxLength o)
    (f_pattern o) (f_minimum o) (f_maximum o) (f_properties o)
    (f_required o) (f_items o) (Some v) (f_enum o) (f_oneOf o).
Definition set_enum (v : list jsval) (o : fragment) : fragment :=
  mkFragment (f_type o) (f_format o) (f_minLength o) (f_maxLength o)
    (f_pattern o) (f_minimum o) (f_maximum o) (f_properties o)
    (f_required o) (f_items o) (f_default o) (Some v) (f_oneOf o).
Definition set_oneOf (v : list fragment) (o : fragment) : fragment :=
  mkFragment (f_type o) (f_format o) (f_minLength o) (f_maxLength o)
    (f_pattern o) (f_minimum o) (f_maximum o) (f_properties o)
    (f_required o) (f_items o) (f_default o) (f_enum o) (Some v).

(** [{ type: t }] *)
Definition typed (t : string) : fragment := set_type t empty_fragment.

(** The fallback [{ type: 'object' }]. *)
Definition fallback : fragment := typed "object".

(** *** Exceptions and the diagnostic channel *)

Inductive exn : Type :=
  | RegexMissing
  | ShapeRaised
  | DefaultValueRaised.

(** How the [try] block ends: with a [return], with an exception, or at
    its end, no branch having been taken. *)
Inductive completion : Type :=
  | Return (result : fragment)
  | Throw (error : exn)
  | Normal.

(** A computation that may call [console.warn]: the errors it was called
    with, in order, and the result. *)
Definition logged (A : Type) : Type := list exn * A.

#[export] Instance logged_ret : MRet logged := fun A a => ([], a).
#[export] Instance logged_bind : MBind logged := fun A B k m =>
  let '(w1, a) := m in let '(w2, b) := k a in ((w1 ++ w2)%list, b).
Definition warn (e : exn) : logged unit := ([e], tt).
Definition ret {A} (a : A) : logged A := mret a.

(** *** The converter *)

(** The [switch] on [check.kind] in the [ZodString] branch. *)
Definition string_check_step (check : string_check) (stringSchema : fragment)
  : exn + fragment :=
  match check with
  | SEmail => inr (set_format "email" stringSchema)
  | SUrl => inr (set_format "uri" stringSchema)
  | SMin value => inr (set_minLength value stringSchema)
  | SMax value => inr (set_maxLength value stringSchema)
  | SRegex (Some source) => inr (set_pattern source stringSchema)
  | SRegex None => inl RegexMissing
  | SOther _ => inr stringSchema
  end.

(** [for (const check of schema._def.checks)] on a string schema. *)
Fixpoint string_checks (checks : list string_check) (stringSchema : fragment)
  : exn + fragment :=
  match checks with
  | [] => inr stringSchema
  | check :: rest =>
      match string_check_step check stringSchema with
      | inl e => inl e
      | inr stringSchema' => string_checks rest stringSchema'
      end
  end.

(** The [switch] on [check.kind] in the [ZodNumber] branch. *)
Definition number_check_step (numberSchema : fragment) (check : number_check)
  : fragment :=
  match check with
  | NMin value => set_minimum value numberSchema
  | NMax value => set_maximum value numberSchema
  | NInt => set_type "integer" numberSchema
  | NOther _ => numberSchema
  end.

(** [!(value instanceof z.ZodOptional) && !(value instanceof z.ZodDefault)] *)
Definition is_required (value : zod) : bool :=
  match value with
  | ZodOptional _ | ZodDefault _ _ => false
  | _ => true
  end.

(** The object that the [ZodObject] branch returns, from [properties] and
    [required] as the loop left them. *)
Definition object_fragment (properties : list (string * fragment))
    (required : list string) : fragment :=
  let objectSchema := set_properties properties (typed "object") in
  if (0 <? length required)%nat
  then set_required required objectSchema
  else objectSchema.

(** The loop over [Object.entries(shape)] in the [ZodObject] branch, as
    far as it fills [properties]: [properties[key] = self(value)]. *)
Fixpoint convert_entries (self : zod -> logged fragment)
    (entries : list (string * zod)) : logged (list (string * fragment)) :=
  match entries with
  | [] => ret []
  | (key, value) :: rest =>
      f ← self value;
      properties ← convert_entries self rest;
      ret ((key, f) :: properties)
  end.

(** [options.map(option => self(option))] in the [ZodUnion] branch. *)
Fixpoint convert_options (self : zod -> logged fragment)
    (options : list zod) : logged (list fragment) :=
  match options with
  | [] => ret []
  | option :: rest =>
      f ← self option;
      fs ← convert_options self rest;
      ret (f :: fs)
  end.

(** The [try] block, with [self] for the calls [this.zodToOpenAPI(...)]. *)
Definition try_block (self : zod -> logged fragment) (schema : zod)
  : logged completion :=
  match schema with
  | ZodString checks =>
      match string_checks checks (typed "string") with
      | inl e => ret (Throw e)
      | inr stringSchema => ret (Return stringSchema)
      end
  | ZodNumber checks =>
      ret (Return (fold_left number_check_step checks (typed "number")))
  | ZodBoolean => ret (Return (typed "boolean"))
  | ZodObject None => ret (Throw ShapeRaised)
  | ZodObject (Some shape) =>
      properties ← convert_entries self shape;
      let required := map fst (filter (fun kv => is_required (snd kv)) shape) in
      ret (Return (object_fragment properties required))
  | ZodArray type =>
      items ← self type;
      ret (Return (set_items items (typed "array")))
  | ZodOptional innerType =>
      f ← self innerType;
      ret (Return f)
  | ZodDefault innerType defaultValue =>
      innerSchema ← self innerType;
      match defaultValue with
      | None => ret (Throw DefaultValueRaised)
      | Some v => ret (Return (set_default v innerSchema))
      end
  | ZodEnum values =>
      ret (Return (set_enum (map JStr values) (typed "string")))
  | ZodUnion options =>
      oneOf ← convert_options self options;
      ret (Return (set_oneOf oneOf empty_fragment))
  | ZodLiteral value =>
      ret (Return (set_enum [value] (typed (js_typeof value))))
  | ZodOther _ => ret Normal
  end.

(** The [catch] clause and the statement after the [try]. *)
Definition finish (c : completion) : logged fragment :=
  match c with
  | Return result => ret result
  | Throw error => _ ← warn error; ret fallback
  | Normal => ret fallback
  end.

(** [zodToOpenAPI(schema)] on a schema object. *)
Fixpoint convert (schema : zod) : logged fragment :=
  c ← try_block convert schema; finish c.

(** [zodToOpenAPI(schema)]; [None] is [null] or [undefined]. *)
Definition zodToOpenAPI (schema : option zod) : logged fragment :=
  match schema with
  | None => ret fallback
  | Some schema => convert schema
  end.

End Analyzer.

Import Swagger Analyzer.

(** The merge that the specification describes, in its words: a new
    value wins when it is not empty, and an empty or undefined new value
    does not erase the value that is there. *)
Definition is_empty_value (v : jsval) : bool :=
  match v with
  | JUndefined | JNull => true
  | JStr s => String.eqb s ""
  | JArr [] => true
  | JObj [] => true
  | _ => false
  end.

Definition spec_merge (old new : props) : props :=
  union_with (fun n o => if is_empty_value n then Some o else Some n) new old.

(** The key of an entry, and the registry invariant: no two entries share
    a key. *)
Definition key_of (r : RouteInfo) : string * string := (method r, path r).

Definition unique_keys (routes : list RouteInfo) : Prop :=
  NoDup (map key_of routes).

(** The entries stored under a key. *)
Definition entries_of (m p : string) (routes : list RouteInfo)
  : list RouteInfo :=
  List.filter (same_key m p) routes.

(** A path as the hosting program writes it: literal segments and named
    parameters, each after a slash. *)
Inductive segment : Type :=
  | Literal (text : string)
  | Param (name : string).

Fixpoint all_chars (f : ascii -> bool) (s : string) : bool :=
  match s with
  | EmptyString => true
  | String c r => f c && all_chars f r
  end.

(** A literal segment holds no colon; a parameter name is a non-empty
    sequence of [\w] characters. *)
Definition segment_ok (seg : segment) : bool :=
  match seg with
  | Literal text => all_chars (fun c => negb (is_colon c)) text
  | Param name => negb (String.eqb name "") && all_chars is_word name
  end.

(** The path in the syntax of the framework ([/users/:id]) and in the
    placeholder syntax ([/users/{id}]). *)
Fixpoint colon_path (segs : list segment) : string :=
  match segs with
  | [] => ""
  | Literal text :: segs' => ("/" ++ text ++ colon_path segs')%string
  | Param name :: segs' => ("/:" ++ name ++ colon_path segs')%string
  end.

Fixpoint brace_path (segs : list segment) : string :=
  match segs with
  | [] => ""
  | Literal text :: segs' => ("/" ++ text ++ brace_path segs')%string
  | Param name :: segs' => ("/{" ++ name ++ "}" ++ brace_path segs')%string
  end.

(** What [autoRegisterRoute] stores for a path. *)
Definition storedPath (path : string) : string :=
  normalizePath (convertToOpenAPIPath path).

(** The property of a fragment that a string check assigns. *)
Definition check_target (check : string_check) : option string :=
  match check with
  | SEmail | SUrl => Some "format"
  | SMin _ => Some "minLength"
  | SMax _ => Some "maxLength"
  | SRegex _ => Some "pattern"
  | SOther _ => None
  end.

#[export] Instance string_check_eq_dec : EqDecision string_check.
Proof. solve_decision. Defined.

(** A field schema that is an optional wrapper or a default wrapper. *)
Definition wrapped (value : zod) : Prop :=
  (exists innerType, value = ZodOptional innerType) \/
  (exists innerType defaultValue, value = ZodDefault innerType defaultValue).

(** The fragments of the specification's examples. *)
Definition email_1_100 : fragment :=
  {| f_type := Some "string"; f_format := Some "email";
     f_minLength := Some 1%Z; f_maxLength := Some 100%Z;
     f_pattern := None; f_minimum := None; f_maximum := None;
     f_properties := None; f_required := None; f_items := None;
     f_default := None; f_enum := None; f_oneOf := None |}.

Definition integer_min_0 : fragment :=
  {| f_type := Some "integer"; f_format := None;
     f_minLength := None; f_maxLength := None;
     f_pattern := None; f_minimum := Some 0%Z; f_maximum := None;
     f_properties := None; f_required := None; f_items := None;
     f_default := None; f_enum := None; f_oneOf := None |}.

Definition name_age_object : fragment :=
  {| f_type := Some "object"; f_format := None;
     f_minLength := None; f_maxLength := None;
     f_pattern := None; f_minimum := None; f_maximum := None;
     f_properties := Some [("name", typed "string"); ("age", integer_min_0)];
     f_required := Some ["name"]; f_items := None;
     f_default := None; f_enum := None; f_oneOf := None |}.

(** ** The static scanner ([routerScanner.ts]) *)

Module Scanner.

(** The class [\s] of a regular expression, on the characters below
    U+0100: tab, line feed, vertical tab, form feed, carriage return,
    space and no-break space. *)
Definition is_space (c : ascii) : bool :=
  between 9 13 (code c) || (code c =? 32)%nat || (code c =? 160)%nat.

Definition double_quote : ascii := ascii_of_nat 34.
Definition newline : ascii := ascii_of_nat 10.

(** The delimiters of the two route patterns: the single and the double
    quote for the first, the backtick for the second. *)
Definition is_quote (c : ascii) : bool :=
  Ascii.eqb c "'" || Ascii.eqb c double_quote.
Definition is_backtick (c : ascii) : bool := Ascii.eqb c "`".

(** A literal part of a pattern: what is left of [s] after [lit], when
    [s] starts with it. *)
Fixpoint strip_prefix (lit s : string) : option string :=
  match lit with
  | EmptyString => Some s
  | String a lit' =>
      match s with
      | EmptyString => None
      | String b s' => if Ascii.eqb a b then strip_prefix lit' s' else None
      end
  end.

(** A greedy class repetition: the longest prefix of characters of the
    class, and what follows it. *)
Fixpoint take_while (f : ascii -> bool) (s : string) : string :=
  match s with
  | EmptyString => ""
  | String c r => if f c then String c (take_while f r) else ""
  end.

Fixpoint drop_while (f : ascii -> bool) (s : string) : string :=
  match s with
  | EmptyString => ""
  | String c r => if f c then drop_while f r else s
  end.

(** [\s*] and [\s+] at the start of [s]. *)
Definition skip_spaces (s : string) : string := drop_while is_space s.

Definition spaces1 (s : string) : option string :=
  match s with
  | EmptyString => None
  | String c r => if is_space c then Some (skip_spaces r) else None
  end.

(** The alternation of the route patterns, in its order.  No verb is a
    prefix of another, so at most one alternative matches at a position. *)
Definition verbs : list string :=
  ["get"; "post"; "put"; "delete"; "patch"; "options"; "head"].

Fixpoint match_verb (alternatives : list string) (s : string)
  : option (string * string) :=
  match alternatives with
  | [] => None
  | verb :: alternatives' =>
      match strip_prefix verb s with
      | Some rest => Some (verb, rest)
      | None => match_verb alternatives' s
      end
  end.

(** One attempt of a route pattern at the start of [s]:
    [name\.(get|...|head)\s*\(\s*Q([^Q]+)Q], where [Q] is the class of the
    delimiters.  The router name is a [\w+] capture or ['default'], so it
    stands for itself in the pattern.  The result is the verb, the path
    and what follows the match. *)
Definition match_route_at (routerName : string) (is_delim : ascii -> bool)
    (s : string) : option (string * string * string) :=
  rest ← strip_prefix routerName s;
  rest ← strip_prefix "." rest;
  '(verb, rest) ← match_verb verbs rest;
  rest ← strip_prefix "(" (skip_spaces rest);
  match skip_spaces rest with
  | EmptyString => None
  | String q rest =>
      if is_delim q then
        let path := take_while (fun c => negb (is_delim c)) rest in
        match path, drop_while (fun c => negb (is_delim c)) rest with
        | String _ _, String _ after => Some (verb, path, after)
        | _, _ => None
        end
      else None
  end.

(** [while ((match = pattern.exec(line)) !== null)] with a global
    pattern: the attempts go from left to right and resume where a match
    ended.  [skip] is the number of characters still to pass, being part
    of the last match. *)
Fixpoint scan_line (routerName : string) (is_delim : ascii -> bool)
    (skip : nat) (line : string) : list (string * string) :=
  match line with
  | EmptyString => []
  | String _ rest =>
      match skip with
      | S skip' => scan_line routerName is_delim skip' rest
      | O =>
          match match_route_at routerName is_delim line with
          | Some (verb, path, after) =>
              (verb, path)
              :: scan_line routerName is_delim
                   (String.length line - String.length after - 1) rest
          | None => scan_line routerName is_delim 0 rest
          end
      end
  end.

(** [content.split('\n')] *)
Fixpoint split_lines (content : string) : list string :=
  match content with
  | EmptyString => [""]
  | String c r =>
      if Ascii.eqb c newline then "" :: split_lines r
      else match split_lines r with
           | [] => [String c ""]
           | line :: lines => String c line :: lines
           end
  end.

(** The body of the loop over the lines in [extractRoutesFromContent]:
    the matches of the first pattern, then those of the second. *)
Definition routes_of_line (routerName : string) (i : nat) (line : string)
  : list ScannedRoute :=
  map (fun vp => mkScanned (toLowerCase (fst vp)) (snd vp) (i + 1))
      (scan_line routerName is_quote 0 line
       ++ scan_line routerName is_backtick 0 line).

(** [extractRoutesFromContent(content, routerName)] *)
Definition extractRoutesFromContent (content routerName : string)
  : list ScannedRoute :=
  concat (imap (routes_of_line routerName) (split_lines content)).

(** The tail that the router patterns share:
    [\s*=\s*new\s+Hono\(\)]. *)
Definition match_new_hono (s : string) : option string :=
  rest ← strip_prefix "=" (skip_spaces s);
  rest ← strip_prefix "new" (skip_spaces rest);
  rest ← spaces1 rest;
  strip_prefix "Hono()" rest.

(** [keyword\s+(\w+)\s*=\s*new\s+Hono\(\)] at the start of [s]; the result
    is the capture. *)
Definition match_declaration (keyword s : string) : option string :=
  rest ← strip_prefix keyword s;
  rest ← spaces1 rest;
  match take_word rest with
  | EmptyString => None
  | name => _ ← match_new_hono (drop_while is_word rest); Some name
  end.

(** The router patterns, each at the start of [s]; [Some None] is a match
    without a capture. *)
Definition pattern_const (s : string) : option (option string) :=
  Some <$> match_declaration "const" s.
Definition pattern_let (s : string) : option (option string) :=
  Some <$> match_declaration "let" s.
Definition pattern_export_const (s : string) : option (option string) :=
  rest ← strip_prefix "export" s;
  rest ← spaces1 rest;
  Some <$> match_declaration "const" rest.
Definition pattern_export_default (s : string) : option (option string) :=
  rest ← strip_prefix "export" s;
  rest ← spaces1 rest;
  rest ← strip_prefix "default" rest;
  rest ← spaces1 rest;
  rest ← strip_prefix "new" rest;
  rest ← spaces1 rest;
  _ ← strip_prefix "Hono()" rest;
  Some None.

Definition routerPatterns : list (string -> option (option string)) :=
  [pattern_const; pattern_let; pattern_export_const; pattern_export_default;
   pattern_const].

(** [pattern.exec(line)] from the start of the line: the leftmost match. *)
Fixpoint exec (pattern : string -> option (option string)) (line : string)
  : option (option string) :=
  match pattern line with
  | Some m => Some m
  | None =>
      match line with
      | EmptyString => None
      | String _ rest => exec pattern rest
      end
  end.

(** [line.includes(sub)] *)
Fixpoint includes (line sub : string) : bool :=
  match strip_prefix sub line with
  | Some _ => true
  | None =>
      match line with
      | EmptyString => false
      | String _ rest => includes rest sub
      end
  end.

Inductive exportType : Type := ExportDefault | ExportNamed.

(** The loop over the patterns for one line: the name ([match[1] ||
    'default']) and the export type that the first matching pattern
    gives. *)
Fixpoint first_pattern (patterns : list (string -> option (option string)))
    (line : string) : option (string * exportType) :=
  match patterns with
  | [] => None
  | pattern :: patterns' =>
      match exec pattern line with
      | Some m =>
          let routerName :=
            match m with
            | Some (String c name) => String c name
            | _ => "default"
            end in
          Some (routerName,
                if includes line "export default" then ExportDefault
                else ExportNamed)
      | None => first_pattern patterns' line
      end
  end.

(** The loop over the lines: the first line on which a pattern matches. *)
Fixpoint find_router (lines : list string) : option (string * exportType) :=
  match lines with
  | [] => None
  | line :: lines' =>
      match first_pattern routerPatterns line with
      | Some found => Some found
      | None => find_router lines'
      end
  end.

(** [extractRouterFromFile(filePath)], given what [readFileSync] returns
    ([None] when it raises: the [catch] returns [null]). *)
Definition extractRouterFromFile (filePath : string) (content : option string)
  : option (RouterInfo * exportType) :=
  content ← content;
  '(routerName, exported) ← find_router (split_lines content);
  Some ({| Swagger.filePath := filePath;
           Swagger.routerName := routerName;
           scanned := extractRoutesFromContent content routerName |},
        exported).

End Scanner.

(** ** Parameters from a request ([extractParameters]) *)

Module Requests.

(** [path.match(/\{(\w+)\}/g)], with [[]] for [null]: an opening brace,
    the [\w] characters that follow it, and a closing brace right after
    them.  A match starts at an opening brace, which is no character of
    the rest of a match, so matches cannot overlap. *)
Fixpoint match_braces (s : string) : list string :=
  match s with
  | EmptyString => []
  | String c r =>
      if Ascii.eqb c "{" && starts_word r
      then match Scanner.drop_while is_word r with
           | String d _ =>
               if Ascii.eqb d "}"
               then (String c (take_word r ++ "}"))%string :: match_braces r
               else match_braces r
           | EmptyString => match_braces r
           end
      else match_braces r
  end.

(** [param.replace(/[{}]/g, '')] *)
Fixpoint remove_braces (s : string) : string :=
  match s with
  | EmptyString => ""
  | String c r =>
      if Ascii.eqb c "{" || Ascii.eqb c "}" then remove_braces r
      else String c (remove_braces r)
  end.

Definition parameter (name location : string) (required : bool) : jsval :=
  JObj [("name", JStr name); ("in", JStr location);
        ("required", JBool required);
        ("schema", JObj [("type", JStr "string")])].

(** [o.k]: the property of an object, [undefined] when it has none. *)
Definition prop_of (k : string) (o : jsval) : jsval :=
  match o with
  | JObj kvs =>
      match List.find (fun kv => String.eqb (fst kv) k) kvs with
      | Some kv => snd kv
      | None => JUndefined
      end
  | _ => JUndefined
  end.

(** [p.name === key] on a parameter object. *)
Definition has_name (key : string) (p : jsval) : bool :=
  match prop_of "name" p with
  | JStr name => String.eqb name key
  | _ => false
  end.

(** [extractParameters(path, c)], given the entries of
    [new URL(c.req.url).searchParams] in order ([None] when the URL does
    not parse: the [catch] ignores it). *)
Definition extractParameters (path : string)
    (searchParams : option (list (string * string))) : list jsval :=
  let parameters :=
    map (fun param => parameter (remove_braces param) "path" true)
        (match_braces path) in
  match searchParams with
  | None => parameters
  | Some entries =>
      fold_left
        (fun parameters entry =>
           let key := fst entry in
           if existsb (has_name key) parameters then parameters
           else parameters ++ [parameter key "query" false])
        entries parameters
  end.

End Requests.

(** ** Extraction from the routes of the application ([extractAllRoutes]) *)

Module Extraction.

(** An element of [app.routes], as far as it is read: [path], whether
    [handler] is truthy, and [method] ([None] when absent). *)
Record HonoRoute : Type := mkHonoRoute {
  hr_path : string;
  hr_handler : bool;
  hr_method : option string
}.

(** [route.method || 'get'] *)
Definition method_or_get (route : HonoRoute) : string :=
  match hr_method route with
  | Some (String c m) => String c m
  | _ => "get"
  end.

(** The options that [extractAllRoutes] builds for a route. *)
Definition extractOptions (route : HonoRoute) : props :=
  {[ "tags" := JArr [JStr (generateTagFromPath (hr_path route))];
     "summary" :=
       JStr (toUpperCase (method_or_get route) ++ " " ++ hr_path route);
     "description" := JStr "Auto-generated from main application";
     "requestBody" :=
       generateRequestBodyFromMethod (method_or_get route) None ]}.

(** The body of the [forEach] in [extractAllRoutes]. *)
Definition extractRoute (opts : SwaggerOptions) (routes : list RouteInfo)
    (route : HonoRoute) : list RouteInfo :=
  if negb (String.eqb (hr_path route) "") && hr_handler route then
    if String.eqb (hr_path route) "/*"
       || startsWith (hr_path route) "/swagger-ui"
    then routes
    else
      let openAPIPath := convertToOpenAPIPath (hr_path route) in
      autoRegisterRoute opts (method_or_get route) openAPIPath
        (Some (extractOptions route)) routes
  else routes.

(** [extractAllRoutes()], given [app.routes] ([None] when it is not an
    array). *)
Definition extractAllRoutes (opts : SwaggerOptions)
    (appRoutes : option (list HonoRoute)) (routes : list RouteInfo)
  : list RouteInfo :=
  match appRoutes with
  | Some l => fold_left (extractRoute opts) l routes
  | None => routes
  end.

End Extraction.

(** ** Sequences of registrations *)

(** A call of one of the operations that write the registry. *)
Inductive registration : Type :=
  | AddRoute (route : RouteInfo)
  | RegisterRoute (m p : string) (options : option props)
  | AutoRegister (m p : string) (options : option props)
  | ScanRouters (enabled : bool) (routers : list RouterInfo)
  | ExtractAll (appRoutes : option (list Extraction.HonoRoute)).

Definition register (opts : SwaggerOptions) (routes : list RouteInfo)
    (op : registration) : list RouteInfo :=
  match op with
  | AddRoute route => addRoute route routes
  | RegisterRoute m p options => registerRoute m p options routes
  | AutoRegister m p options => autoRegisterRoute opts m p options routes
  | ScanRouters enabled routers =>
      scanAndRegisterRouters opts enabled routers routes
  | ExtractAll appRoutes => Extraction.extractAllRoutes opts appRoutes routes
  end.

(** Every stored method is in lower case. *)
Definition all_lower (routes : list RouteInfo) : Prop :=
  Forall (fun r => toLowerCase (method r) = method r) routes.

(** What a handler gives for a key of the route options: its
    [__swaggerRouteOptions] before its [__swaggerOptions]. *)
Definition provides (h : handler) (k : string) : option jsval :=
  match h with
  | NotAFunction => None
  | Fn so sro =>
      match sro ≫= (fun o : props => o !! k) with
      | Some v => Some v
      | None => so ≫= (fun o : props => o !! k)
      end
  end.

(** What a rendered document holds for a path and a method. *)
Definition rendered (paths : gmap string (gmap string props)) (p m : string)
  : option props :=
  paths !! p ≫= (fun byMethod : gmap string props => byMethod !! m).

(** The names of the parameters of a path, in order. *)
Definition param_names (segs : list segment) : list string :=
  omap (fun seg => match seg with Param name => Some name | _ => None end)
       segs.

(** The nodes of a schema at which the conversion raises. *)
Fixpoint failures (schema : zod) : nat :=
  match schema with
  | ZodString checks =>
      if existsb (fun c => match c with SRegex None => true | _ => false end)
                 checks
      then 1 else 0
  | ZodObject None => 1
  | ZodObject (Some shape) =>
      (fix sum (es : list (string * zod)) : nat :=
         match es with
         | [] => 0
         | (_, value) :: es' => failures value + sum es'
         end) shape
  | ZodArray type => failures type
  | ZodOptional innerType => failures innerType
  | ZodDefault innerType defaultValue =>
      failures innerType + match defaultValue with None => 1 | Some _ => 0 end
  | ZodUnion options =>
      (fix sum (os : list zod) : nat :=
         match os with
         | [] => 0
         | option :: os' => failures option + sum os'
         end) options
  | ZodNumber _ | ZodBoolean | ZodEnum _ | ZodLiteral _ | ZodOther _ => 0
  end.

(** A path segment that [generateTagFromPath] keeps: not empty, without
    a slash, and not starting with an opening brace. *)
Definition plain_segment (seg : string) : bool :=
  negb (String.eqb seg "") && all_chars (fun c => negb (is_slash c)) seg
  && negb (startsWith seg "{").

(** A segment without an opening brace. *)
Definition brace_free (seg : segment) : bool :=
  match seg with
  | Literal text => all_chars (fun c => negb (Ascii.eqb c "{")) text
  | Param _ => true
  end.

(** The [name] of a parameter object. *)
Definition name_of (parameter : jsval) : option string :=
  match Requests.prop_of "name" parameter with
  | JStr name => Some name
  | _ => None
  end.

(** Lines put together with line feeds, and a line without one. *)
Fixpoint join_lines (lines : list string) : string :=
  match lines with
  | [] => ""
  | [line] => line
  | line :: lines' =>
      (line ++ String Scanner.newline (join_lines lines'))%string
  end.

Definition single_line (line : string) : bool :=
  all_chars (fun c => negb (Ascii.eqb c Scanner.newline)) line.

(** The routes of a list of routers that a scan registers: method, full
    path and options of each call of [autoRegisterRoute], in order. *)
Definition scan_calls (routers : list RouterInfo)
  : list (string * string * props) :=
  flat_map
    (fun router =>
       map (fun route =>
              let fullPath :=
                (generateBasePathFromFilePath (filePath router)
                 ++ sr_path route)%string in
              (sr_method route, fullPath,
               scanOptions (filePath router) (sr_method route) fullPath))
           (scanned router))
    routers.

(** A call that [autoRegisterRoute] answers by returning the registry. *)
Definition settled (opts : SwaggerOptions) (routes : list RouteInfo)
    (call : string * string * props) : Prop :=
  shouldExcludePath opts (snd (fst call)) = true \/
  isRouteDocumented (fst (fst call)) (storedPath (snd (fst call))) routes
  = true.

Definition auto_call (opts : SwaggerOptions) (routes : list RouteInfo)
    (call : string * string * props) : list RouteInfo :=
  autoRegisterRoute opts (fst (fst call)) (snd (fst call)) (Some (snd call))
    routes.

(** A call of a verb method on the router, with a quoted path. *)
Definition route_call (routerName verb sp1 sp2 : string) (q : ascii)
    (path : string) (q' : ascii) (rest : string) : string :=
  (routerName ++ "." ++ verb ++ sp1 ++ "(" ++ sp2
   ++ String q (path ++ String q' rest))%string.

(** The checks of a number schema by kind. *)
Definition is_int_check (check : number_check) : bool :=
  match check with NInt => true | _ => false end.
Definition min_value (check : number_check) : option Z :=
  match check with NMin value => Some value | _ => None end.
Definition max_value (check : number_check) : option Z :=
  match check with NMax value => Some value | _ => None end.

(** The fragment [{type: "object"}], property by property. *)
Definition type_object : fragment :=
  {| f_type := Some "object"; f_format := None;
     f_minLength := None; f_maxLength := None;
     f_pattern := None; f_minimum := None; f_maximum := None;
     f_properties := None; f_required := None; f_items := None;
     f_default := None; f_enum := None; f_oneOf := None |}.

(** The exception with which the conversion of a node ends inside its own
    [try] block, whatever its parts do: a regular expression check without
    its expression, a [shape()] that raises, a [defaultValue()] that
    raises. *)
Definition raises (schema : zod) : option exn :=
  match schema with
  | ZodString checks =>
      if existsb (fun c => match c with SRegex None => true | _ => false end)
                 checks
      then Some RegexMissing else None
  | ZodObject None => Some ShapeRaised
  | ZodDefault _ None => Some DefaultValueRaised
  | _ => None
  end.

(** Every entry of the registry holds the empty list of parameters. *)
Definition parameters_empty (routes : list RouteInfo) : Prop :=
  Forall (fun r => fields r !! "parameters" = Some (JArr [])) routes.

(** The operations of the discovery paths, which write the registry
    through [autoRegisterRoute] only. *)
Definition discovery (op : registration) : bool :=
  match op with
  | AutoRegister _ _ _ | ScanRouters _ _ | ExtractAll _ => true
  | AddRoute _ | RegisterRoute _ _ _ => false
  end.

(** A piece of a path between two slashes. *)
Definition slash_free (seg : string) : bool :=
  all_chars (fun c => negb (is_slash c)) seg.

(** * The registry *)

Section Registry.

Implicit Types (r route existing : RouteInfo) (routes : list RouteInfo).

Lemma spread_lookup (a b : props) k :
  spread a b !! k = match b !! k with Some v => Some v | None => a !! k end.
Proof.
  unfold spread. rewrite lookup_union.
  destruct (b !! k), (a !! k); reflexivity.
Qed.

Lemma spread_idemp (a : props) : spread a a = a.
Proof. unfold spread. apply (idemp_L (∪)). Qed.

Lemma spread_absorb (a b : props) : spread (spread a b) b = spread a b.
Proof. unfold spread. by rewrite (assoc_L (∪)), (idemp_L (∪)). Qed.

Lemma spread_route_self r : spread_route r r = r.
Proof. destruct r. unfold spread_route. simpl. by rewrite spread_idemp. Qed.

Lemma spread_route_absorb existing route :
  spread_route (spread_route existing route) route
  = spread_route existing route.
Proof. unfold spread_route. simpl. by rewrite spread_absorb. Qed.

Lemma same_key_spec m p r :
  same_key m p r = true <-> method r = m /\ path r = p.
Proof.
  unfold same_key. rewrite andb_true_iff, !String.eqb_eq. reflexivity.
Qed.

Lemma same_key_self r : same_key (method r) (path r) r = true.
Proof. by apply same_key_spec. Qed.

Lemma same_key_false m p r :
  same_key m p r = false <-> key_of r <> (m, p).
Proof.
  rewrite <- not_true_iff_false, same_key_spec. unfold key_of.
  split; intros H; [intros [= ? ?]; tauto | intros [? ?]; subst; tauto].
Qed.

(** [findIndex] returns the first position that satisfies the test. *)
Lemma findIndex_Some {A} (f : A -> bool) (l : list A) i :
  findIndex f l = Some i ->
  exists x,
    l !! i = Some x /\ f x = true /\
    Forall (fun y => f y = false) (take i l).
Proof.
  revert i. induction l as [|a l IH]; intros i; simpl; [discriminate|].
  destruct (f a) eqn:Ha.
  - intros [= <-]. exists a. repeat split; auto.
  - destruct (findIndex f l) as [j|] eqn:Hj; simpl; [|discriminate].
    intros [= <-]. destruct (IH j eq_refl) as (x & Hx & Hfx & Hall).
    exists x. repeat split; auto. simpl. constructor; auto.
Qed.

Lemma findIndex_None {A} (f : A -> bool) (l : list A) :
  findIndex f l = None <-> Forall (fun y => f y = false) l.
Proof.
  induction l as [|a l IH]; simpl.
  - split; auto.
  - destruct (f a) eqn:Ha.
    + split; [discriminate|]. intros H. inversion H; congruence.
    + destruct (findIndex f l); simpl.
      * split; [discriminate|]. intros H. inversion H; subst.
        apply IH in H3. discriminate.
      * split; auto. intros _. constructor; auto. by apply IH.
Qed.

Lemma findIndex_existsb {A} (f : A -> bool) (l : list A) :
  existsb f l = match findIndex f l with Some _ => true | None => false end.
Proof.
  induction l as [|a l IH]; simpl; [reflexivity|].
  destruct (f a); simpl; [reflexivity|].
  rewrite IH. by destruct (findIndex f l).
Qed.

Lemma findIndex_insert {A} (f : A -> bool) (l : list A) i y :
  findIndex f l = Some i -> f y = true ->
  findIndex f (<[i := y]> l) = Some i.
Proof.
  revert i. induction l as [|a l IH]; intros i; simpl; [discriminate|].
  destruct (f a) eqn:Ha.
  - intros [= <-] Hy. simpl. by rewrite Hy.
  - destruct (findIndex f l) as [j|] eqn:Hj; simpl; [|discriminate].
    intros [= <-] Hy. simpl. rewrite Ha. by rewrite (IH j eq_refl Hy).
Qed.

Lemma findIndex_snoc {A} (f : A -> bool) (l : list A) y :
  findIndex f l = None -> f y = true ->
  findIndex f (l ++ [y]) = Some (length l).
Proof.
  induction l as [|a l IH]; simpl; intros Hn Hy.
  - by rewrite Hy.
  - destruct (f a); [discriminate|].
    destruct (findIndex f l); [discriminate|]. by rewrite IH.
Qed.

(** The two cases of [addRoute]. *)
Lemma addRoute_new route routes :
  findIndex (same_key (method route) (path route)) routes = None ->
  addRoute route routes = routes ++ [route].
Proof. unfold addRoute. by intros ->. Qed.

Lemma addRoute_existing route routes i :
  findIndex (same_key (method route) (path route)) routes = Some i ->
  exists existing,
    routes !! i = Some existing /\
    method existing = method route /\ path existing = path route /\
    addRoute route routes = <[i := spread_route existing route]> routes.
Proof.
  intros Hi. unfold addRoute. rewrite Hi.
  destruct (findIndex_Some _ _ _ Hi) as (x & Hx & Hk & _).
  rewrite Hx. apply same_key_spec in Hk as [? ?]. eauto.
Qed.

(** [addRoute] never changes the sequence of keys of the entries that are
    there: it appends one key or none. *)
Lemma addRoute_keys route routes :
  map key_of (addRoute route routes) =
  match findIndex (same_key (method route) (path route)) routes with
  | Some _ => map key_of routes
  | None => map key_of routes ++ [key_of route]
  end.
Proof.
  destruct (findIndex _ routes) as [i|] eqn:Hi.
  - destruct (addRoute_existing _ _ _ Hi) as (e & He & Hm & Hp & ->).
    rewrite list_fmap_insert. apply list_insert_id.
    rewrite list_lookup_fmap, He. simpl. unfold key_of. simpl. congruence.
  - rewrite (addRoute_new _ _ Hi). by rewrite map_app.
Qed.

Lemma addRoute_unique route routes :
  unique_keys routes -> unique_keys (addRoute route routes).
Proof.
  unfold unique_keys. intros Hnd. rewrite addRoute_keys.
  destruct (findIndex _ routes) eqn:Hi; [done|].
  apply NoDup_app. split; [done|]. split; [|apply NoDup_singleton].
  intros k Hk Hin. apply list_elem_of_singleton in Hin as ->.
  apply findIndex_None in Hi. rewrite Forall_forall in Hi.
  apply list_elem_of_fmap in Hk as (r & Hr & Hin).
  specialize (Hi r Hin). apply same_key_false in Hi.
  apply Hi. by rewrite <- Hr.
Qed.

(** The entries under a key after [addRoute]. *)
Lemma entries_of_app m p routes1 routes2 :
  entries_of m p (routes1 ++ routes2)
  = entries_of m p routes1 ++ entries_of m p routes2.
Proof. apply List.filter_app. Qed.

Lemma entries_of_none m p routes :
  findIndex (same_key m p) routes = None -> entries_of m p routes = [].
Proof.
  intros H. apply findIndex_None in H. unfold entries_of.
  induction H as [|r l Hr _ IH]; simpl; [done|]. by rewrite Hr.
Qed.

Lemma entries_of_unique m p routes i existing :
  unique_keys routes -> routes !! i = Some existing ->
  same_key m p existing = true ->
  entries_of m p routes = [existing].
Proof.
  unfold unique_keys, entries_of.
  revert i. induction routes as [|r routes IH]; intros i Hnd Hi Hk;
    [done|].
  simpl in Hnd. apply NoDup_cons in Hnd as [Hnotin Hnd].
  destruct i as [|i]; simpl in Hi.
  - injection Hi as ->. simpl. rewrite Hk. f_equal.
    apply same_key_spec in Hk as [Hm Hp].
    clear IH Hnd. induction routes as [|r routes IH]; simpl; [done|].
    destruct (same_key m p r) eqn:Hr.
    + exfalso. apply Hnotin. apply same_key_spec in Hr as [? ?].
      simpl. apply elem_of_cons. left. unfold key_of. congruence.
    + apply IH. intros H. apply Hnotin. simpl. apply elem_of_cons.
      by right.
  - simpl. destruct (same_key m p r) eqn:Hr.
    + exfalso. apply Hnotin. apply list_elem_of_fmap.
      exists existing. split; [|by eapply list_elem_of_lookup_2].
      apply same_key_spec in Hr as [? ?], Hk as [? ?].
      unfold key_of. congruence.
    + by eapply IH.
Qed.

Lemma addRoute_entries route routes :
  unique_keys routes ->
  entries_of (method route) (path route) (addRoute route routes) =
  match entries_of (method route) (path route) routes with
  | existing :: _ => [spread_route existing route]
  | [] => [route]
  end.
Proof.
  intros Hnd.
  pose proof (addRoute_unique route _ Hnd) as Hnd'.
  destruct (findIndex (same_key (method route) (path route)) routes)
    as [i|] eqn:Hi.
  - destruct (addRoute_existing _ _ _ Hi) as (e & He & Hm & Hp & Heq).
    rewrite (entries_of_unique _ _ routes i e Hnd He)
      by (by apply same_key_spec).
    apply (entries_of_unique _ _ _ i); [done| |by apply same_key_spec].
    rewrite Heq. apply list_lookup_insert_eq. by eapply lookup_lt_Some.
  - rewrite (addRoute_new _ _ Hi), entries_of_app, (entries_of_none _ _ _ Hi).
    simpl. by rewrite same_key_self.
Qed.

(** Two upserts under one key, from a registry without duplicate keys. *)
Lemma addRoute_twice (R1 R2 : RouteInfo) routes :
  unique_keys routes ->
  method R1 = method R2 -> path R1 = path R2 ->
  let routes' := addRoute R2 (addRoute R1 routes) in
  unique_keys routes' /\
  exists entry,
    entries_of (method R2) (path R2) routes' = [entry] /\
    method entry = method R2 /\ path entry = path R2 /\
    (forall k v, fields R2 !! k = Some v -> fields entry !! k = Some v) /\
    (forall k, fields R2 !! k = None ->
               forall v, fields R1 !! k = Some v ->
                         fields entry !! k = Some v) /\
    (forall k, fields R2 !! k = None -> fields R1 !! k = None ->
               fields entry !! k =
               match entries_of (method R2) (path R2) routes with
               | existing :: _ => fields existing !! k
               | [] => None
               end).
Proof.
  intros Hnd Hm Hp routes'. subst routes'.
  pose proof (addRoute_unique R1 _ Hnd) as Hnd1.
  split; [by apply addRoute_unique|].
  rewrite (addRoute_entries R2 _ Hnd1). rewrite <- Hm, <- Hp.
  rewrite (addRoute_entries R1 _ Hnd).
  destruct (entries_of (method R1) (path R1) routes) as [|e es]; simpl;
    eexists; (split; [reflexivity|]); simpl;
    repeat split; auto; intros k; rewrite !spread_lookup.
  - by intros v ->.
  - by intros -> v ->.
  - by intros -> ->.
  - by intros v ->.
  - by intros -> v ->.
  - by intros -> ->.
Qed.

(** C1, as amended.  Upserting [R1] and then [R2], which has the method and
    the path of [R1], into a registry without duplicate keys leaves a
    registry without duplicate keys that holds exactly one entry for that
    key.  The entry is the object spread of the entry that was there (if
    any), of [R1] and of [R2], in this order: a property that [R2] has
    takes the value it has in [R2], whatever that value is (also an empty
    one or [undefined]); a property that [R2] does not have keeps the
    value it has in [R1]; a property that neither has keeps the value of
    the entry that was there.  In particular, upserting a route without a
    summary and then the same route with the summary S, into the empty
    registry, leaves the single entry with the summary S. *)
Theorem upsert_merge :
  (forall (R1 R2 : RouteInfo) routes,
     unique_keys routes ->
     method R1 = method R2 -> path R1 = path R2 ->
     let routes' := addRoute R2 (addRoute R1 routes) in
     unique_keys routes' /\
     exists entry,
       entries_of (method R2) (path R2) routes' = [entry] /\
       method entry = method R2 /\ path entry = path R2 /\
       (forall k v, fields R2 !! k = Some v -> fields entry !! k = Some v) /\
       (forall k, fields R2 !! k = None ->
                  forall v, fields R1 !! k = Some v ->
                            fields entry !! k = Some v) /\
       (forall k, fields R2 !! k = None -> fields R1 !! k = None ->
                  fields entry !! k =
                  match entries_of (method R2) (path R2) routes with
                  | existing :: _ => fields existing !! k
                  | [] => None
                  end)) /\
  addRoute (mkRoute "get" "/x" {[ "summary" := JStr "S" ]})
    (addRoute (mkRoute "get" "/x" ∅) [])
  = [mkRoute "get" "/x" {[ "summary" := JStr "S" ]}].
Proof.
  split; [exact addRoute_twice|]. vm_compute. reflexivity.
Qed.

(** C1, witness: a route with tags, then the same route with a summary and
    no tags; the entry has both. *)
Lemma upsert_merge_witness :
  let R1 := mkRoute "get" "/x" {[ "tags" := JArr [JStr "x"] ]} in
  let R2 := mkRoute "get" "/x" {[ "summary" := JStr "S" ]} in
  unique_keys [] /\
  exists entry,
    addRoute R2 (addRoute R1 []) = [entry] /\
    fields entry !! "summary" = Some (JStr "S") /\
    fields entry !! "tags" = Some (JArr [JStr "x"]).
Proof.
  intros R1 R2.
  assert (Hnd : unique_keys []) by constructor.
  split; [exact Hnd|].
  destruct (proj1 upsert_merge R1 R2 [] Hnd eq_refl eq_refl)
    as (_ & entry & He & _ & _ & Hf2 & Hf1 & _).
  exists entry. split; [exact He|]. split.
  - apply Hf2. reflexivity.
  - apply (Hf1 "tags" eq_refl). reflexivity.
Defined.

(** C1, counterexample: an [undefined] summary and an empty parameter list
    in the second route erase the summary and the parameters of the first;
    the entry is not the merge that the specification describes. *)
Lemma upsert_empty_values_erase :
  let p := JObj [("name", JStr "id"); ("in", JStr "path")] in
  let R1 := mkRoute "get" "/x"
              {[ "summary" := JStr "S"; "parameters" := JArr [p] ]} in
  let R2 := mkRoute "get" "/x"
              {[ "summary" := JUndefined; "parameters" := JArr [] ]} in
  addRoute R2 (addRoute R1 []) = [R2] /\
  fields R2 <> spec_merge (fields R1) (fields R2) /\
  spec_merge (fields R1) (fields R2) = fields R1.
Proof.
  intros p R1 R2. split; [|split].
  - vm_compute. reflexivity.
  - intros H. apply (f_equal (fun m => m !! "summary")) in H.
    vm_compute in H. discriminate.
  - vm_compute. reflexivity.
Qed.

(** C2.  Upserting the same route twice in succession leaves the registry
    that upserting it once leaves, from every registry. *)
Theorem upsert_idempotent (R : RouteInfo) routes :
  addRoute R (addRoute R routes) = addRoute R routes.
Proof.
  destruct (findIndex (same_key (method R) (path R)) routes) as [i|] eqn:Hi.
  - destruct (addRoute_existing _ _ _ Hi) as (e & He & Hm & Hp & Heq).
    rewrite Heq.
    assert (Hi' : findIndex (same_key (method R) (path R))
                    (<[i := spread_route e R]> routes) = Some i).
    { apply findIndex_insert; [done|]. by apply same_key_spec. }
    destruct (addRoute_existing _ _ _ Hi') as (e' & He' & _ & _ & Heq').
    rewrite Heq'.
    rewrite list_lookup_insert_eq in He' by (by eapply lookup_lt_Some).
    injection He' as <-.
    by rewrite list_insert_insert_eq, spread_route_absorb.
  - rewrite (addRoute_new _ _ Hi).
    pose proof (findIndex_snoc _ _ R Hi (same_key_self R)) as Hi'.
    destruct (addRoute_existing _ _ _ Hi') as (e' & He' & _ & _ & Heq').
    rewrite Heq'.
    rewrite lookup_app_r, Nat.sub_diag in He' by done.
    injection He' as <-.
    rewrite spread_route_self.
    apply list_insert_id. by rewrite lookup_app_r, Nat.sub_diag.
Qed.

End Registry.

(** * Paths *)

Section Paths.

Implicit Types (s r : string) (c : ascii).

Lemma colon_not_word c : is_colon c = true -> is_word c = false.
Proof. unfold is_colon. intros H. apply Ascii.eqb_eq in H. by subst. Qed.

Lemma word_not_colon c : is_word c = true -> is_colon c = false.
Proof.
  intros H. destruct (is_colon c) eqn:Hc; [|done].
  apply colon_not_word in Hc. congruence.
Qed.

Lemma append_empty_l s : ("" ++ s)%string = s.
Proof. reflexivity. Qed.

(** Outside a match, text without a colon is copied. *)
Lemma replace_params_literal text r :
  all_chars (fun c => negb (is_colon c)) text = true ->
  replace_params false (text ++ r) = (text ++ replace_params false r)%string.
Proof.
  induction text as [|c text IH]; simpl; [done|].
  intros [Hc Ht]%andb_true_iff. apply negb_true_iff in Hc.
  rewrite Hc. simpl. by rewrite IH.
Qed.

(** Inside a match, [\w] characters are copied. *)
Lemma replace_params_name name r :
  all_chars is_word name = true ->
  replace_params true (name ++ r) = (name ++ replace_params true r)%string.
Proof.
  induction name as [|c name IH]; simpl; [done|].
  intros [Hc Ht]%andb_true_iff. rewrite Hc. by rewrite IH.
Qed.

(** A match ends before a character that is not a [\w] character. *)
Lemma replace_params_close r :
  starts_word r = false ->
  replace_params true r = ("}" ++ replace_params false r)%string.
Proof. destruct r as [|c r]; simpl; [done|]. by intros ->. Qed.

Lemma starts_word_app name r :
  name <> "" -> all_chars is_word name = true ->
  starts_word (name ++ r) = true.
Proof.
  destruct name as [|c name]; [done|]. simpl.
  by intros _ [Hc _]%andb_true_iff.
Qed.

(** A colon followed by a name becomes the name between braces. *)
Lemma replace_params_param name r :
  name <> "" -> all_chars is_word name = true -> starts_word r = false ->
  replace_params false (":" ++ name ++ r)
  = ("{" ++ name ++ "}" ++ replace_params false r)%string.
Proof.
  intros Hne Hw Hr.
  change (":" ++ name ++ r)%string with (String ":" (name ++ r)).
  change ("{" ++ name ++ "}" ++ replace_params false r)%string
    with (String "{" (name ++ String "}" (replace_params false r))).
  cbn [replace_params andb is_colon].
  rewrite (starts_word_app _ _ Hne Hw).
  rewrite (replace_params_name _ _ Hw), (replace_params_close _ Hr).
  reflexivity.
Qed.

Lemma colon_path_starts segs : starts_word (colon_path segs) = false.
Proof. by destruct segs as [|[?|?] ?]. Qed.

Lemma convert_segments segs :
  forallb segment_ok segs = true ->
  convertToOpenAPIPath (colon_path segs) = brace_path segs.
Proof.
  unfold convertToOpenAPIPath.
  induction segs as [|seg segs IH]; [done|].
  simpl forallb. intros [Hseg Hsegs]%andb_true_iff.
  specialize (IH Hsegs). destruct seg as [text|name]; simpl in Hseg.
  - change (colon_path (Literal text :: segs))
      with (String "/" (text ++ colon_path segs))%string.
    change (brace_path (Literal text :: segs))
      with (String "/" (text ++ brace_path segs))%string.
    change (replace_params false (String "/" (text ++ colon_path segs)))
      with (String "/" (replace_params false (text ++ colon_path segs))).
    by rewrite (replace_params_literal _ _ Hseg), IH.
  - apply andb_true_iff in Hseg as [Hne Hw].
    apply negb_true_iff, String.eqb_neq in Hne.
    change (colon_path (Param name :: segs))
      with (String "/" (":" ++ name ++ colon_path segs))%string.
    change (brace_path (Param name :: segs))
      with (String "/" ("{" ++ name ++ "}" ++ brace_path segs))%string.
    change (replace_params false
              (String "/" (":" ++ name ++ colon_path segs)))
      with (String "/" (replace_params false
                          (":" ++ name ++ colon_path segs))).
    rewrite (replace_params_param _ _ Hne Hw (colon_path_starts segs)).
    by rewrite IH.
Qed.

(** The rewritten path holds no colon that is followed by a [\w]
    character. *)
Lemma starts_word_replace s :
  starts_word (replace_params false s) = starts_word s.
Proof.
  destruct s as [|c s]; simpl; [done|]. rewrite append_empty_l.
  destruct (is_colon c) eqn:Hc; simpl.
  - destruct (starts_word s); simpl; [|done].
    by rewrite (colon_not_word _ Hc).
  - reflexivity.
Qed.

Lemma match_params_replace s : forall b,
  match_params (replace_params b s) = [].
Proof.
  induction s as [|c s IH]; intros b; simpl.
  - by destruct b.
  - destruct (b && is_word c) eqn:Hbw; simpl.
    + apply andb_true_iff in Hbw as [_ Hw].
      rewrite (word_not_colon _ Hw). simpl. apply IH.
    + assert (Hbody :
        match_params
          (if is_colon c && starts_word s
           then String "{" (replace_params true s)
           else String c (replace_params false s)) = []).
      { destruct (is_colon c && starts_word s) eqn:Hcs; simpl.
        - apply IH.
        - rewrite starts_word_replace, Hcs. apply IH. }
      destruct b; [|by rewrite append_empty_l].
      change ("}" ++ ?x)%string with (String "}" x). simpl. exact Hbody.
Qed.

Lemma starts_word_dropLast s :
  starts_word (dropLast s) = true -> starts_word s = true.
Proof. destruct s as [|c [|c' s]]; simpl; auto; discriminate. Qed.

Lemma match_params_dropLast s :
  match_params s = [] -> match_params (dropLast s) = [].
Proof.
  induction s as [|c s IH]; [done|].
  change (match_params (String c s))
    with (if is_colon c && starts_word s
          then String c (take_word s) :: match_params s
          else match_params s).
  destruct (is_colon c && starts_word s) eqn:Hcs; [discriminate|].
  intros Hs. destruct s as [|c' s]; [done|].
  change (dropLast (String c (String c' s)))
    with (String c (dropLast (String c' s))).
  change (match_params (String c (dropLast (String c' s))))
    with (if is_colon c && starts_word (dropLast (String c' s))
          then String c (take_word (dropLast (String c' s)))
               :: match_params (dropLast (String c' s))
          else match_params (dropLast (String c' s))).
  destruct (is_colon c && starts_word (dropLast (String c' s))) eqn:Hd.
  - apply andb_true_iff in Hd as [Hc Hd].
    apply starts_word_dropLast in Hd. rewrite Hc, Hd in Hcs. discriminate.
  - by apply IH.
Qed.

Lemma match_params_stored path : match_params (storedPath path) = [].
Proof.
  unfold storedPath, normalizePath, convertToOpenAPIPath.
  destruct (_ && _).
  - apply match_params_dropLast, match_params_replace.
  - apply match_params_replace.
Qed.





Lemma replace_params_noop s :
  match_params s = [] -> replace_params false s = s.
Proof.
  induction s as [|c s IH]; [done|].
  change (match_params (String c s))
    with (if is_colon c && starts_word s
          then String c (take_word s) :: match_params s
          else match_params s).
  cbn [replace_params andb]. rewrite append_empty_l.
  destruct (is_colon c && starts_word s); [done|].
  intros H. by rewrite (IH H).
Qed.

Lemma take_word_is_word s : all_chars is_word (take_word s) = true.
Proof.
  induction s as [|c s IH]; [done|]. simpl.
  destruct (is_word c) eqn:Hc; [|done]. simpl. by rewrite Hc.
Qed.





End Paths.

(** * Registration through the discovery paths *)

Section Discovery.

Implicit Types (opts : SwaggerOptions) (routes : list RouteInfo).
Implicit Types (options : option props) (m p : string).

Lemma autoRegister_excluded opts m p options routes :
  shouldExcludePath opts p = true ->
  autoRegisterRoute opts m p options routes = routes.
Proof. unfold autoRegisterRoute. by intros ->. Qed.

Lemma autoRegister_documented opts m p options routes :
  isRouteDocumented m (storedPath p) routes = true ->
  autoRegisterRoute opts m p options routes = routes.
Proof.
  unfold autoRegisterRoute, storedPath. intros ->.
  by destruct (shouldExcludePath opts p).
Qed.

Lemma autoRegister_fresh opts m p options routes :
  shouldExcludePath opts p = false ->
  isRouteDocumented m (storedPath p) routes = false ->
  autoRegisterRoute opts m p options routes
  = addRoute (autoRouteInfo m p (storedPath p) options) routes.
Proof. unfold autoRegisterRoute, storedPath. by intros -> ->. Qed.


Lemma addRoute_elem route routes :
  exists i entry,
    addRoute route routes !! i = Some entry /\
    key_of entry = key_of route /\
    (forall k v, fields route !! k = Some v -> fields entry !! k = Some v).
Proof.
  destruct (findIndex (same_key (method route) (path route)) routes)
    as [i|] eqn:Hi.
  - destruct (addRoute_existing _ _ _ Hi) as (e & He & _ & _ & ->).
    exists i, (spread_route e route). split; [|split].
    + apply list_lookup_insert_eq. by eapply lookup_lt_Some.
    + reflexivity.
    + intros k v Hk. simpl. by rewrite spread_lookup, Hk.
  - rewrite (addRoute_new _ _ Hi). exists (length routes), route.
    split; [|done]. by rewrite lookup_app_r, Nat.sub_diag.
Qed.

Lemma autoRouteInfo_parameters m p options :
  fields (autoRouteInfo m p (storedPath p) options) !! "parameters"
  = Some (JArr []).
Proof.
  unfold autoRouteInfo, extractParametersFromPath. simpl.
  rewrite match_params_stored. apply lookup_insert_eq.
Qed.

(** Every registration operation keeps the keys of the registry distinct. *)
Lemma autoRegister_unique opts m p options routes :
  unique_keys routes -> unique_keys (autoRegisterRoute opts m p options routes).
Proof.
  intros Hnd. unfold autoRegisterRoute.
  destruct (shouldExcludePath opts p); [done|].
  destruct (isRouteDocumented _ _ routes); [done|].
  by apply addRoute_unique.
Qed.

Lemma registerRoute_unique m p options routes :
  unique_keys routes -> unique_keys (registerRoute m p options routes).
Proof. intros Hnd. by apply addRoute_unique. Qed.

(** The static scan registration of a router leaves the registry as it is
    when the full path of each of its routes is excluded. *)
Lemma registerRouter_excluded opts (router : RouterInfo) routes :
  (forall route, route ∈ scanned router ->
     shouldExcludePath opts
       (generateBasePathFromFilePath (filePath router) ++ sr_path route)%string
     = true) ->
  registerRouter opts router routes = routes.
Proof.
  unfold registerRouter.
  generalize (generateBasePathFromFilePath (filePath router)) as basePath.
  intros basePath. revert routes.
  induction (scanned router) as [|route rest IH]; intros routes Hex; [done|].
  cbn [fold_left]. rewrite autoRegister_excluded.
  - apply IH. intros r Hr. apply Hex, elem_of_cons. by right.
  - apply Hex, elem_of_cons. by left.
Qed.

(** A wrapper that observes a call on an excluded path leaves the registry
    as it is. *)
Lemma observe_excluded (st : state) m p (routeOptions : props) :
  shouldExcludePath (st_options st) p = true ->
  st_routes (observe m p routeOptions st) = st_routes st.
Proof. intros Hex. simpl. by apply autoRegister_excluded. Qed.

(** The operations that write the registry, one by one. *)
Lemma fold_invariant {A} (I : list RouteInfo -> Prop)
    (f : list RouteInfo -> A -> list RouteInfo) (l : list A) routes :
  (forall routes a, I routes -> I (f routes a)) ->
  I routes -> I (fold_left f l routes).
Proof.
  intros Hf. revert routes.
  induction l as [|a l IH]; intros routes HI; [done|].
  simpl. apply IH. by apply Hf.
Qed.

(** The wrappers write the registry through [autoRegisterRoute] only. *)
Lemma runVerb_invariant (I : list RouteInfo -> Prop) slot self
    (name : string) (first : argument) handlers (st st' : state) :
  (forall opts m p options routes,
     I routes -> I (autoRegisterRoute opts m p options routes)) ->
  runVerb slot self name first handlers st = Some st' ->
  I (st_routes st) -> I (st_routes st').
Proof.
  intros Hauto. revert st.
  induction slot as [|method slot IH|basePath method slot IH];
    intros st Hrun HI.
  - simpl in Hrun. by injection Hrun as <-.
  - simpl in Hrun. destruct first as [path|source]; [|done].
    apply (IH _ Hrun). simpl. by apply Hauto.
  - simpl in Hrun. apply (IH _ Hrun). simpl. by apply Hauto.
Qed.

Lemma runRoute_routes slot self (path : string) subApp (st : state) :
  st_routes (runRoute slot self path subApp st) = st_routes st.
Proof.
  revert st. induction slot as [|slot IH]; intros st; [done|].
  simpl. rewrite IH. unfold hookIntoSubAppRoutes.
  by destruct (st_heap st !! subApp).
Qed.

Lemma run_invariant (I : list RouteInfo -> Prop) calls (st st' : state) :
  (forall opts m p options routes,
     I routes -> I (autoRegisterRoute opts m p options routes)) ->
  run calls st = Some st' ->
  I (st_routes st) -> I (st_routes st').
Proof.
  intros Hauto. revert st.
  induction calls as [|c calls IH]; intros st Hrun HI.
  - simpl in Hrun. by injection Hrun as <-.
  - simpl in Hrun. destruct (step c st) as [st1|] eqn:Hstep; [|done].
    simpl in Hrun. apply (IH st1 Hrun).
    destruct c as [app name first handlers|app path subApp]; simpl in Hstep.
    + destruct (st_heap st !! app) as [a|]; [|done]. simpl in Hstep.
      destruct (verbs a !! name) as [slot|]; [|done]. simpl in Hstep.
      by apply (runVerb_invariant I _ _ _ _ _ _ _ Hauto Hstep).
    + destruct (st_heap st !! app) as [a|]; [|done]. simpl in Hstep.
      destruct (mount a) as [slot|]; [|done]. simpl in Hstep.
      injection Hstep as <-. by rewrite runRoute_routes.
Qed.

(** The operations of the discovery paths, one by one. *)
Lemma discovery_invariant (I : list RouteInfo -> Prop) opts op routes :
  (forall m p options routes,
     I routes -> I (autoRegisterRoute opts m p options routes)) ->
  discovery op = true -> I routes -> I (register opts routes op).
Proof.
  intros Hauto Hop HI.
  destruct op as [route|m p options|m p options|enabled routers|appRoutes];
    try discriminate; simpl.
  - by apply Hauto.
  - unfold scanAndRegisterRouters. destruct enabled; [|done].
    apply fold_invariant; [|done]. intros rs router Hrs.
    unfold registerRouter. apply fold_invariant; [|done].
    intros rs' sr Hrs'. by apply Hauto.
  - unfold Extraction.extractAllRoutes. destruct appRoutes as [l|]; [|done].
    apply fold_invariant; [|done]. intros rs hr Hrs.
    unfold Extraction.extractRoute.
    destruct (_ && _); [|done]. destruct (_ || _); [done|].
    by apply Hauto.
Qed.

Lemma addRoute_parameters_empty route routes :
  fields route !! "parameters" = Some (JArr []) ->
  parameters_empty routes -> parameters_empty (addRoute route routes).
Proof.
  intros Hroute Hall.
  destruct (findIndex (same_key (method route) (path route)) routes)
    as [i|] eqn:Hi.
  - destruct (addRoute_existing _ _ _ Hi) as (e & He & _ & _ & ->).
    apply Forall_insert; [done|]. simpl. by rewrite spread_lookup, Hroute.
  - rewrite (addRoute_new _ _ Hi). apply Forall_app. split; [done|].
    by apply Forall_singleton.
Qed.

Lemma autoRegister_parameters_empty opts m p options routes :
  parameters_empty routes ->
  parameters_empty (autoRegisterRoute opts m p options routes).
Proof.
  intros Hall. unfold autoRegisterRoute.
  destruct (shouldExcludePath opts p); [done|].
  destruct (isRouteDocumented _ _ routes); [done|].
  apply addRoute_parameters_empty; [|done].
  apply autoRouteInfo_parameters.
Qed.

(** C3, the code at the failing input.  A path under the route of the
    documentation UI, or under a configured exclusion prefix, is dropped by
    [autoRegisterRoute] and stored by [registerRoute], and it shows in the
    rendered document. *)
Theorem manual_registration_not_filtered :
  let opts :=
    {| route := "/swagger-ui"; excludePaths := Some ["/internal"] |} in
  shouldExcludePath opts "/swagger-ui/extra" = true /\
  shouldExcludePath opts "/internal/metrics" = true /\
  autoRegisterRoute opts "get" "/swagger-ui/extra" None [] = [] /\
  autoRegisterRoute opts "get" "/internal/metrics" None [] = [] /\
  map key_of (registerRoute "get" "/swagger-ui/extra" None [])
    = [("get", "/swagger-ui/extra")] /\
  map key_of (registerRoute "get" "/internal/metrics" None [])
    = [("get", "/internal/metrics")] /\
  is_Some
    (generateOpenAPISpec_paths
       (registerRoute "get" "/swagger-ui/extra" None [])
     ≫= (.!! "/swagger-ui/extra")).
Proof.
  repeat split; try (vm_compute; reflexivity).
  vm_compute. eexists. reflexivity.
Qed.




(** C9.  The parameters of an auto-registered route are taken from the
    path that [autoRegisterRoute] has already rewritten, in which no colon
    is followed by a name: the list is empty for every path, also for one
    on which the same function finds a parameter before the rewriting.  A
    registration that is neither excluded nor already documented stores an
    entry, under the lower-cased method and the stored path, that holds the
    empty list, whatever the options of the call; and the empty lists stay:
    whatever the discovery paths do (auto-registrations, scans,
    extractions, intercepted calls) to a registry whose entries hold the
    empty list, its entries hold the empty list, so that after the
    constructor and any sequence of intercepted calls every entry does. *)
Theorem auto_registration_parameters_empty :
  (forall p, extractParametersFromPath (storedPath p) = []) /\
  extractParametersFromPath "/users/:id" <> [] /\
  (forall m p options,
     fields (autoRouteInfo m p (storedPath p) options) !! "parameters"
     = Some (JArr [])) /\
  (forall opts m p options routes,
     autoRegisterRoute opts m p options routes = routes \/
     exists i entry,
       autoRegisterRoute opts m p options routes !! i = Some entry /\
       key_of entry = (toLowerCase m, storedPath p) /\
       fields entry !! "parameters" = Some (JArr [])) /\
  (forall opts m p options routes,
     shouldExcludePath opts p = false ->
     isRouteDocumented m (storedPath p) routes = false ->
     exists i entry,
       autoRegisterRoute opts m p options routes !! i = Some entry /\
       key_of entry = (toLowerCase m, storedPath p) /\
       fields entry !! "parameters" = Some (JArr [])) /\
  (forall opts (ops : list registration) routes,
     forallb discovery ops = true ->
     parameters_empty routes ->
     parameters_empty (fold_left (register opts) ops routes)) /\
  (forall calls (st st' : state),
     run calls st = Some st' ->
     parameters_empty (st_routes st) -> parameters_empty (st_routes st')) /\
  (forall opts app heap calls (st' : state),
     run calls (construct opts app heap) = Some st' ->
     parameters_empty (st_routes st')).
Proof.
  assert (Hfresh : forall opts m p options routes,
            shouldExcludePath opts p = false ->
            isRouteDocumented m (storedPath p) routes = false ->
            exists i entry,
              autoRegisterRoute opts m p options routes !! i = Some entry /\
              key_of entry = (toLowerCase m, storedPath p) /\
              fields entry !! "parameters" = Some (JArr [])).
  { intros opts m p options routes Hex Hdoc.
    rewrite (autoRegister_fresh _ _ _ _ _ Hex Hdoc).
    destruct (addRoute_elem (autoRouteInfo m p (storedPath p) options) routes)
      as (i & entry & Hi & Hk & Hf).
    exists i, entry. split; [done|]. split; [by rewrite Hk|].
    apply Hf, autoRouteInfo_parameters. }
  assert (Hrun : forall calls (st st' : state),
            run calls st = Some st' ->
            parameters_empty (st_routes st) ->
            parameters_empty (st_routes st')).
  { intros calls st st'. apply run_invariant.
    intros opts m p options routes. apply autoRegister_parameters_empty. }
  split; [|split; [|split; [|split; [|split; [|split; [|split]]]]]].
  - intros p. unfold extractParametersFromPath.
    by rewrite match_params_stored.
  - discriminate.
  - apply autoRouteInfo_parameters.
  - intros opts m p options routes.
    destruct (shouldExcludePath opts p) eqn:Hex;
      [left; by apply autoRegister_excluded|].
    destruct (isRouteDocumented m (storedPath p) routes) eqn:Hdoc;
      [left; by apply autoRegister_documented|].
    right. by apply Hfresh.
  - exact Hfresh.
  - intros opts ops. induction ops as [|op ops IH]; intros routes Hops Hall;
      [done|].
    simpl in Hops. apply andb_true_iff in Hops as [Hop Hops].
    cbn [fold_left]. apply (IH _ Hops).
    apply (discovery_invariant parameters_empty); [|done|done].
    intros m p options rs. apply autoRegister_parameters_empty.
  - exact Hrun.
  - intros opts app heap calls st' H. apply (Hrun _ _ _ H).
    unfold construct, hookIntoRouteMethod, hookIntoRouteMethods.
    cbn [st_heap st_app].
    destruct (heap !! app) as [a|] eqn:Ha; cbn [set_heap st_heap st_app].
    + rewrite lookup_insert_eq. destruct (mount (wrapVerbs MainWrapper a));
        constructor.
    + rewrite Ha. constructor.
Qed.

(** C9, witness: the interception of [app.get('/users/:id')] on a new
    application stores the path [/users/{id}] with no parameter. *)
Lemma auto_registration_parameters_empty_witness :
  (exists i entry,
     autoRegisterRoute defaultOptions "get" "/users/:id" None [] !! i
     = Some entry /\
     key_of entry = ("get", "/users/{id}") /\
     fields entry !! "parameters" = Some (JArr [])) /\
  (exists st',
     run [CallVerb 0 "get" "/users/:id" []]
       (construct defaultOptions 0 {[ 0 := freshApp ]}) = Some st' /\
     map key_of (st_routes st') = [("get", "/users/{id}")] /\
     parameters_empty (st_routes st')).
Proof.
  destruct auto_registration_parameters_empty
    as (_ & _ & _ & _ & Hfresh & _ & _ & Hconstruct).
  split.
  - exact (Hfresh defaultOptions "get" "/users/:id" None [] eq_refl eq_refl).
  - destruct (run [CallVerb 0 "get" "/users/:id" []]
                (construct defaultOptions 0 {[ 0 := freshApp ]}))
      as [st'|] eqn:Hrun; [|vm_compute in Hrun; discriminate].
    exists st'. split; [reflexivity|]. split.
    + vm_compute in Hrun. injection Hrun as <-. reflexivity.
    + exact (Hconstruct _ _ _ _ _ Hrun).
Defined.

(** C10, the code at the failing input.  When the registry holds an entry
    with the method, as it is passed, and the normalised path of an
    auto-registration, the call returns the registry as it is.  The test
    compares the method as it is passed with the stored one, which is in
    lower case: [extractAllRoutes] passes the method of the route table of
    the framework, in upper case, so that a route which a wrapper has
    recorded is not found, and [addRoute] replaces its tags, summary and
    description by those of the later discovery. *)
Theorem auto_registration_case_mismatch :
  (forall opts m p options routes r,
     r ∈ routes -> method r = m -> path r = storedPath p ->
     autoRegisterRoute opts m p options routes = routes) /\
  let first :=
    autoRegisterRoute defaultOptions "get" "/users"
      (Some {[ "summary" := JStr "List users";
               "tags" := JArr [JStr "Users"] ]}) [] in
  let second :=
    Extraction.extractAllRoutes defaultOptions
      (Some [Extraction.mkHonoRoute "/users" true (Some "GET")]) first in
  map key_of first = [("get", "/users")] /\
  (r ← first !! 0; fields r !! "summary") = Some (JStr "List users") /\
  (r ← first !! 0; fields r !! "tags") = Some (JArr [JStr "Users"]) /\
  isRouteDocumented "get" "/users" first = true /\
  isRouteDocumented "GET" "/users" first = false /\
  map key_of second = [("get", "/users")] /\
  (r ← second !! 0; fields r !! "summary") = Some (JStr "GET /users") /\
  (r ← second !! 0; fields r !! "tags") = Some (JArr [JStr "users"]) /\
  (r ← second !! 0; fields r !! "description")
  = Some (JStr "Auto-generated from main application").
Proof.
  split.
  - intros opts m p options routes r Hin Hm Hp.
    apply autoRegister_documented.
    unfold isRouteDocumented. apply existsb_exists.
    exists r. split; [by apply list_elem_of_In|]. by apply same_key_spec.
  - repeat split; vm_compute; reflexivity.
Qed.

(** C10, witness: a second discovery of [GET /users/:id] with the method in
    lower case, and a summary, leaves the entry of the first. *)
Lemma auto_registration_case_mismatch_witness :
  let first := autoRegisterRoute defaultOptions "get" "/users/:id" None [] in
  exists r,
    r ∈ first /\ method r = "get" /\ path r = storedPath "/users/:id/" /\
    autoRegisterRoute defaultOptions "get" "/users/:id/"
      (Some {[ "summary" := JStr "Get a user" ]}) first = first.
Proof.
  intros first.
  exists (autoRouteInfo "get" "/users/:id" "/users/{id}" None).
  assert (Hin : autoRouteInfo "get" "/users/:id" "/users/{id}" None ∈ first)
    by (apply list_elem_of_singleton; reflexivity).
  split; [exact Hin|]. split; [reflexivity|]. split; [reflexivity|].
  exact (proj1 auto_registration_case_mismatch defaultOptions "get"
           "/users/:id/" (Some {[ "summary" := JStr "Get a user" ]}) first _
           Hin eq_refl eq_refl).
Defined.

End Discovery.

(** * Runtime interception *)

Section Interception.

Implicit Types (st : state) (a : HonoApp) (name path : string).

Lemma methods_NoDup : NoDup methods.
Proof. compute_done. Qed.

(** What [wrapVerbs] leaves in a verb property. *)
Lemma wrap_fold_lookup (wrapper : string -> verb_slot -> verb_slot)
    (ms : list string) (vs : gmap string verb_slot) name :
  NoDup ms ->
  fold_left
    (fun vs method =>
       match vs !! method with
       | Some originalMethod => <[method := wrapper method originalMethod]> vs
       | None => vs
       end) ms vs !! name
  = if decide (name ∈ ms) then wrapper name <$> vs !! name else vs !! name.
Proof.
  intros Hnd. revert vs.
  induction Hnd as [|m ms Hm Hnd IH]; intros vs.
  - simpl. reflexivity.
  - cbn [fold_left]. rewrite IH. destruct (decide (name = m)) as [->|Hne].
    + rewrite (decide_False (P := m ∈ ms)) by done.
      rewrite (decide_True (P := m ∈ m :: ms)) by (apply elem_of_cons; auto).
      destruct (vs !! m) eqn:E; simpl; [by rewrite lookup_insert_eq|done].
    + assert (Hl : (match vs !! m with
                    | Some o => <[m := wrapper m o]> vs
                    | None => vs
                    end) !! name = vs !! name).
      { destruct (vs !! m); [by rewrite lookup_insert_ne|done]. }
      rewrite Hl.
      destruct (decide (name ∈ ms)) as [Hin|Hin].
      * by rewrite (decide_True (P := name ∈ m :: ms))
          by (apply elem_of_cons; auto).
      * rewrite (decide_False (P := name ∈ m :: ms)); [done|].
        intros [?|?]%elem_of_cons; congruence.
Qed.

Lemma wrapVerbs_lookup wrapper a name :
  verbs (wrapVerbs wrapper a) !! name
  = if decide (name ∈ methods) then wrapper name <$> verbs a !! name
    else verbs a !! name.
Proof. apply wrap_fold_lookup, methods_NoDup. Qed.

Lemma wrapVerbs_mount wrapper a : mount (wrapVerbs wrapper a) = mount a.
Proof. reflexivity. Qed.

Local Arguments wrapVerbs : simpl never.

Lemma hookIntoRouteMethods_eq st a :
  st_heap st !! st_app st = Some a ->
  hookIntoRouteMethods st
  = set_heap (<[st_app st := wrapVerbs MainWrapper a]> (st_heap st)) st.
Proof. unfold hookIntoRouteMethods. by intros ->. Qed.

Lemma hookIntoRouteMethod_eq st a :
  st_heap st !! st_app st = Some a ->
  hookIntoRouteMethod st
  = match mount a with
    | Some originalRouteMethod =>
        set_heap
          (<[st_app st :=
               {| verbs := verbs a;
                  mount := Some (RouteWrapper originalRouteMethod) |}]>
             (st_heap st)) st
    | None => st
    end.
Proof. unfold hookIntoRouteMethod. by intros ->. Qed.


Lemma hookIntoSubAppRoutes_eq st basePath subApp a :
  st_heap st !! subApp = Some a ->
  hookIntoSubAppRoutes basePath subApp st
  = set_heap (<[subApp := wrapVerbs (SubWrapper basePath) a]> (st_heap st)) st.
Proof. unfold hookIntoSubAppRoutes. by intros ->. Qed.

Lemma step_verb st app a slot name (first : argument) handlers :
  st_heap st !! app = Some a -> verbs a !! name = Some slot ->
  step (CallVerb app name first handlers) st
  = runVerb slot app name first handlers st.
Proof. unfold step. intros -> E. simpl. by rewrite E. Qed.

Lemma step_route st app a slot path subApp :
  st_heap st !! app = Some a -> mount a = Some slot ->
  step (CallRoute app path subApp) st
  = Some (runRoute slot app path subApp st).
Proof. unfold step. intros -> E. simpl. by rewrite E. Qed.

(** Mounting an object on the application, when the [route] property of
    the application holds the wrapper of the constructor. *)
Lemma mount_on_main st main_obj sub_obj sub base :
  st_heap st !! st_app st = Some main_obj ->
  mount main_obj = Some (RouteWrapper OriginalRoute) ->
  st_heap st !! sub = Some sub_obj ->
  exists w,
    step (CallRoute (st_app st) base sub) st
    = Some (log (DelegatedRoute (st_app st) base sub)
              (set_heap (<[sub := w]> (st_heap st)) st)) /\
    mount w = mount sub_obj /\
    forall name, name ∈ methods ->
      verbs w !! name = SubWrapper base name <$> verbs sub_obj !! name.
Proof.
  intros Hmain Hmount Hsub.
  exists (wrapVerbs (SubWrapper base) sub_obj). split; [|split].
  - rewrite (step_route _ _ _ _ _ _ Hmain Hmount).
    cbn [runRoute]. by rewrite (hookIntoSubAppRoutes_eq _ _ _ _ Hsub).
  - apply wrapVerbs_mount.
  - intros name Hin. rewrite wrapVerbs_lookup. by rewrite decide_True.
Qed.






End Interception.

(** * The schema converter *)

Section Converter.

Implicit Types (schema value : zod) (f : fragment).

(** The function is its [try] block followed by the [catch] clause. *)
Lemma convert_eq schema :
  convert schema = (c ← try_block convert schema; finish c).
Proof. by destruct schema. Qed.

Lemma logged_bind_eq {A B} (k : A -> logged B) (w : list exn) (a : A) :
  (mbind k ((w, a) : logged A) : logged B)
  = ((w ++ fst (k a))%list, snd (k a)).
Proof. unfold mbind, logged_bind. by destruct (k a). Qed.

Lemma convert_completion schema w c :
  try_block convert schema = (w, c) ->
  convert schema =
  match c with
  | Return result => (w, result)
  | Throw error => ((w ++ [error])%list, fallback)
  | Normal => (w, fallback)
  end.
Proof.
  intros H. rewrite convert_eq, H, logged_bind_eq.
  destruct c; simpl; by rewrite ?app_nil_r.
Qed.

(** The loop over the checks of a string schema raises exactly when one of
    the checks is a regular expression check without its expression. *)
Lemma string_checks_outcome (checks : list string_check) f :
  match string_checks checks f with
  | inl e =>
      e = RegexMissing /\
      existsb (fun c => match c with SRegex None => true | _ => false end)
              checks = true
  | inr _ =>
      existsb (fun c => match c with SRegex None => true | _ => false end)
              checks = false
  end.
Proof.
  revert f. induction checks as [|check checks IH]; intros f; [done|].
  cbn [string_checks existsb].
  destruct check as [| | | |[source|]|]; simpl; try apply IH. done.
Qed.

Lemma convert_options_eq (options : list zod) :
  convert_options convert options
  = (concat (map (fun o => fst (convert o)) options),
     map (fun o => snd (convert o)) options).
Proof.
  induction options as [|o options IH]; [done|].
  cbn [convert_options map concat]. rewrite IH.
  destruct (convert o) as [w f]. rewrite !logged_bind_eq.
  cbn [fst snd ret mret logged_ret]. by rewrite app_nil_r.
Qed.

(** What the [try] block of a node that raises gives. *)
Lemma raises_try_block schema error :
  raises schema = Some error ->
  try_block convert schema = (fst (try_block convert schema), Throw error).
Proof.
  destruct schema as
    [checks|checks| |[shape|]|type|inner|inner [d|]|values|options|v|k];
    simpl; try discriminate.
  - pose proof (string_checks_outcome checks (typed "string")) as H.
    destruct (string_checks checks (typed "string")) as [e|f'].
    + destruct H as [-> H]. rewrite H. by intros [= <-].
    + by rewrite H.
  - by intros [= <-].
  - intros [= <-]. destruct (convert inner) as [w f].
    by rewrite logged_bind_eq.
Qed.

Lemma try_block_raises schema w error :
  try_block convert schema = (w, Throw error) -> raises schema = Some error.
Proof.
  destruct schema as
    [checks|checks| |[shape|]|type|inner|inner [d|]|values|options|v|k];
    unfold try_block; try discriminate.
  - pose proof (string_checks_outcome checks (typed "string")) as H.
    destruct (string_checks checks (typed "string")) as [e|f'];
      [|discriminate].
    destruct H as [-> H]. intros [= <- <-]. simpl. by rewrite H.
  - destruct (convert_entries convert shape) as [w1 ps].
    rewrite logged_bind_eq. discriminate.
  - by intros [= <- <-].
  - destruct (convert type) as [w1 f]. rewrite logged_bind_eq. discriminate.
  - destruct (convert inner) as [w1 f]. rewrite logged_bind_eq. discriminate.
  - destruct (convert inner) as [w1 f]. rewrite logged_bind_eq. discriminate.
  - destruct (convert inner) as [w1 f]. rewrite logged_bind_eq.
    by intros [= <- <-].
  - destruct (convert_options convert options) as [w1 fs].
    rewrite logged_bind_eq. discriminate.
Qed.

(** C4.  The converter confines every exception to the [try] block in
    which it is raised.  On an absent schema it returns [{type: "object"}]
    and logs nothing.  A node of which the conversion raises is converted
    to [{type: "object"}], and the exception is logged, after what the
    conversions nested in the node logged: a string schema with a regular
    expression check without its expression, an object of which [shape()]
    raises, a default of which [defaultValue()] raises (after the warnings
    of its inner schema).  The [try] block ends with an exception for these
    nodes only, and then with this result.  The exception does not reach
    the caller: when such a node is the first option of a union, the
    conversion of the union holds [{type: "object"}] in its place and goes
    on with the conversion of the other options.  A schema of a class that
    is not supported is converted to [{type: "object"}] without a
    warning. *)
Theorem converter_never_raises :
  zodToOpenAPI None = ([], type_object) /\
  (forall schema error,
     raises schema = Some error ->
     exists w,
       zodToOpenAPI (Some schema) = ((w ++ [error])%list, type_object)) /\
  (forall checks,
     existsb (fun c => match c with SRegex None => true | _ => false end)
             checks = true ->
     zodToOpenAPI (Some (ZodString checks)) = ([RegexMissing], type_object)) /\
  zodToOpenAPI (Some (ZodObject None)) = ([ShapeRaised], type_object) /\
  (forall inner,
     zodToOpenAPI (Some (ZodDefault inner None))
     = ((fst (zodToOpenAPI (Some inner)) ++ [DefaultValueRaised])%list,
        type_object)) /\
  (forall schema w error,
     try_block convert schema = (w, Throw error) ->
     raises schema = Some error /\
     zodToOpenAPI (Some schema) = ((w ++ [error])%list, type_object)) /\
  (forall schema error (others : list zod),
     raises schema = Some error ->
     exists w,
       zodToOpenAPI (Some (ZodUnion (schema :: others)))
       = ((w ++ [error] ++ concat (map (fun o => fst (convert o)) others))%list,
          set_oneOf (type_object :: map (fun o => snd (convert o)) others)
            empty_fragment)) /\
  (forall typeName,
     zodToOpenAPI (Some (ZodOther typeName)) = ([], type_object)).
Proof.
  assert (Hraise : forall schema error,
            raises schema = Some error ->
            convert schema
            = ((fst (try_block convert schema) ++ [error])%list, type_object)).
  { intros schema error Hr.
    exact (convert_completion _ _ _ (raises_try_block _ _ Hr)). }
  split; [reflexivity|].
  split; [intros schema error Hr; eexists; exact (Hraise _ _ Hr)|].
  split.
  { intros checks Hc.
    assert (Hr : raises (ZodString checks) = Some RegexMissing)
      by (simpl; by rewrite Hc).
    unfold zodToOpenAPI. rewrite (Hraise _ _ Hr). unfold try_block.
    by destruct (string_checks checks (typed "string")). }
  split; [reflexivity|].
  split.
  { intros inner. unfold zodToOpenAPI.
    rewrite (Hraise (ZodDefault inner None) DefaultValueRaised eq_refl).
    unfold try_block. destruct (convert inner) as [w f].
    rewrite logged_bind_eq. simpl. by rewrite app_nil_r. }
  split.
  { intros schema w error H. split; [exact (try_block_raises _ _ _ H)|].
    exact (convert_completion _ _ _ H). }
  split; [|reflexivity].
  intros schema error others Hr.
  exists (fst (try_block convert schema)).
  unfold zodToOpenAPI. rewrite convert_eq. unfold try_block.
  rewrite convert_options_eq. cbn [map concat]. rewrite (Hraise _ _ Hr).
  rewrite !logged_bind_eq. cbn [fst snd ret mret logged_ret finish].
  by rewrite !app_nil_r, <- app_assoc.
Qed.

(** C4, witness: a regular expression check without its expression, after
    a check that is converted; a default whose [defaultValue()] raises;
    and an object whose [shape()] raises as the first option of a union, of
    which the other option is converted. *)
Lemma converter_never_raises_witness :
  zodToOpenAPI (Some (ZodString [SMin 1; SRegex None]))
    = ([RegexMissing], type_object) /\
  zodToOpenAPI (Some (ZodDefault (ZodString []) None))
    = ([DefaultValueRaised], type_object) /\
  (exists w,
     zodToOpenAPI (Some (ZodObject None))
     = ((w ++ [ShapeRaised])%list, type_object)) /\
  (exists w,
     zodToOpenAPI (Some (ZodUnion [ZodObject None; ZodBoolean]))
     = ((w ++ [ShapeRaised] ++ [])%list,
        set_oneOf [type_object; typed "boolean"] empty_fragment)).
Proof.
  destruct converter_never_raises
    as (_ & Hraises & Hregex & _ & Hdefault & _ & Hunion & _).
  split; [|split; [|split]].
  - exact (Hregex [SMin 1; SRegex None] eq_refl).
  - exact (Hdefault (ZodString [])).
  - exact (Hraises (ZodObject None) _ eq_refl).
  - exact (Hunion (ZodObject None) _ [ZodBoolean] eq_refl).
Defined.

(** Two checks that assign different properties can be applied in either
    order. *)
Lemma string_check_step_comm (c1 c2 : string_check) f :
  (forall t, check_target c1 = Some t -> check_target c2 <> Some t) ->
  match string_check_step c1 f with
  | inl e => inl e
  | inr f' => string_check_step c2 f'
  end
  = match string_check_step c2 f with
    | inl e => inl e
    | inr f' => string_check_step c1 f'
    end.
Proof.
  intros H.
  destruct c1 as [| | | |[?|]|], c2 as [| | | |[?|]|]; simpl in *;
    try reflexivity;
    exfalso; eapply H; reflexivity.
Qed.

Lemma string_checks_cons check checks f :
  string_checks (check :: checks) f
  = match string_check_step check f with
    | inl e => inl e
    | inr f' => string_checks checks f'
    end.
Proof. reflexivity. Qed.

(** The result of the loop over checks of which no two assign the same
    property does not depend on their order. *)
Lemma string_checks_Permutation (checks checks' : list string_check) :
  checks ≡ₚ checks' ->
  NoDup (omap check_target checks) ->
  forall f, string_checks checks f = string_checks checks' f.
Proof.
  induction 1 as [|x l l' Hp IH|x y l|l l' l'' Hp1 IH1 Hp2 IH2];
    intros Hnd f.
  - reflexivity.
  - rewrite !string_checks_cons.
    destruct (string_check_step x f) as [e|f']; [done|].
    apply IH. simpl in Hnd.
    destruct (check_target x); [by apply NoDup_cons in Hnd as [_ ?]|done].
  - rewrite !string_checks_cons.
    pose proof (string_check_step_comm y x f) as Hc.
    destruct (string_check_step y f) as [e|fy] eqn:Hy.
    + destruct (string_check_step x f) as [e'|fx] eqn:Hx.
      * apply Hc. intros t Ht Hx'. simpl in Hnd. rewrite Ht, Hx' in Hnd.
        apply NoDup_cons in Hnd as [Hnotin _]. apply Hnotin.
        apply elem_of_cons. by left.
      * rewrite string_checks_cons. rewrite <- Hc; [done|].
        intros t Ht Hx'. simpl in Hnd. rewrite Ht, Hx' in Hnd.
        apply NoDup_cons in Hnd as [Hnotin _]. apply Hnotin.
        apply elem_of_cons. by left.
    + rewrite string_checks_cons.
      assert (Hind : forall t, check_target y = Some t ->
                               check_target x <> Some t).
      { intros t Ht Hx'. simpl in Hnd. rewrite Ht, Hx' in Hnd.
        apply NoDup_cons in Hnd as [Hnotin _]. apply Hnotin.
        apply elem_of_cons. by left. }
      specialize (Hc Hind).
      destruct (string_check_step x f) as [e'|fx] eqn:Hx.
      * by rewrite Hc.
      * rewrite string_checks_cons. by rewrite Hc.
  - rewrite IH1 by done. apply IH2.
    pose proof (omap_Permutation check_target _ _ Hp1) as Hp'.
    by rewrite <- Hp'.
Qed.

(** C5.  A string schema whose checks are the email check and the length
    bounds 1 and 100, in any order, converts to the fragment with type
    string, format email, minLength 1 and maxLength 100, and to nothing
    else; no warning is logged. *)
Theorem string_email_bounds (checks : list string_check) :
  checks ≡ₚ [SEmail; SMin 1; SMax 100] ->
  zodToOpenAPI (Some (ZodString checks)) = ([], email_1_100).
Proof.
  intros Hp. unfold zodToOpenAPI. rewrite convert_eq. unfold try_block.
  rewrite (string_checks_Permutation _ _ Hp).
  - reflexivity.
  - pose proof (omap_Permutation check_target _ _ Hp) as Hp'.
    rewrite Hp'. compute_done.
Qed.

(** C5, witness: the bounds applied before the email check. *)
Lemma string_email_bounds_witness :
  [SMax 100; SMin 1; SEmail] ≡ₚ [SEmail; SMin 1; SMax 100] /\
  zodToOpenAPI (Some (ZodString [SMax 100; SMin 1; SEmail]))
    = ([], email_1_100).
Proof.
  assert (Hp : [SMax 100; SMin 1; SEmail] ≡ₚ [SEmail; SMin 1; SMax 100]).
  { apply (bool_decide_unpack _). vm_compute. reflexivity. }
  split; [exact Hp|]. exact (string_email_bounds _ Hp).
Defined.

Lemma is_required_wrapped value : is_required value = false <-> wrapped value.
Proof.
  unfold wrapped. split.
  - destruct value; try discriminate; intros _; eauto.
  - by intros [[? ->]|(? & ? & ->)].
Qed.

(** The fragment of an object schema whose [shape()] returns. *)
Lemma convert_object (shape : list (string * zod)) :
  exists properties,
    snd (convert (ZodObject (Some shape)))
    = object_fragment properties
        (map fst (filter (fun kv => is_required (snd kv)) shape)).
Proof.
  rewrite convert_eq. unfold try_block.
  destruct (convert_entries convert shape) as [w properties].
  exists properties. by rewrite !logged_bind_eq.
Qed.

Lemma object_fragment_required properties required :
  f_required (object_fragment properties required)
  = match required with [] => None | _ :: _ => Some required end.
Proof. unfold object_fragment. by destruct required. Qed.

(** The required list of the fragment of an object schema. *)
Lemma required_list (shape : list (string * zod)) :
  let f := snd (zodToOpenAPI (Some (ZodObject (Some shape)))) in
  (forall key,
     key ∈ default [] (f_required f) <->
     exists value, (key, value) ∈ shape /\ ~ wrapped value) /\
  f_required f <> Some [] /\
  ((forall key value, (key, value) ∈ shape -> wrapped value) ->
   f_required f = None).
Proof.
  intros f. subst f. unfold zodToOpenAPI.
  destruct (convert_object shape) as [properties ->].
  rewrite object_fragment_required.
  set (required := map fst (filter (fun kv => is_required (snd kv)) shape)).
  assert (Hreq : forall key,
            key ∈ required <->
            exists value, (key, value) ∈ shape /\ ~ wrapped value).
  { intros key. unfold required. rewrite list_elem_of_fmap. split.
    - intros ([k v] & -> & [Hr Hin]%list_elem_of_filter). simpl in *.
      exists v. split; [done|]. rewrite <- is_required_wrapped.
      by destruct (is_required v).
    - intros (v & Hin & Hw). exists (key, v). split; [done|].
      apply list_elem_of_filter. split; [|done]. simpl.
      rewrite <- is_required_wrapped in Hw. by destruct (is_required v). }
  split; [|split].
  - intros key. rewrite <- Hreq. by destruct required.
  - by destruct required.
  - intros Hall. destruct required as [|key rest] eqn:E; [done|].
    exfalso. destruct (proj1 (Hreq key)) as (v & Hin & Hw).
    + apply elem_of_cons. by left.
    + apply Hw. by eapply Hall.
Qed.

(** C6.  In the fragment of an object schema, a key is in the required
    list exactly when the shape has it with a schema that is neither an
    optional wrapper nor a default wrapper; the list is never the empty
    list, and it is absent when every field is wrapped.  The object with a
    string [name] and an optional [age] that is an integer not below 0
    converts to the object fragment whose required list is [name] alone
    and whose [age] property has type integer and minimum 0. *)
Theorem object_required_policy :
  (forall shape : list (string * zod),
     let f := snd (zodToOpenAPI (Some (ZodObject (Some shape)))) in
     (forall key,
        key ∈ default [] (f_required f) <->
        exists value, (key, value) ∈ shape /\ ~ wrapped value) /\
     f_required f <> Some [] /\
     ((forall key value, (key, value) ∈ shape -> wrapped value) ->
      f_required f = None)) /\
  zodToOpenAPI
    (Some (ZodObject
             (Some [("name", ZodString []);
                    ("age", ZodOptional (ZodNumber [NInt; NMin 0]))])))
  = ([], name_age_object).
Proof. split; [exact required_list|reflexivity]. Qed.

(** C6, witness: an object of which every field is wrapped has no
    required list. *)
Lemma object_required_policy_witness :
  let shape := [("nick", ZodDefault (ZodString []) (Some (JStr "nobody")));
                ("age", ZodOptional (ZodNumber [NInt; NMin 0]))] in
  (forall key value, (key, value) ∈ shape -> wrapped value) /\
  f_required (snd (zodToOpenAPI (Some (ZodObject (Some shape))))) = None.
Proof.
  intros shape.
  assert (Hall : forall key value, (key, value) ∈ shape -> wrapped value).
  { intros key value Hin. apply elem_of_cons in Hin as [Hin|Hin].
    - injection Hin as -> ->. right. eauto.
    - apply list_elem_of_singleton in Hin. injection Hin as -> ->.
      left. eauto. }
  split; [exact Hall|].
  exact (proj2 (proj2 (proj1 object_required_policy shape)) Hall).
Defined.

End Converter.

(** * The tests of the repository

    The expectations of [tests/analyzer.test.ts] and of
    [tests/swagger.test.ts], on the embedding. *)

Section Tests.

Example test_string : zodToOpenAPI (Some (ZodString [])) = ([], typed "string").
Proof. reflexivity. Qed.

Example test_url :
  zodToOpenAPI (Some (ZodString [SUrl]))
  = ([], set_format "uri" (typed "string")).
Proof. reflexivity. Qed.

Example test_number_range :
  zodToOpenAPI (Some (ZodNumber [NMin 0; NMax 100]))
  = ([], set_maximum 100 (set_minimum 0 (typed "number"))).
Proof. reflexivity. Qed.

Example test_integer :
  zodToOpenAPI (Some (ZodNumber [NInt])) = ([], typed "integer").
Proof. reflexivity. Qed.

Example test_object :
  zodToOpenAPI
    (Some (ZodObject (Some [("name", ZodString []);
                            ("age", ZodNumber [NInt; NMin 0])])))
  = ([], object_fragment [("name", typed "string"); ("age", integer_min_0)]
           ["name"; "age"]).
Proof. reflexivity. Qed.

Example test_array :
  zodToOpenAPI (Some (ZodArray (ZodString [])))
  = ([], set_items (typed "string") (typed "array")).
Proof. reflexivity. Qed.

Example test_union :
  zodToOpenAPI (Some (ZodUnion [ZodString []; ZodNumber []]))
  = ([], set_oneOf [typed "string"; typed "number"] empty_fragment).
Proof. reflexivity. Qed.

Example test_enum :
  zodToOpenAPI (Some (ZodEnum ["red"; "green"; "blue"]))
  = ([], set_enum [JStr "red"; JStr "green"; JStr "blue"] (typed "string")).
Proof. reflexivity. Qed.

Example test_add_route :
  let route :=
    mkRoute "get" "/test"
      {[ "parameters" := JArr []; "responses" := JObj [];
         "tags" := JArr [JStr "test"]; "summary" := JStr "Test route" ]} in
  (paths ← generateOpenAPISpec_paths (addRoute route []);
   byMethod ← (paths : gmap string (gmap string props)) !! "/test";
   operation ← (byMethod : gmap string props) !! "get";
   (operation : props) !! "summary")
  = Some (JStr "Test route").
Proof. vm_compute. reflexivity. Qed.

(** The two routes that [init()] adds for the documentation UI pass
    through the wrapper of [get] and are not recorded. *)
Example test_init_routes_excluded :
  st_routes
    <$> run [CallVerb 0 "get" "/swagger-ui" [Fn None None];
             CallVerb 0 "get" "/swagger-ui/openapi.json" [Fn None None]]
          (construct defaultOptions 0 {[ 0 := freshApp ]})
  = Some [].
Proof. vm_compute. reflexivity. Qed.

Example test_scan_end_to_end :
  let router :=
    {| filePath := "src/routes/items.ts"; routerName := "items";
       scanned := [mkScanned "get" "/" 3; mkScanned "post" "/items" 7] |} in
  let once := scanAndRegisterRouters defaultOptions true [router] [] in
  map key_of once = [("get", "/api/items"); ("post", "/api/items/items")] /\
  scanAndRegisterRouters defaultOptions true [router] once = once.
Proof. split; vm_compute; reflexivity. Qed.

End Tests.

(** * More on the registry *)

Section RegistryLaws.

Implicit Types (opts : SwaggerOptions) (routes : list RouteInfo).
Implicit Types (route r : RouteInfo) (options : option props) (m p : string).

Lemma documented_keys m p routes :
  isRouteDocumented m p routes = true <-> (m, p) ∈ map key_of routes.
Proof.
  unfold isRouteDocumented. rewrite existsb_exists, list_elem_of_fmap.
  split.
  - intros (r & Hin & Hk). exists r. apply same_key_spec in Hk as [<- <-].
    split; [done|]. by apply list_elem_of_In.
  - intros (r & Hk & Hin). exists r. split; [by apply list_elem_of_In|].
    apply same_key_spec. unfold key_of in Hk. by injection Hk as -> ->.
Qed.

Lemma documented_findIndex m p routes :
  isRouteDocumented m p routes
  = match findIndex (same_key m p) routes with
    | Some _ => true
    | None => false
    end.
Proof. apply findIndex_existsb. Qed.

Lemma addRoute_again route routes :
  addRoute route (addRoute route routes) = addRoute route routes.
Proof.
  destruct (findIndex (same_key (method route) (path route)) routes)
    as [i|] eqn:Hi.
  - destruct (addRoute_existing _ _ _ Hi) as (e & He & Hm & Hp & Heq).
    rewrite Heq.
    assert (Hi' : findIndex (same_key (method route) (path route))
                    (<[i := spread_route e route]> routes) = Some i).
    { apply findIndex_insert; [done|]. by apply same_key_spec. }
    destruct (addRoute_existing _ _ _ Hi') as (e' & He' & _ & _ & Heq').
    rewrite Heq'.
    rewrite list_lookup_insert_eq in He' by (by eapply lookup_lt_Some).
    injection He' as <-.
    by rewrite list_insert_insert_eq, spread_route_absorb.
  - rewrite (addRoute_new _ _ Hi).
    pose proof (findIndex_snoc _ _ route Hi (same_key_self route)) as Hi'.
    destruct (addRoute_existing _ _ _ Hi') as (e' & He' & _ & _ & Heq').
    rewrite Heq'.
    rewrite lookup_app_r, Nat.sub_diag in He' by done.
    injection He' as <-.
    rewrite spread_route_self.
    apply list_insert_id. by rewrite lookup_app_r, Nat.sub_diag.
Qed.

(** X1.  [addRoute] leaves every entry at its position: the registry grows
    by one entry, at the end, when the key is new, and keeps its length
    otherwise; an entry under another key is not touched; the entry at a
    position keeps its key. *)
Theorem addRoute_frame route routes :
  length (addRoute route routes)
  = length routes
    + (if isRouteDocumented (method route) (path route) routes
       then 0 else 1) /\
  (forall i r, routes !! i = Some r -> key_of r <> key_of route ->
               addRoute route routes !! i = Some r) /\
  (forall i r, routes !! i = Some r ->
               exists r', addRoute route routes !! i = Some r' /\
                          key_of r' = key_of r).
Proof.
  rewrite documented_findIndex.
  destruct (findIndex (same_key (method route) (path route)) routes)
    as [j|] eqn:Hj.
  - destruct (addRoute_existing _ _ _ Hj) as (e & He & Hm & Hp & ->).
    split; [by rewrite length_insert, Nat.add_0_r|]. split.
    + intros i r Hi Hne. destruct (decide (i = j)) as [->|Hij].
      * rewrite He in Hi. injection Hi as <-. exfalso. apply Hne.
        unfold key_of. congruence.
      * by rewrite list_lookup_insert_ne.
    + intros i r Hi. destruct (decide (i = j)) as [->|Hij].
      * rewrite He in Hi. injection Hi as <-.
        exists (spread_route e route). split.
        -- apply list_lookup_insert_eq. by eapply lookup_lt_Some.
        -- unfold key_of. simpl. congruence.
      * exists r. by rewrite list_lookup_insert_ne.
  - rewrite (addRoute_new _ _ Hj). split; [by rewrite length_app|]. split.
    + intros i r Hi _. by apply lookup_app_l_Some.
    + intros i r Hi. exists r. split; [by apply lookup_app_l_Some|done].
Qed.

(** X1, witness. *)
Lemma addRoute_frame_witness :
  let a := mkRoute "get" "/a" ∅ in
  let b := mkRoute "get" "/b" ∅ in
  let b' := mkRoute "get" "/b" {[ "summary" := JStr "B" ]} in
  [a; b] !! 0 = Some a /\ key_of a <> key_of b' /\
  addRoute b' [a; b] !! 0 = Some a.
Proof.
  intros a b b'.
  assert (H0 : [a; b] !! 0 = Some a) by reflexivity.
  assert (Hne : key_of a <> key_of b') by discriminate.
  split; [exact H0|]. split; [exact Hne|].
  exact (proj1 (proj2 (addRoute_frame b' [a; b])) 0 a H0 Hne).
Defined.

(** X2.  After [addRoute], the key of the route is documented, and
    [isRouteDocumented] answers for every other key as it did before. *)
Theorem addRoute_documented route routes m p :
  isRouteDocumented m p (addRoute route routes)
  = isRouteDocumented m p routes || same_key m p route.
Proof.
  apply eq_true_iff_eq.
  rewrite orb_true_iff, !documented_keys, same_key_spec, addRoute_keys.
  destruct (findIndex _ routes) as [i|] eqn:Hi.
  - split; [by left|]. intros [H|[<- <-]]; [done|].
    apply documented_keys. rewrite documented_findIndex. by rewrite Hi.
  - rewrite elem_of_app, list_elem_of_singleton. unfold key_of.
    split; (intros [H|H]; [by left|right]).
    + by injection H as -> ->.
    + by destruct H as [<- <-].
Qed.

Lemma register_invariant (I : list RouteInfo -> Prop) opts op routes :
  (forall route routes, I routes -> I (addRoute route routes)) ->
  I routes -> I (register opts routes op).
Proof.
  intros Hadd HI.
  assert (Hauto : forall m p options routes,
            I routes -> I (autoRegisterRoute opts m p options routes)).
  { intros m p options rs Hrs. unfold autoRegisterRoute.
    destruct (shouldExcludePath opts p); [done|].
    destruct (isRouteDocumented _ _ rs); [done|]. by apply Hadd. }
  destruct op as [route|m p options|m p options|enabled routers|appRoutes];
    simpl.
  - by apply Hadd.
  - by apply Hadd.
  - by apply Hauto.
  - unfold scanAndRegisterRouters. destruct enabled; [|done].
    apply fold_invariant; [|done]. intros rs router Hrs.
    unfold registerRouter. apply fold_invariant; [|done].
    intros rs' sr Hrs'. by apply Hauto.
  - unfold Extraction.extractAllRoutes. destruct appRoutes as [l|]; [|done].
    apply fold_invariant; [|done]. intros rs hr Hrs.
    unfold Extraction.extractRoute.
    destruct (_ && _); [|done]. destruct (_ || _); [done|].
    by apply Hauto.
Qed.

Lemma auto_from_add (I : list RouteInfo -> Prop) :
  (forall route routes, I routes -> I (addRoute route routes)) ->
  forall opts m p options routes,
    I routes -> I (autoRegisterRoute opts m p options routes).
Proof.
  intros Hadd opts m p options routes HI.
  apply (register_invariant I opts (AutoRegister m p options) routes Hadd HI).
Qed.

(** X3.  No two entries of the registry share a key, whatever the
    operations that wrote it: manual additions and registrations,
    auto-registrations, scans, extractions, and the calls that the
    wrappers intercept. *)
Theorem registry_keys_stay_unique :
  (forall opts (ops : list registration) routes,
     unique_keys routes -> unique_keys (fold_left (register opts) ops routes))
  /\
  (forall calls (st st' : state),
     run calls st = Some st' ->
     unique_keys (st_routes st) -> unique_keys (st_routes st')).
Proof.
  split.
  - intros opts ops routes. apply fold_invariant. intros rs op.
    apply register_invariant. intros route rs'. apply addRoute_unique.
  - intros calls st st'. apply run_invariant.
    apply (auto_from_add unique_keys). intros route rs. apply addRoute_unique.
Qed.

(** X3, witness: a manual registration, two discoveries of it and a scan,
    on the empty registry. *)
Lemma registry_keys_stay_unique_witness :
  let ops :=
    [RegisterRoute "get" "/users/:id" None;
     AutoRegister "GET" "/users/:id/" None;
     AddRoute (mkRoute "get" "/users/{id}" ∅);
     ScanRouters true
       [mkRouter "src/routes/users.ts" "users" [mkScanned "get" "/:id" 3]]] in
  unique_keys [] /\
  unique_keys (fold_left (register defaultOptions) ops []).
Proof.
  intros ops. assert (H : unique_keys []) by constructor.
  split; [exact H|].
  exact (proj1 registry_keys_stay_unique defaultOptions ops [] H).
Defined.

(** X4.  No operation deletes or moves an entry: the keys of the registry
    before a sequence of operations, or before a sequence of intercepted
    calls, are the first keys of the registry after it, in the same
    order. *)
Theorem registry_only_grows :
  (forall opts (ops : list registration) routes,
     map key_of routes `prefix_of`
       map key_of (fold_left (register opts) ops routes)) /\
  (forall calls (st st' : state),
     run calls st = Some st' ->
     map key_of (st_routes st) `prefix_of` map key_of (st_routes st')).
Proof.
  assert (Hadd : forall routes0 route routes,
            map key_of routes0 `prefix_of` map key_of routes ->
            map key_of routes0 `prefix_of` map key_of (addRoute route routes)).
  { intros routes0 route routes H. rewrite addRoute_keys.
    destruct (findIndex _ routes); [done|]. by apply prefix_app_r. }
  split.
  - intros opts ops routes.
    apply (fold_invariant
             (fun rs => map key_of routes `prefix_of` map key_of rs));
      [|done].
    intros rs op.
    apply (register_invariant
             (fun rs' => map key_of routes `prefix_of` map key_of rs')).
    intros route rs'. apply Hadd.
  - intros calls st st' Hrun.
    apply (run_invariant
             (fun rs => map key_of (st_routes st) `prefix_of` map key_of rs)
             calls st st'); [|done|done].
    apply (auto_from_add
             (fun rs => map key_of (st_routes st) `prefix_of` map key_of rs)).
    intros route rs. apply Hadd.
Qed.

(** X4, witness: intercepted calls after the constructor. *)
Lemma registry_only_grows_witness :
  let st := construct defaultOptions 0 {[ 0 := freshApp ]} in
  exists st1 st2,
    run [CallVerb 0 "get" "/a" []] st = Some st1 /\
    run [CallVerb 0 "post" "/b" []; CallVerb 0 "get" "/a/" []] st1
      = Some st2 /\
    map key_of (st_routes st1) `prefix_of` map key_of (st_routes st2).
Proof.
  intros st.
  destruct (run [CallVerb 0 "get" "/a" []] st) as [st1|] eqn:H1;
    [|vm_compute in H1; discriminate].
  destruct (run [CallVerb 0 "post" "/b" []; CallVerb 0 "get" "/a/" []] st1)
    as [st2|] eqn:H2.
  - exists st1, st2. split; [reflexivity|]. split; [exact H2|].
    exact (proj2 registry_only_grows _ st1 st2 H2).
  - exfalso. injection H1 as <-. vm_compute in H2. discriminate.
Defined.

(** X5.  An auto-registration repeated with the same arguments changes
    nothing the second time, whatever the registry and the case of the
    method. *)
Theorem autoRegister_idempotent opts m p options routes :
  autoRegisterRoute opts m p options
    (autoRegisterRoute opts m p options routes)
  = autoRegisterRoute opts m p options routes.
Proof.
  destruct (shouldExcludePath opts p) eqn:Hex.
  { by rewrite !(autoRegister_excluded _ _ _ _ _ Hex). }
  destruct (isRouteDocumented m (storedPath p) routes) eqn:Hdoc.
  { by rewrite !(autoRegister_documented _ _ _ _ _ Hdoc). }
  rewrite (autoRegister_fresh _ _ _ _ routes Hex Hdoc).
  set (ri := autoRouteInfo m p (storedPath p) options).
  destruct (isRouteDocumented m (storedPath p) (addRoute ri routes)) eqn:Hdoc'.
  - by apply autoRegister_documented.
  - rewrite (autoRegister_fresh _ _ _ _ _ Hex Hdoc'). apply addRoute_again.
Qed.

End RegistryLaws.

(** * More on auto-registration and rendering *)

Section AutoAndRender.

Implicit Types (opts : SwaggerOptions) (routes : list RouteInfo).
Implicit Types (route r : RouteInfo) (options : option props) (m p : string).

Lemma lower_char_idemp c : lower_char (lower_char c) = lower_char c.
Proof. destruct c as [[] [] [] [] [] [] [] []]; reflexivity. Qed.

Lemma toLowerCase_idemp m : toLowerCase (toLowerCase m) = toLowerCase m.
Proof.
  unfold toLowerCase. induction m as [|c m IH]; [done|].
  simpl. by rewrite lower_char_idemp, IH.
Qed.

Lemma addRoute_all_lower route routes :
  toLowerCase (method route) = method route ->
  all_lower routes -> all_lower (addRoute route routes).
Proof.
  unfold all_lower. intros Hr Hall.
  destruct (findIndex (same_key (method route) (path route)) routes)
    as [i|] eqn:Hi.
  - destruct (addRoute_existing _ _ _ Hi) as (e & _ & _ & _ & ->).
    by apply Forall_insert.
  - rewrite (addRoute_new _ _ Hi). apply Forall_app. split; [done|].
    by constructor.
Qed.

Lemma all_lower_undocumented m p routes :
  all_lower routes -> toLowerCase m <> m ->
  isRouteDocumented m p routes = false.
Proof.
  intros Hall Hm. apply not_true_iff_false. intros H.
  apply existsb_exists in H as (r & Hin & [Hr _]%same_key_spec).
  unfold all_lower in Hall. rewrite Forall_forall in Hall.
  apply list_elem_of_In in Hin. specialize (Hall r Hin). congruence.
Qed.

Lemma autoRouteInfo_summary m p np options :
  fields (autoRouteInfo m p np options) !! "summary"
  = Some (js_or (opt_prop options "summary")
                (JStr (toUpperCase m ++ " " ++ p))).
Proof.
  unfold autoRouteInfo. simpl.
  by rewrite !lookup_insert_ne, lookup_insert_eq by done.
Qed.

(** X6.  The first-discovery-wins test compares the method as it is
    passed with the methods as they are stored, in lower case.  So when
    the stored methods are in lower case and the method of a call is not,
    the test never holds: the call goes to [addRoute], and the entry under
    the lower-cased method and the path takes the summary of this call,
    also when an earlier discovery had written one.  The stored methods
    stay in lower case. *)
Theorem uppercase_method_overwrites opts m p options routes :
  all_lower routes -> toLowerCase m <> m ->
  shouldExcludePath opts p = false ->
  let routes' := autoRegisterRoute opts m p options routes in
  routes' = addRoute (autoRouteInfo m p (storedPath p) options) routes /\
  all_lower routes' /\
  exists i entry,
    routes' !! i = Some entry /\
    key_of entry = (toLowerCase m, storedPath p) /\
    fields entry !! "summary"
    = Some (js_or (opt_prop options "summary")
                  (JStr (toUpperCase m ++ " " ++ p))).
Proof.
  intros Hall Hm Hex routes'. subst routes'.
  rewrite (autoRegister_fresh _ _ _ _ _ Hex
             (all_lower_undocumented _ _ _ Hall Hm)).
  split; [done|]. split.
  - apply addRoute_all_lower; [|done]. simpl. apply toLowerCase_idemp.
  - destruct (addRoute_elem (autoRouteInfo m p (storedPath p) options) routes)
      as (i & entry & Hi & Hk & Hf).
    exists i, entry. split; [done|]. split; [by rewrite Hk|].
    apply Hf, autoRouteInfo_summary.
Qed.

(** X6, witness: a documented [get] route, then the same route found with
    the method [GET]. *)
Lemma uppercase_method_overwrites_witness :
  let routes :=
    autoRegisterRoute defaultOptions "get" "/users"
      (Some {[ "summary" := JStr "List users" ]}) [] in
  all_lower routes /\
  exists entry,
    autoRegisterRoute defaultOptions "GET" "/users" None routes = [entry] /\
    fields entry !! "summary" = Some (JStr "GET /users").
Proof.
  intros routes.
  assert (Hall : all_lower routes) by (repeat constructor).
  split; [exact Hall|].
  destruct (uppercase_method_overwrites defaultOptions "GET" "/users" None
              routes Hall ltac:(discriminate) eq_refl)
    as (Heq & _ & _).
  eexists. split; [rewrite Heq; vm_compute; reflexivity|].
  vm_compute. reflexivity.
Defined.

(** X7.  A request body goes with the verbs [post], [put] and [patch]
    only.  [generateRequestBodyFromMethod] gives [undefined] for every
    other method, whatever the options, and a truthy value for these
    three, in any case of the letters; the rendered operation has the
    [requestBody] property exactly when the stored method is one of the
    three, and then its value is truthy. *)
Theorem request_body_policy :
  (forall method options,
     carries_body method = false ->
     generateRequestBodyFromMethod method options = JUndefined) /\
  (forall method options,
     carries_body method = true ->
     truthy (generateRequestBodyFromMethod method options) = true) /\
  (forall r,
     method r ∈ ["post"; "put"; "patch"] ->
     exists body,
       operation_of r !! "requestBody" = Some body /\ truthy body = true) /\
  (forall r,
     method r ∉ ["post"; "put"; "patch"] ->
     operation_of r !! "requestBody" = None).
Proof.
  split; [|split; [|split]].
  - intros method options H. unfold generateRequestBodyFromMethod.
    by rewrite H.
  - intros method options H. unfold generateRequestBodyFromMethod.
    rewrite H. simpl.
    by destruct (truthy (opt_prop options "requestBody")) eqn:E.
  - intros r Hin. unfold operation_of.
    assert (Hb : String.eqb (method r) "post" || String.eqb (method r) "put"
                 || String.eqb (method r) "patch" = true).
    { rewrite !orb_true_iff, !String.eqb_eq.
      rewrite !elem_of_cons, elem_of_nil in Hin. tauto. }
    rewrite Hb. eexists. rewrite lookup_insert_eq. split; [reflexivity|].
    unfold js_or.
    by destruct (truthy (get_prop (fields r) "requestBody")) eqn:E.
  - intros r Hnotin. unfold operation_of.
    assert (Hb : String.eqb (method r) "post" || String.eqb (method r) "put"
                 || String.eqb (method r) "patch" = false).
    { apply not_true_iff_false. rewrite !orb_true_iff, !String.eqb_eq.
      intros H. apply Hnotin. rewrite !elem_of_cons. tauto. }
    rewrite Hb.
    destruct (truthy (get_prop (fields r) "description"));
      by rewrite ?lookup_insert_ne, ?lookup_singleton_ne by done.
Qed.

(** X7, witness. *)
Lemma request_body_policy_witness :
  generateRequestBodyFromMethod "DELETE" (Some {[ "requestBody" := JObj [] ]})
    = JUndefined /\
  truthy (generateRequestBodyFromMethod "Post" None) = true /\
  operation_of (mkRoute "get" "/x" {[ "requestBody" := JObj [] ]})
    !! "requestBody" = None.
Proof.
  destruct request_body_policy as (H1 & H2 & _ & H4).
  split; [exact (H1 "DELETE" _ eq_refl)|].
  split; [exact (H2 "Post" None eq_refl)|].
  apply H4. simpl. rewrite !not_elem_of_cons. repeat split; try discriminate.
  apply not_elem_of_nil.
Defined.

Lemma routeOptions_step (routeOptions : props) (h : handler) k :
  match h with
  | NotAFunction => routeOptions
  | Fn so sro =>
      let routeOptions :=
        match so with
        | Some o => spread routeOptions o
        | None => routeOptions
        end in
      match sro with
      | Some o => spread routeOptions o
      | None => routeOptions
      end
  end !! k
  = match provides h k with
    | Some v => Some v
    | None => routeOptions !! k
    end.
Proof.
  destruct h as [|[so|] [sro|]]; simpl; rewrite ?spread_lookup; try done;
    by destruct (sro !! k).
Qed.

Lemma routeOptions_fold (hs : list handler) (acc : props) k :
  Forall (fun h => provides h k = None) hs ->
  fold_left
    (fun routeOptions h =>
       match h with
       | NotAFunction => routeOptions
       | Fn so sro =>
           let routeOptions :=
             match so with
             | Some o => spread routeOptions o
             | None => routeOptions
             end in
           match sro with
           | Some o => spread routeOptions o
           | None => routeOptions
           end
       end) hs acc !! k
  = acc !! k.
Proof.
  intros Hall. revert acc.
  induction Hall as [|h hs Hh _ IH]; intros acc; [done|].
  cbn [fold_left]. rewrite IH, routeOptions_step. by rewrite Hh.
Qed.

(** X8.  Among the handlers of a call, the last one that carries a key
    decides it in the route options: handlers after it that do not carry
    the key leave it, and what earlier handlers gave is overridden; a key
    that no handler carries is absent.  Arguments that are not functions
    carry nothing. *)
Theorem routeOptions_last_wins :
  (forall (before after : list handler) h k v,
     provides h k = Some v ->
     Forall (fun h' => provides h' k = None) after ->
     routeOptionsOf (before ++ h :: after) !! k = Some v) /\
  (forall (hs : list handler) k,
     Forall (fun h => provides h k = None) hs ->
     routeOptionsOf hs !! k = None).
Proof.
  split.
  - intros before after h k v Hh Hafter. unfold routeOptionsOf.
    rewrite fold_left_app. cbn [fold_left].
    rewrite (routeOptions_fold _ _ _ Hafter), routeOptions_step.
    by rewrite Hh.
  - intros hs k Hall. unfold routeOptionsOf.
    by rewrite (routeOptions_fold _ _ _ Hall).
Qed.

(** X8, witness: two documenting middlewares and a plain handler. *)
Lemma routeOptions_last_wins_witness :
  let first := Fn (Some {[ "summary" := JStr "old" ]}) None in
  let second := Fn (Some {[ "summary" := JStr "new" ]}) None in
  provides second "summary" = Some (JStr "new") /\
  routeOptionsOf [first; second; Fn None None; NotAFunction] !! "summary"
  = Some (JStr "new").
Proof.
  intros first second.
  assert (H : provides second "summary" = Some (JStr "new")) by reflexivity.
  split; [exact H|].
  apply (proj1 routeOptions_last_wins [first] [Fn None None; NotAFunction]
           second "summary" (JStr "new") H).
  repeat constructor.
Defined.

(** The rendering stays in the document exactly when no path names an
    inherited property. *)
Lemma render_routes_Some (routes : list RouteInfo)
    (acc : gmap string (gmap string props)) :
  is_Some (render_routes routes acc)
  <-> Forall (fun r => inherited (path r) = false) routes.
Proof.
  revert acc. induction routes as [|r routes IH]; intros acc.
  - split; [constructor|by eexists].
  - cbn [render_routes]. unfold render_route.
    destruct (inherited (path r)) eqn:Hr; cbn [mbind option_bind].
    + split; [by intros [? ?]|]. intros H. inversion H. congruence.
    + rewrite IH. split; [by constructor|]. intros H. by inversion H.
Qed.

Lemma rendered_step (acc : gmap string (gmap string props)) r p m :
  rendered
    (<[path r := assign_operation (method r) (operation_of r)
                   (default ∅ (acc !! path r))]> acc) p m
  = if same_key m p r && negb (String.eqb m "__proto__")
    then Some (operation_of r) else rendered acc p m.
Proof.
  unfold rendered, assign_operation.
  destruct (same_key m p r) eqn:Hk.
  - apply same_key_spec in Hk as [<- <-]. rewrite lookup_insert_eq. simpl.
    destruct (String.eqb (method r) "__proto__"); simpl.
    + by destruct (acc !! path r).
    + by rewrite lookup_insert_eq.
  - apply same_key_false in Hk. unfold key_of in Hk. simpl.
    destruct (decide (path r = p)) as [Hp|Hp].
    + rewrite Hp, lookup_insert_eq. simpl.
      destruct (String.eqb (method r) "__proto__").
      * by destruct (acc !! p).
      * rewrite lookup_insert_ne by congruence. by destruct (acc !! p).
    + by rewrite lookup_insert_ne.
Qed.

Lemma render_fold (routes : list RouteInfo)
    (acc paths : gmap string (gmap string props)) p m :
  render_routes routes acc = Some paths ->
  rendered paths p m
  = if String.eqb m "__proto__" then rendered acc p m
    else match last (entries_of m p routes) with
         | Some r => Some (operation_of r)
         | None => rendered acc p m
         end.
Proof.
  revert acc. induction routes as [|r routes IH]; intros acc.
  - intros [= <-]. by destruct (String.eqb m "__proto__").
  - cbn [render_routes]. unfold render_route.
    destruct (inherited (path r)); [done|]. cbn [mbind option_bind].
    intros H. rewrite (IH _ H), rendered_step. unfold entries_of. simpl.
    destruct (String.eqb m "__proto__"); [by rewrite andb_false_r|].
    rewrite andb_true_r.
    destruct (same_key m p r); [|done].
    rewrite last_cons. by destruct (last (List.filter _ routes)).
Qed.

(** X9.  The rendering writes on the own properties of [paths] as long as
    no stored path names a property that a plain object inherits; a path
    that does gets no entry in the document, the operation being written on
    the built-in object.  When the rendering stays in the document, the
    document holds an operation for a path and a method exactly when the
    registry holds an entry under this key and the method is not
    [__proto__], and the operation is the one of the last such entry; with
    distinct keys, every entry whose method is not [__proto__] is rendered
    as its own operation under its path and method. *)
Theorem rendered_operations :
  (forall routes,
     is_Some (generateOpenAPISpec_paths routes)
     <-> Forall (fun r => inherited (path r) = false) routes) /\
  (forall routes paths p m,
     generateOpenAPISpec_paths routes = Some paths ->
     rendered paths p m
     = if String.eqb m "__proto__" then None
       else operation_of <$> last (entries_of m p routes)) /\
  (forall routes paths r,
     generateOpenAPISpec_paths routes = Some paths ->
     unique_keys routes -> r ∈ routes -> method r <> "__proto__" ->
     rendered paths (path r) (method r) = Some (operation_of r)) /\
  (forall routes paths p m,
     generateOpenAPISpec_paths routes = Some paths ->
     isRouteDocumented m p routes = false -> rendered paths p m = None).
Proof.
  assert (H1 : forall routes paths p m,
            generateOpenAPISpec_paths routes = Some paths ->
            rendered paths p m
            = if String.eqb m "__proto__" then None
              else operation_of <$> last (entries_of m p routes)).
  { intros routes paths p m H. rewrite (render_fold _ _ _ _ _ H).
    destruct (String.eqb m "__proto__"); [done|]. by destruct (last _). }
  split; [intros routes; apply render_routes_Some|].
  split; [exact H1|]. split.
  - intros routes paths r H Hnd Hin Hm. rewrite (H1 _ _ _ _ H).
    apply String.eqb_neq in Hm. rewrite Hm.
    apply list_elem_of_lookup in Hin as [i Hi].
    by rewrite (entries_of_unique _ _ _ i r Hnd Hi (same_key_self r)).
  - intros routes paths p m H Hdoc. rewrite (H1 _ _ _ _ H).
    destruct (String.eqb m "__proto__"); [done|].
    rewrite documented_findIndex in Hdoc.
    destruct (findIndex (same_key m p) routes) eqn:E; [done|].
    by rewrite (entries_of_none _ _ _ E).
Qed.

(** X9, witness: two operations under one path; and a registry with the
    path [constructor], of which the rendering leaves the document. *)
Lemma rendered_operations_witness :
  let a := mkRoute "get" "/a" {[ "summary" := JStr "A" ]} in
  let b := mkRoute "post" "/a" ∅ in
  (exists paths,
     generateOpenAPISpec_paths [a; b] = Some paths /\
     rendered paths "/a" "post" = Some (operation_of b) /\
     rendered paths "/b" "get" = None) /\
  generateOpenAPISpec_paths [a; mkRoute "get" "constructor" ∅] = None.
Proof.
  intros a b.
  destruct rendered_operations as (Hsome & _ & Hown & Hnone).
  assert (Hnd : unique_keys [a; b]) by compute_done.
  assert (Hin : b ∈ [a; b]) by (apply elem_of_cons; right; by left).
  split.
  - destruct (generateOpenAPISpec_paths [a; b]) as [paths|] eqn:H;
      [|vm_compute in H; discriminate].
    exists paths. split; [reflexivity|]. split.
    + apply (Hown [a; b] paths b H Hnd Hin). discriminate.
    + exact (Hnone [a; b] paths "/b" "get" H eq_refl).
  - destruct (generateOpenAPISpec_paths [a; mkRoute "get" "constructor" ∅])
      as [paths|] eqn:H; [|reflexivity].
    exfalso.
    assert (Hs : is_Some
               (generateOpenAPISpec_paths [a; mkRoute "get" "constructor" ∅]))
      by (rewrite H; by eexists).
    apply Hsome in Hs. inversion Hs as [|? ? _ Hs']. inversion Hs'.
    discriminate.
Defined.

End AutoAndRender.

(** * More on paths *)

Section PathLaws.

Implicit Types (s r : string) (c : ascii) (opts : SwaggerOptions).

Lemma split_slash_segments s :
  Forall (fun seg => all_chars (fun c => negb (is_slash c)) seg = true)
         (split_slash s).
Proof.
  induction s as [|c s IH]; simpl; [by repeat constructor|].
  destruct (is_slash c) eqn:Hc; [by constructor|].
  destruct (split_slash s) as [|seg segs]; [by repeat constructor; simpl; rewrite Hc|].
  inversion IH; subst. constructor; [|done]. simpl. by rewrite Hc.
Qed.

Lemma split_slash_plain a :
  all_chars (fun c => negb (is_slash c)) a = true -> split_slash a = [a].
Proof.
  induction a as [|c a IH]; [done|]. simpl.
  intros [Hc Ha]%andb_true_iff. apply negb_true_iff in Hc.
  by rewrite Hc, (IH Ha).
Qed.

Lemma split_slash_app a r :
  all_chars (fun c => negb (is_slash c)) a = true ->
  split_slash (a ++ String "/" r) = a :: split_slash r.
Proof.
  induction a as [|c a IH]; [done|]. simpl.
  intros [Hc Ha]%andb_true_iff. apply negb_true_iff in Hc.
  by rewrite Hc, (IH Ha).
Qed.

Lemma plain_segment_kept seg :
  plain_segment seg = true ->
  Is_true (negb (String.eqb seg "") && negb (startsWith seg "{")).
Proof.
  unfold plain_segment. intros [[H1 _]%andb_true_iff H2]%andb_true_iff.
  by rewrite H1, H2.
Qed.

(** X10.  The tag of a path is never empty, holds no slash and does not
    start with an opening brace: it is a segment of the path that is
    neither empty nor a placeholder, or the word default. *)
Theorem generateTag_is_plain path :
  plain_segment (generateTagFromPath path) = true /\
  (generateTagFromPath path = "default" \/
   generateTagFromPath path ∈ split_slash path).
Proof.
  unfold generateTagFromPath.
  match goal with
  | |- context [filter ?P (split_slash path)] =>
      remember (filter P (split_slash path)) as segments eqn:E
  end.
  assert (Hseg : forall seg, seg ∈ segments ->
            plain_segment seg = true /\ seg ∈ split_slash path).
  { intros seg Hin. rewrite E in Hin.
    apply list_elem_of_filter in Hin as [Hk Hin]. split; [|done].
    pose proof (split_slash_segments path) as Hall.
    rewrite Forall_forall in Hall. specialize (Hall seg Hin).
    unfold plain_segment.
    apply Is_true_true, andb_true_iff in Hk as [H1 H2].
    by rewrite H1, Hall, H2. }
  clear E. destruct segments as [|s0 [|s1 rest]].
  - split; [reflexivity|by left].
  - destruct (Hseg s0) as [? ?]; [apply elem_of_cons; by left|].
    split; [done|by right].
  - destruct (Hseg s1) as [? ?];
      [apply elem_of_cons; right; apply elem_of_cons; by left|].
    split; [done|by right].
Qed.

Lemma split_slash_nonempty s : split_slash s <> [].
Proof.
  destruct s as [|c s]; [done|]. simpl.
  destruct (is_slash c); [done|]. by destruct (split_slash s).
Qed.

(** Splitting at the slashes and joining with slashes are inverse. *)
Lemma split_join_slash (segs : list string) :
  segs <> [] -> Forall (fun seg => slash_free seg = true) segs ->
  split_slash (String.concat "/" segs) = segs.
Proof.
  induction segs as [|x [|y rest] IH]; [done| |].
  - intros _ H. inversion H. by apply split_slash_plain.
  - intros _ H. inversion H as [|? ? Hx Hrest]. subst.
    change (String.concat "/" (x :: y :: rest))
      with (x ++ String "/" (String.concat "/" (y :: rest)))%string.
    rewrite (split_slash_app _ _ Hx). f_equal. by apply IH.
Qed.

Lemma join_split_slash s : String.concat "/" (split_slash s) = s.
Proof.
  induction s as [|c s IH]; [done|]. simpl.
  pose proof (split_slash_nonempty s) as Hne.
  destruct (is_slash c) eqn:Hc.
  - apply Ascii.eqb_eq in Hc as ->.
    destruct (split_slash s) as [|y ys]; [done|].
    change (String.concat "/" ("" :: y :: ys))
      with (String "/" (String.concat "/" (y :: ys))).
    by rewrite IH.
  - destruct (split_slash s) as [|y [|z zs]]; [done| |].
    + simpl in *. by rewrite IH.
    + change (String.concat "/" (String c y :: z :: zs))
        with (String c (String.concat "/" (y :: z :: zs))).
      by rewrite IH.
Qed.

Lemma filter_plain (segs : list string) :
  Forall (fun seg => slash_free seg = true) segs ->
  filter (fun s => negb (String.eqb s "") && negb (startsWith s "{")) segs
  = List.filter plain_segment segs.
Proof.
  induction 1 as [|x segs Hx _ IH]; [done|]. simpl.
  destruct (plain_segment x) eqn:Hp.
  - rewrite filter_cons_True by (by apply plain_segment_kept). by rewrite IH.
  - rewrite filter_cons_False; [done|].
    intros Hk. apply Is_true_true, andb_true_iff in Hk as [H1 H2].
    unfold plain_segment in Hp. unfold slash_free in Hx.
    by rewrite H1, Hx, H2 in Hp.
Qed.

(** X11.  Of the pieces of a path between its slashes, the tag function
    keeps those that are neither empty nor start with an opening brace: the
    tag is the second of them when there are two or more, whatever it is
    (also a colon parameter), the only one when there is one, and the word
    default when there is none.  Every path is the join of its pieces, so
    that this gives the tag of every path. *)
Theorem generateTag_second_segment :
  (forall a b rest,
     plain_segment a = true -> plain_segment b = true ->
     rest = "" \/ (exists rest', rest = String "/" rest') ->
     generateTagFromPath ("/" ++ a ++ "/" ++ b ++ rest) = b) /\
  (forall a, plain_segment a = true -> generateTagFromPath ("/" ++ a) = a) /\
  (forall segs : list string,
     segs <> [] -> Forall (fun seg => slash_free seg = true) segs ->
     generateTagFromPath (String.concat "/" segs)
     = match List.filter plain_segment segs with
       | [] => "default"
       | [a] => a
       | _ :: b :: _ => b
       end) /\
  (forall path,
     split_slash path <> [] /\
     Forall (fun seg => slash_free seg = true) (split_slash path) /\
     String.concat "/" (split_slash path) = path).
Proof.
  split; [|split; [|split]].
  - intros a b rest Ha Hb Hrest. unfold generateTagFromPath.
    assert (Hsa : all_chars (fun c => negb (is_slash c)) a = true).
    { unfold plain_segment in Ha.
      by apply andb_true_iff in Ha as [[_ ?]%andb_true_iff _]. }
    assert (Hsb : all_chars (fun c => negb (is_slash c)) b = true).
    { unfold plain_segment in Hb.
      by apply andb_true_iff in Hb as [[_ ?]%andb_true_iff _]. }
    change ("/" ++ a ++ "/" ++ b ++ rest)%string
      with (String "/" (a ++ String "/" (b ++ rest))).
    change (split_slash (String "/" ?x)) with ("" :: split_slash x).
    rewrite (split_slash_app _ _ Hsa).
    assert (Hb' : exists tail, split_slash (b ++ rest) = b :: tail).
    { destruct Hrest as [->|[rest' ->]].
      - exists []. clear Ha Hb Hsa. induction b as [|c b IH]; [done|].
        simpl in *. apply andb_true_iff in Hsb as [Hc Hb].
        apply negb_true_iff in Hc. by rewrite Hc, (IH Hb).
      - eexists. by apply split_slash_app. }
    destruct Hb' as [tail ->].
    rewrite filter_cons_False by (simpl; auto).
    rewrite (filter_cons_True _ a) by (by apply plain_segment_kept).
    by rewrite (filter_cons_True _ b) by (by apply plain_segment_kept).
  - intros a Ha. unfold generateTagFromPath.
    assert (Hsa : all_chars (fun c => negb (is_slash c)) a = true).
    { unfold plain_segment in Ha.
      by apply andb_true_iff in Ha as [[_ ?]%andb_true_iff _]. }
    change ("/" ++ a)%string with (String "/" a).
    change (split_slash (String "/" ?x)) with ("" :: split_slash x).
    rewrite (split_slash_plain _ Hsa).
    rewrite filter_cons_False by (simpl; auto).
    by rewrite (filter_cons_True _ a) by (by apply plain_segment_kept).
  - intros segs Hne Hall. unfold generateTagFromPath.
    rewrite (split_join_slash _ Hne Hall), (filter_plain _ Hall).
    by destruct (List.filter plain_segment segs) as [|a [|b rest]].
  - intros path. split; [apply split_slash_nonempty|].
    split; [apply split_slash_segments|apply join_split_slash].
Qed.

(** X11, witness: the tag of [/users/:id] is the parameter; a placeholder
    and an empty piece are passed over. *)
Lemma generateTag_second_segment_witness :
  plain_segment "users" = true /\ plain_segment ":id" = true /\
  generateTagFromPath "/users/:id" = ":id" /\
  generateTagFromPath "/api/users/:id" = "users" /\
  generateTagFromPath "/users" = "users" /\
  generateTagFromPath "/a/{b}/c" = "c" /\
  generateTagFromPath "//a//b/" = "b" /\
  generateTagFromPath "a/b" = "b" /\
  generateTagFromPath "/{id}" = "default".
Proof.
  destruct generateTag_second_segment as (H2 & H1 & Hall & _).
  split; [reflexivity|]. split; [reflexivity|].
  split; [|split; [|split; [|split; [|split; [|split]]]]].
  - exact (H2 "users" ":id" "" eq_refl eq_refl (or_introl eq_refl)).
  - exact (H2 "api" "users" "/:id" eq_refl eq_refl
              (or_intror (ex_intro _ ":id" eq_refl))).
  - exact (H1 "users" eq_refl).
  - apply (Hall [""; "a"; "{b}"; "c"]); [discriminate|by repeat constructor].
  - apply (Hall [""; ""; "a"; ""; "b"; ""]);
      [discriminate|by repeat constructor].
  - apply (Hall ["a"; "b"]); [discriminate|by repeat constructor].
  - apply (Hall [""; "{id}"]); [discriminate|by repeat constructor].
Defined.

Lemma match_params_literal text r :
  all_chars (fun c => negb (is_colon c)) text = true ->
  match_params (text ++ r) = match_params r.
Proof.
  induction text as [|c text IH]; [done|]. simpl.
  intros [Hc Ht]%andb_true_iff. apply negb_true_iff in Hc.
  rewrite Hc. simpl. by apply IH.
Qed.

Lemma word_chars_no_colon name :
  all_chars is_word name = true ->
  all_chars (fun c => negb (is_colon c)) name = true.
Proof.
  induction name as [|c name IH]; [done|]. simpl.
  intros [Hc Hn]%andb_true_iff.
  by rewrite (word_not_colon _ Hc), (IH Hn).
Qed.

Lemma take_word_app name r :
  all_chars is_word name = true -> starts_word r = false ->
  take_word (name ++ r) = name.
Proof.
  intros Hn Hr. induction name as [|c name IH]; simpl.
  - rewrite append_empty_l. destruct r as [|d r]; [done|].
    simpl in *. by rewrite Hr.
  - simpl in Hn. apply andb_true_iff in Hn as [Hc Hn].
    by rewrite Hc, (IH Hn).
Qed.

Lemma match_params_colon_path segs :
  forallb segment_ok segs = true ->
  match_params (colon_path segs)
  = map (fun name => String ":" name) (param_names segs).
Proof.
  induction segs as [|seg segs IH]; [done|].
  simpl forallb. intros [Hseg Hsegs]%andb_true_iff.
  specialize (IH Hsegs). destruct seg as [text|name]; simpl in Hseg.
  - change (colon_path (Literal text :: segs))
      with (String "/" (text ++ colon_path segs))%string.
    change (match_params (String "/" ?x)) with (match_params x).
    by rewrite (match_params_literal _ _ Hseg).
  - apply andb_true_iff in Hseg as [Hne Hw].
    apply negb_true_iff, String.eqb_neq in Hne.
    change (colon_path (Param name :: segs))
      with (String "/" (String ":" (name ++ colon_path segs)))%string.
    change (match_params (String "/" ?x)) with (match_params x).
    change (param_names (Param name :: segs))
      with (name :: param_names segs).
    cbn [match_params map].
    replace (is_colon ":") with true by reflexivity.
    rewrite (starts_word_app _ _ Hne Hw). cbn [andb].
    rewrite (take_word_app _ _ Hw (colon_path_starts segs)).
    rewrite (match_params_literal _ _ (word_chars_no_colon _ Hw)).
    by rewrite IH.
Qed.

(** X12.  On a path in the syntax of the framework,
    [extractParametersFromPath] gives one required path parameter of type
    string for each colon-prefixed name, in the order of the path. *)
Theorem extractParametersFromPath_colon_path segs :
  forallb segment_ok segs = true ->
  extractParametersFromPath (colon_path segs)
  = map (fun name =>
           JObj [("name", JStr name); ("in", JStr "path");
                 ("required", JBool true);
                 ("schema", JObj [("type", JStr "string")])])
        (param_names segs).
Proof.
  intros Hok. unfold extractParametersFromPath.
  rewrite (match_params_colon_path _ Hok). by rewrite map_map.
Qed.

(** X12, witness. *)
Lemma extractParametersFromPath_colon_path_witness :
  let segs := [Literal "users"; Param "id"; Literal "posts"; Param "post_id"] in
  forallb segment_ok segs = true /\
  colon_path segs = "/users/:id/posts/:post_id" /\
  length (extractParametersFromPath "/users/:id/posts/:post_id") = 2.
Proof.
  intros segs. split; [reflexivity|]. split; [reflexivity|].
  change "/users/:id/posts/:post_id" with (colon_path segs).
  by rewrite (extractParametersFromPath_colon_path segs eq_refl).
Defined.

Lemma dropLast_replace_noop s :
  replace_params false s = s ->
  normalizePath (replace_params false s) = normalizePath s.
Proof. by intros ->. Qed.

(** X13.  Rewriting a path that is already rewritten changes nothing: a
    path without a colon followed by a name is left as it is, the
    rewriting is idempotent, and a path stores under the same key whether
    it is passed as written or already rewritten (as [extractAllRoutes]
    does). *)
Theorem convert_idempotent :
  (forall path, match_params path = [] -> convertToOpenAPIPath path = path) /\
  (forall path,
     convertToOpenAPIPath (convertToOpenAPIPath path)
     = convertToOpenAPIPath path) /\
  (forall path, storedPath (convertToOpenAPIPath path) = storedPath path).
Proof.
  assert (H : forall path,
            convertToOpenAPIPath (convertToOpenAPIPath path)
            = convertToOpenAPIPath path).
  { intros path. unfold convertToOpenAPIPath.
    apply replace_params_noop, match_params_replace. }
  split; [exact replace_params_noop|]. split; [exact H|].
  intros path. unfold storedPath. by rewrite H.
Qed.

(** X13, witness. *)
Lemma convert_idempotent_witness :
  match_params "/users/{id}" = [] /\
  convertToOpenAPIPath "/users/{id}" = "/users/{id}".
Proof.
  split; [reflexivity|].
  exact (proj1 convert_idempotent "/users/{id}" eq_refl).
Defined.

Lemma endsWith_cons c s suffix :
  endsWith s suffix = true -> endsWith (String c s) suffix = true.
Proof. intros H. simpl. rewrite H. apply orb_true_r. Qed.

Lemma dropLast_two_slashes s :
  endsWithSlash s = true -> endsWithSlash (dropLast s) = true ->
  endsWith s "//" = true.
Proof.
  induction s as [|c s IH]; [done|].
  destruct s as [|d s]; [done|].
  destruct s as [|e s].
  - simpl. unfold is_slash. intros Hd Hc.
    apply Ascii.eqb_eq in Hd, Hc. by subst.
  - intros H1 H2. apply endsWith_cons. apply IH.
    + exact H1.
    + change (dropLast (String c (String d (String e s))))
        with (String c (dropLast (String d (String e s)))) in H2.
      change (dropLast (String d (String e s)))
        with (String d (dropLast (String e s))) in *.
      exact H2.
Qed.

Lemma endsWith_two_slashes s :
  endsWith s "//" = true ->
  endsWithSlash s = true /\ endsWithSlash (dropLast s) = true /\ s <> "/".
Proof.
  induction s as [|c s IH]; [done|].
  cbn [endsWith]. intros [H|H]%orb_true_iff.
  - apply String.eqb_eq in H. rewrite H. by repeat split.
  - destruct (IH H) as (H1 & H2 & H3).
    destruct s as [|d s]; [done|].
    destruct s as [|e s]; [done|].
    repeat split; [exact H1|exact H2|discriminate].
Qed.

(** X14.  A stored path ends in a slash in two cases only: it is the root
    path, or the rewritten path ended in two slashes or more, of which one
    was removed. *)
Theorem stored_trailing_slash q :
  endsWithSlash (normalizePath q) = true <-> q = "/" \/ endsWith q "//" = true.
Proof.
  unfold normalizePath. split.
  - destruct (endsWithSlash q) eqn:Hs; simpl.
    + destruct (String.eqb q "/") eqn:Hq; simpl.
      * apply String.eqb_eq in Hq. by left.
      * intros H. right. by apply dropLast_two_slashes.
    + intros H. congruence.
  - intros [->|H]; [reflexivity|].
    destruct (endsWith_two_slashes _ H) as (H1 & H2 & H3).
    rewrite H1. apply String.eqb_neq in H3. rewrite H3. exact H2.
Qed.

Lemma prefix_app pre s : String.prefix pre (pre ++ s) = true.
Proof.
  induction pre as [|c pre IH]; [by destruct s|].
  simpl. by destruct (ascii_dec c c).
Qed.

(** X15.  Exclusion is by prefix of the text of the path: every path that
    continues the route of the documentation UI, or a configured
    exclusion prefix, by any text (also inside a segment) is excluded, and
    an empty UI route excludes every path; an excluded path is never
    auto-registered. *)
Theorem exclusion_is_textual_prefix :
  (forall opts suffix, shouldExcludePath opts (route opts ++ suffix) = true) /\
  (forall opts l pre suffix,
     excludePaths opts = Some l -> pre ∈ l ->
     shouldExcludePath opts (pre ++ suffix) = true) /\
  (forall opts path, route opts = "" -> shouldExcludePath opts path = true) /\
  (forall opts m path options routes,
     shouldExcludePath opts path = true ->
     autoRegisterRoute opts m path options routes = routes).
Proof.
  split; [|split; [|split]].
  - intros opts suffix. unfold shouldExcludePath, startsWith.
    by rewrite prefix_app.
  - intros opts l pre suffix Hl Hin. unfold shouldExcludePath.
    destruct (startsWith _ (route opts)); [done|]. rewrite Hl.
    apply existsb_exists. exists pre. split; [by apply list_elem_of_In|].
    apply prefix_app.
  - intros opts path Hr. unfold shouldExcludePath, startsWith. rewrite Hr.
    by destruct path.
  - intros opts m path options routes. apply autoRegister_excluded.
Qed.

(** X15, witness: a path that only shares its first letters with the UI
    route. *)
Lemma exclusion_is_textual_prefix_witness :
  let opts := {| route := "/docs"; excludePaths := Some ["/internal"] |} in
  shouldExcludePath opts "/docs-archive/list" = true /\
  shouldExcludePath opts "/internals" = true /\
  autoRegisterRoute opts "get" "/internals" None [] = [].
Proof.
  intros opts.
  destruct exclusion_is_textual_prefix as (H1 & H2 & _ & H4).
  assert (Ha : shouldExcludePath opts "/docs-archive/list" = true)
    by exact (H1 opts "-archive/list").
  assert (Hb : shouldExcludePath opts "/internals" = true).
  { apply (H2 opts ["/internal"] "/internal" "s" eq_refl).
    apply elem_of_cons. by left. }
  split; [exact Ha|]. split; [exact Hb|].
  exact (H4 opts "get" "/internals" None [] Hb).
Defined.

End PathLaws.

(** * More on the interception *)

Section InterceptionLaws.

Implicit Types (st : state) (a : HonoApp) (name path : string).

Local Arguments wrapVerbs : simpl never.

(** The state that the constructor leaves, for every verb property. *)
Lemma construct_state (opts : SwaggerOptions) (app : nat)
    (heap : gmap nat HonoApp) a :
  heap !! app = Some a ->
  let st := construct opts app heap in
  st_options st = opts /\ st_app st = app /\ st_routes st = [] /\
  st_trace st = [] /\
  (forall other, other <> app -> st_heap st !! other = heap !! other) /\
  exists a',
    st_heap st !! app = Some a' /\
    mount a' = RouteWrapper <$> mount a /\
    forall name,
      verbs a' !! name
      = if decide (name ∈ methods) then MainWrapper name <$> verbs a !! name
        else verbs a !! name.
Proof.
  intros Ha st. subst st. unfold construct.
  rewrite (hookIntoRouteMethods_eq _ a) by exact Ha.
  pose proof (wrapVerbs_lookup MainWrapper a) as Hverbs.
  pose proof (wrapVerbs_mount MainWrapper a) as Hmount.
  generalize dependent (wrapVerbs MainWrapper a). intros w Hverbs Hmount.
  rewrite (hookIntoRouteMethod_eq _ w) by apply lookup_insert_eq.
  rewrite Hmount.
  destruct (mount a) as [r|] eqn:Hr; simpl.
  - repeat split; auto.
    + intros other Hne. by rewrite !lookup_insert_ne.
    + eexists. rewrite lookup_insert_eq. split; [reflexivity|].
      split; [reflexivity|]. simpl. exact Hverbs.
  - repeat split; auto.
    + intros other Hne. by rewrite !lookup_insert_ne.
    + eexists. rewrite lookup_insert_eq. split; [reflexivity|].
      split; [by rewrite Hmount|]. exact Hverbs.
Qed.

(** X16.  A router that the application mounts at two base paths has two
    wrappers on each verb: a later verb call on it is observed under the
    second base path, then under the first, and then delegated once. *)
Theorem mounted_twice_observed_twice (opts : SwaggerOptions) (app sub : nat)
    (heap : gmap nat HonoApp) (main_obj sub_obj : HonoApp)
    name base1 base2 path (handlers : list handler) :
  name ∈ methods ->
  heap !! app = Some main_obj ->
  mount main_obj = Some OriginalRoute ->
  heap !! sub = Some sub_obj ->
  verbs sub_obj !! name = Some OriginalVerb ->
  sub <> app ->
  exists st',
    run [CallRoute app base1 sub; CallRoute app base2 sub;
         CallVerb sub name path handlers]
        (construct opts app heap) = Some st' /\
    st_routes st'
    = autoRegisterRoute opts name (base1 ++ path)%string
        (Some (routeOptionsOf handlers))
        (autoRegisterRoute opts name (base2 ++ path)%string
           (Some (routeOptionsOf handlers)) []) /\
    st_trace st'
    = [DelegatedRoute app base1 sub; DelegatedRoute app base2 sub;
       Observed name (base2 ++ path)%string;
       Observed name (base1 ++ path)%string;
       DelegatedVerb sub name path].
Proof.
  intros Hname Hmain Hmount Hsub Hverb Hne.
  destruct (construct_state opts app heap main_obj Hmain)
    as (Hopts & Happ & Hroutes & Htrace & Hother & a' & Ha' & Hm' & _).
  set (st := construct opts app heap) in *.
  rewrite Hmount in Hm'. simpl in Hm'.
  rewrite <- (Hother sub Hne) in Hsub. rewrite <- Happ in Ha'.
  destruct (mount_on_main st a' sub_obj sub base1 Ha' Hm' Hsub)
    as (w1 & Hstep1 & _ & Hv1).
  specialize (Hv1 name Hname). rewrite Hverb in Hv1. simpl in Hv1.
  set (st1 := log (DelegatedRoute (st_app st) base1 sub)
                (set_heap (<[sub := w1]> (st_heap st)) st)) in *.
  assert (Ha1 : st_heap st1 !! st_app st1 = Some a').
  { simpl. rewrite lookup_insert_ne by congruence. exact Ha'. }
  assert (Hsub1 : st_heap st1 !! sub = Some w1)
    by (simpl; apply lookup_insert_eq).
  destruct (mount_on_main st1 a' w1 sub base2 Ha1 Hm' Hsub1)
    as (w2 & Hstep2 & _ & Hv2).
  specialize (Hv2 name Hname). rewrite Hv1 in Hv2. simpl in Hv2.
  eexists. split.
  - cbn [run]. rewrite <- Happ. rewrite Hstep1. cbn [mbind option_bind].
    change (st_app st) with (st_app st1). rewrite Hstep2.
    cbn [mbind option_bind].
    rewrite (step_verb _ sub w2
               (SubWrapper base2 name (SubWrapper base1 name OriginalVerb)));
      [reflexivity|simpl; apply lookup_insert_eq|exact Hv2].
  - simpl. rewrite Hopts, Hroutes, Htrace, Happ. by split.
Qed.

(** X16, witness. *)
Lemma mounted_twice_observed_twice_witness :
  let heap : gmap nat HonoApp := <[0 := freshApp]> (<[1 := freshApp]> ∅) in
  map key_of <$>
    (st_routes <$>
       run [CallRoute 0 "/v1" 1; CallRoute 0 "/v2" 1;
            CallVerb 1 "get" "/items" []]
           (construct defaultOptions 0 heap))
  = Some [("get", "/v2/items"); ("get", "/v1/items")].
Proof.
  intros heap.
  destruct (mounted_twice_observed_twice defaultOptions 0 1 heap freshApp
              freshApp "get" "/v1" "/v2" "/items" []
              ltac:(apply elem_of_cons; by left) eq_refl eq_refl eq_refl
              eq_refl ltac:(discriminate))
    as (st' & Hrun & Hroutes & _).
  rewrite Hrun. simpl. rewrite Hroutes. reflexivity.
Defined.

(** X17.  The wrappers of a router are installed when the application
    mounts it.  A verb call made on the router before that is delegated
    without being observed, and the mount that follows observes nothing:
    the routes that a router declares before it is mounted never reach the
    registry through interception. *)
Theorem calls_before_mount_not_observed (opts : SwaggerOptions)
    (app sub : nat) (heap : gmap nat HonoApp) (main_obj sub_obj : HonoApp)
    name base path (handlers : list handler) :
  heap !! app = Some main_obj ->
  mount main_obj = Some OriginalRoute ->
  heap !! sub = Some sub_obj ->
  verbs sub_obj !! name = Some OriginalVerb ->
  sub <> app ->
  exists st',
    run [CallVerb sub name path handlers; CallRoute app base sub]
        (construct opts app heap) = Some st' /\
    st_routes st' = [] /\
    st_trace st' = [DelegatedVerb sub name path; DelegatedRoute app base sub].
Proof.
  intros Hmain Hmount Hsub Hverb Hne.
  destruct (construct_state opts app heap main_obj Hmain)
    as (Hopts & Happ & Hroutes & Htrace & Hother & a' & Ha' & Hm' & _).
  set (st := construct opts app heap) in *.
  rewrite Hmount in Hm'. simpl in Hm'.
  rewrite <- (Hother sub Hne) in Hsub. rewrite <- Happ in Ha'.
  set (st1 := log (DelegatedVerb sub name path) st).
  assert (Hstep1 : step (CallVerb sub name path handlers) st = Some st1)
    by (by rewrite (step_verb _ _ _ _ _ _ _ Hsub Hverb)).
  destruct (mount_on_main st1 a' sub_obj sub base Ha' Hm' Hsub)
    as (w & Hstep2 & _ & _).
  eexists. split.
  - cbn [run]. rewrite Hstep1. cbn [mbind option_bind].
    rewrite <- Happ. change (st_app st) with (st_app st1).
    rewrite Hstep2. reflexivity.
  - simpl. rewrite Hroutes, Htrace, Happ. by split.
Qed.

(** X17, witness. *)
Lemma calls_before_mount_not_observed_witness :
  let heap : gmap nat HonoApp := <[0 := freshApp]> (<[1 := freshApp]> ∅) in
  (st_routes <$>
     run [CallVerb 1 "get" "/items" []; CallRoute 0 "/api" 1]
         (construct defaultOptions 0 heap))
  = Some [].
Proof.
  intros heap.
  destruct (calls_before_mount_not_observed defaultOptions 0 1 heap freshApp
              freshApp "get" "/api" "/items" []
              eq_refl eq_refl eq_refl eq_refl ltac:(discriminate))
    as (st' & Hrun & Hroutes & _).
  rewrite Hrun. simpl. by rewrite Hroutes.
Defined.

(** X18.  Only the seven verb methods are wrapped: a call of any other
    registration method of the application (such as [all] or [on]) is
    delegated without being observed. *)
Theorem other_methods_not_observed (opts : SwaggerOptions) (app : nat)
    (heap : gmap nat HonoApp) (main_obj : HonoApp) name path
    (handlers : list handler) :
  name ∉ methods ->
  heap !! app = Some main_obj ->
  verbs main_obj !! name = Some OriginalVerb ->
  exists st',
    step (CallVerb app name path handlers) (construct opts app heap)
    = Some st' /\
    st_routes st' = [] /\
    st_trace st' = [DelegatedVerb app name path].
Proof.
  intros Hname Hmain Hverb.
  destruct (construct_state opts app heap main_obj Hmain)
    as (Hopts & Happ & Hroutes & Htrace & _ & a' & Ha' & _ & Hv').
  set (st := construct opts app heap) in *.
  specialize (Hv' name). rewrite decide_False in Hv' by done.
  rewrite Hverb in Hv'.
  eexists. split.
  - by rewrite (step_verb _ _ _ _ _ _ _ Ha' Hv').
  - simpl. rewrite Hroutes, Htrace. by split.
Qed.

(** X18, witness. *)
Lemma other_methods_not_observed_witness :
  let main_obj :=
    {| verbs := <["all" := OriginalVerb]> (verbs freshApp);
       mount := Some OriginalRoute |} in
  ("all" ∉ methods) /\
  (st_routes <$>
     step (CallVerb 0 "all" "/everything" [])
          (construct defaultOptions 0 (<[0 := main_obj]> ∅)))
  = Some [].
Proof.
  intros main_obj.
  assert (Hname : "all" ∉ methods) by compute_done.
  split; [exact Hname|].
  assert (Hmain : (<[0 := main_obj]> ∅ : gmap nat HonoApp) !! 0
                  = Some main_obj) by apply lookup_insert_eq.
  assert (Hverb : verbs main_obj !! "all" = Some OriginalVerb)
    by apply lookup_insert_eq.
  destruct (other_methods_not_observed defaultOptions 0 (<[0 := main_obj]> ∅)
              main_obj "all" "/everything" [] Hname Hmain Hverb)
    as (st' & Hstep & Hroutes & _).
  rewrite Hstep. simpl. by rewrite Hroutes.
Defined.

End InterceptionLaws.

(** * The static scan *)

Section ScanLaws.

Import Scanner.

Implicit Types (opts : SwaggerOptions) (routes : list RouteInfo).
Implicit Types (m p : string) (options : option props).

Lemma autoRegister_keys_prefix opts m p options routes :
  map key_of routes
    `prefix_of` map key_of (autoRegisterRoute opts m p options routes).
Proof.
  unfold autoRegisterRoute.
  destruct (shouldExcludePath opts p); [done|].
  destruct (isRouteDocumented _ _ routes); [done|].
  rewrite addRoute_keys. destruct (findIndex _ routes); [done|].
  by apply prefix_app_r.
Qed.

Lemma settled_mono opts routes m p options call :
  settled opts routes call ->
  settled opts (autoRegisterRoute opts m p options routes) call.
Proof.
  intros [H|H]; [by left|right].
  apply documented_keys. apply documented_keys in H.
  eapply elem_of_prefix; [exact H|apply autoRegister_keys_prefix].
Qed.

Lemma autoRegister_settles opts m p (o : props) routes :
  toLowerCase m = m ->
  settled opts (autoRegisterRoute opts m p (Some o) routes) (m, p, o).
Proof.
  intros Hm. unfold settled. simpl.
  destruct (shouldExcludePath opts p) eqn:Hex; [by left|right].
  destruct (isRouteDocumented m (storedPath p) routes) eqn:Hdoc.
  - by rewrite (autoRegister_documented _ _ _ _ _ Hdoc).
  - rewrite (autoRegister_fresh _ _ _ _ _ Hex Hdoc).
    destruct (addRoute_elem (autoRouteInfo m p (storedPath p) (Some o)) routes)
      as (i & entry & Hi & Hk & _).
    apply documented_keys, list_elem_of_fmap. exists entry.
    split; [|by eapply list_elem_of_lookup_2].
    rewrite Hk. unfold key_of. simpl. by rewrite Hm.
Qed.

Lemma settled_calls_id opts (calls : list (string * string * props)) routes :
  Forall (settled opts routes) calls ->
  fold_left (auto_call opts) calls routes = routes.
Proof.
  induction 1 as [|call calls Hc _ IH]; [done|].
  cbn [fold_left]. unfold auto_call at 2.
  destruct Hc as [Hc|Hc].
  - by rewrite (autoRegister_excluded _ _ _ _ _ Hc).
  - by rewrite (autoRegister_documented _ _ _ _ _ Hc).
Qed.

Lemma settled_fold_mono opts (calls : list (string * string * props))
    routes call :
  settled opts routes call ->
  settled opts (fold_left (auto_call opts) calls routes) call.
Proof.
  revert routes. induction calls as [|c calls IH]; intros routes H; [done|].
  cbn [fold_left]. apply IH. by apply settled_mono.
Qed.

Lemma calls_settle opts (calls : list (string * string * props)) routes :
  Forall (fun call => toLowerCase (fst (fst call)) = fst (fst call)) calls ->
  Forall (settled opts (fold_left (auto_call opts) calls routes)) calls.
Proof.
  intros Hall. revert routes.
  induction Hall as [|[[m p] o] calls Hm _ IH]; intros routes; [done|].
  cbn [fold_left]. constructor; [|apply IH].
  apply settled_fold_mono. unfold auto_call. simpl.
  by apply autoRegister_settles.
Qed.

Lemma scan_as_calls opts (routers : list RouterInfo) routes :
  fold_left (fun routes router => registerRouter opts router routes)
            routers routes
  = fold_left (auto_call opts) (scan_calls routers) routes.
Proof.
  revert routes. induction routers as [|router routers IH]; intros routes;
    [done|].
  cbn [fold_left scan_calls flat_map]. rewrite fold_left_app, IH. f_equal.
  unfold registerRouter.
  generalize (generateBasePathFromFilePath (filePath router)) as basePath.
  intros basePath. revert routes.
  induction (scanned router) as [|route rest IHr]; intros routes; [done|].
  cbn [fold_left map]. by rewrite IHr.
Qed.

(** X19.  A scan that is run again on the routers of the last scan leaves
    the registry as the last scan left it, when the methods of the scanned
    routes are in lower case (as the scanner yields them). *)
Theorem rescan_changes_nothing opts enabled (routers : list RouterInfo)
    routes :
  (forall router route,
     router ∈ routers -> route ∈ scanned router ->
     toLowerCase (sr_method route) = sr_method route) ->
  scanAndRegisterRouters opts enabled routers
    (scanAndRegisterRouters opts enabled routers routes)
  = scanAndRegisterRouters opts enabled routers routes.
Proof.
  intros Hlower. unfold scanAndRegisterRouters.
  destruct enabled; [|done]. rewrite !scan_as_calls.
  apply settled_calls_id, calls_settle.
  apply Forall_forall. intros call Hin.
  apply list_elem_of_In in Hin. unfold scan_calls in Hin.
  apply in_flat_map in Hin as (router & Hr & Hin).
  apply in_map_iff in Hin as (route & <- & Hroute). simpl.
  apply Hlower with router; by apply list_elem_of_In.
Qed.

(** Matches of the route patterns. *)
Lemma match_verb_elem (alternatives : list string) s verb rest :
  match_verb alternatives s = Some (verb, rest) -> verb ∈ alternatives.
Proof.
  induction alternatives as [|v alternatives IH]; [done|]. simpl.
  destruct (strip_prefix v s).
  - intros [= <- _]. apply elem_of_cons. by left.
  - intros H. apply elem_of_cons. right. by apply IH.
Qed.

Lemma match_route_at_spec routerName is_delim s verb path after :
  match_route_at routerName is_delim s = Some (verb, path, after) ->
  verb ∈ verbs /\ path <> "".
Proof.
  unfold match_route_at. intros H.
  destruct (strip_prefix routerName s) as [r1|]; [|done].
  cbn [mbind option_bind] in H.
  destruct (strip_prefix "." r1) as [r2|]; [|done].
  cbn [mbind option_bind] in H.
  destruct (match_verb verbs r2) as [[v r3]|] eqn:Hv; [|done].
  cbn [mbind option_bind] in H.
  destruct (strip_prefix "(" (skip_spaces r3)) as [r4|]; [|done].
  cbn [mbind option_bind] in H.
  destruct (skip_spaces r4) as [|q r5]; [done|].
  destruct (is_delim q); [|done].
  destruct (take_while _ r5) as [|c pth] eqn:Hp; [done|].
  destruct (drop_while _ r5); [done|].
  injection H as <- <- _. split; [|done]. by eapply match_verb_elem.
Qed.

Lemma scan_line_elem routerName is_delim line : forall skip verb path,
  (verb, path) ∈ scan_line routerName is_delim skip line ->
  verb ∈ verbs /\ path <> "".
Proof.
  induction line as [|c line IH]; intros skip verb path Hin.
  - by apply elem_of_nil in Hin.
  - cbn [scan_line] in Hin. destruct skip as [|skip]; [|by eapply IH].
    destruct (match_route_at routerName is_delim (String c line))
      as [[[v pth] after]|] eqn:Hm; [|by eapply IH].
    apply elem_of_cons in Hin as [[= -> ->]|Hin]; [|by eapply IH].
    by eapply match_route_at_spec.
Qed.

Lemma verbs_lower verb : verb ∈ verbs -> toLowerCase verb = verb.
Proof.
  unfold verbs. rewrite !elem_of_cons, elem_of_nil.
  intros [->|[->|[->|[->|[->|[->|[->|[]]]]]]]]; reflexivity.
Qed.

Lemma verbs_methods verb : verb ∈ verbs <-> verb ∈ methods.
Proof.
  unfold verbs, methods. rewrite !elem_of_cons, !elem_of_nil. tauto.
Qed.

(** X20.  Every route that the scanner extracts from a file has one of the
    seven verbs as its method, in lower case, a path that is not empty,
    and the number of a line of the file, counted from one. *)
Theorem extracted_routes_wellformed content routerName (route : ScannedRoute) :
  route ∈ extractRoutesFromContent content routerName ->
  sr_method route ∈ methods /\
  toLowerCase (sr_method route) = sr_method route /\
  sr_path route <> "" /\
  1 <= sr_lineNumber route <= length (split_lines content).
Proof.
  unfold extractRoutesFromContent. intros Hin.
  apply list_elem_of_In, in_concat in Hin as (rs & Hrs & Hin).
  apply list_elem_of_In, elem_of_lookup_imap in Hrs as (i & line & -> & Hi).
  unfold routes_of_line in Hin.
  apply in_map_iff in Hin as ([verb path] & <- & Hin). simpl.
  assert (Hvp : verb ∈ verbs /\ path <> "").
  { apply in_app_or in Hin as [Hin|Hin];
      apply list_elem_of_In in Hin; by eapply scan_line_elem. }
  destruct Hvp as [Hv Hp]. rewrite (verbs_lower _ Hv).
  split; [by apply verbs_methods|]. split; [by apply verbs_lower|].
  split; [done|]. apply lookup_lt_Some in Hi. lia.
Qed.

(** X20, witness. *)
Lemma extracted_routes_wellformed_witness :
  let content :=
    join_lines ["const users = new Hono()"; "";
                "users.get('/', list)"; "users.post( `/:id` , create)"] in
  mkScanned "post" "/:id" 4 ∈ extractRoutesFromContent content "users" /\
  sr_method (mkScanned "post" "/:id" 4) ∈ methods.
Proof.
  intros content.
  assert (Hin : mkScanned "post" "/:id" 4
                ∈ extractRoutesFromContent content "users").
  { replace (extractRoutesFromContent content "users")
      with [mkScanned "get" "/" 3; mkScanned "post" "/:id" 4]
      by (vm_compute; reflexivity).
    apply elem_of_cons. right. apply elem_of_cons. by left. }
  split; [exact Hin|].
  exact (proj1 (extracted_routes_wellformed content "users" _ Hin)).
Defined.

(** X19, witness: the routes of a scanned file, registered twice. *)
Lemma rescan_changes_nothing_witness :
  let routers :=
    [mkRouter "src/routes/users.ts" "users"
       [mkScanned "get" "/" 3; mkScanned "post" "/:id" 4]] in
  let once := scanAndRegisterRouters defaultOptions true routers [] in
  map key_of once = [("get", "/api/users"); ("post", "/api/users/{id}")] /\
  scanAndRegisterRouters defaultOptions true routers once = once.
Proof.
  intros routers once. split; [vm_compute; reflexivity|].
  apply (rescan_changes_nothing defaultOptions true routers []).
  intros router route Hr Hroute.
  apply list_elem_of_singleton in Hr. subst router.
  apply elem_of_cons in Hroute as [->|Hroute]; [reflexivity|].
  apply list_elem_of_singleton in Hroute. by subst route.
Defined.

Lemma strip_prefix_app lit s : strip_prefix lit (lit ++ s) = Some s.
Proof.
  induction lit as [|c lit IH]; [done|].
  simpl. by rewrite Ascii.eqb_refl.
Qed.

Lemma drop_while_app (f : ascii -> bool) text r :
  all_chars f text = true -> drop_while f (text ++ r) = drop_while f r.
Proof.
  induction text as [|c text IH]; [done|]. simpl.
  intros [Hc Ht]%andb_true_iff. rewrite Hc. by apply IH.
Qed.

Lemma drop_while_stop (f : ascii -> bool) c r :
  f c = false -> drop_while f (String c r) = String c r.
Proof. simpl. by intros ->. Qed.

Lemma take_while_app (f : ascii -> bool) text c r :
  all_chars f text = true -> f c = false ->
  take_while f (text ++ String c r) = text.
Proof.
  intros Ht Hc. induction text as [|d text IH]; simpl.
  - by rewrite Hc.
  - simpl in Ht. apply andb_true_iff in Ht as [Hd Ht].
    by rewrite Hd, (IH Ht).
Qed.

Lemma match_verb_app verb s :
  verb ∈ verbs -> match_verb verbs (verb ++ s) = Some (verb, s).
Proof.
  unfold verbs. rewrite !elem_of_cons, elem_of_nil.
  intros [->|[->|[->|[->|[->|[->|[->|[]]]]]]]]; reflexivity.
Qed.

Lemma quote_not_space q : is_quote q = true -> is_space q = false.
Proof.
  unfold is_quote. intros [H|H]%orb_true_iff;
    apply Ascii.eqb_eq in H; by subst.
Qed.

Lemma split_join_lines (lines : list string) :
  lines <> [] -> Forall (fun line => single_line line = true) lines ->
  split_lines (join_lines lines) = lines.
Proof.
  intros Hne Hall. induction Hall as [|line lines Hline Hall IH]; [done|].
  destruct lines as [|line' lines].
  - clear IH Hne Hall. unfold single_line in Hline.
    cbn [join_lines]. induction line as [|c line IH]; [done|].
    simpl in Hline. apply andb_true_iff in Hline as [Hc Hline].
    apply negb_true_iff in Hc. simpl. by rewrite Hc, (IH Hline).
  - specialize (IH ltac:(done)).
    change (join_lines (line :: line' :: lines))
      with (line ++ String newline (join_lines (line' :: lines)))%string.
    unfold single_line in Hline. clear Hne Hall.
    induction line as [|c line IHl].
    + rewrite append_empty_l. cbn [split_lines].
      rewrite Ascii.eqb_refl. by rewrite IH.
    + simpl in Hline. apply andb_true_iff in Hline as [Hc Hline].
      apply negb_true_iff in Hc.
      change (String c line ++ ?x)%string with (String c (line ++ x)).
      cbn [split_lines]. by rewrite Hc, (IHl Hline).
Qed.

Lemma match_route_call routerName verb sp1 sp2 q path q' rest :
  verb ∈ verbs ->
  all_chars is_space sp1 = true -> all_chars is_space sp2 = true ->
  is_quote q = true -> is_quote q' = true ->
  path <> "" -> all_chars (fun c => negb (is_quote c)) path = true ->
  match_route_at routerName is_quote
    (route_call routerName verb sp1 sp2 q path q' rest)
  = Some (verb, path, rest).
Proof.
  intros Hv Hs1 Hs2 Hq Hq' Hne Hp. unfold match_route_at, route_call.
  rewrite strip_prefix_app. cbn [mbind option_bind].
  rewrite (strip_prefix_app "."). cbn [mbind option_bind].
  rewrite (match_verb_app _ _ Hv). cbn [mbind option_bind].
  unfold skip_spaces. rewrite (drop_while_app _ _ _ Hs1).
  change ("(" ++ ?x)%string with (String "(" x).
  rewrite (drop_while_stop is_space "(") by reflexivity.
  change (strip_prefix "(" (String "(" ?x)) with (Some x).
  cbn [mbind option_bind].
  rewrite (drop_while_app _ _ _ Hs2).
  rewrite (drop_while_stop is_space q) by (by apply quote_not_space).
  rewrite Hq.
  rewrite (take_while_app _ _ _ _ Hp) by (by rewrite Hq').
  rewrite (drop_while_app _ _ _ Hp).
  rewrite drop_while_stop by (by rewrite Hq').
  by destruct path.
Qed.

(** X21.  A line that starts with a call of one of the seven verbs on the
    router, with a path between quotes, gives a route with that verb, that
    path and the number of the line, whatever follows on the line and
    whatever the other lines hold. *)
Theorem scanner_finds_call routerName verb sp1 sp2 q path q' rest
    (before after : list string) :
  verb ∈ methods ->
  all_chars is_space sp1 = true -> all_chars is_space sp2 = true ->
  is_quote q = true -> is_quote q' = true ->
  path <> "" -> all_chars (fun c => negb (is_quote c)) path = true ->
  let line := route_call routerName verb sp1 sp2 q path q' rest in
  Forall (fun l => single_line l = true) (before ++ line :: after) ->
  mkScanned verb path (length before + 1)
  ∈ extractRoutesFromContent (join_lines (before ++ line :: after))
      routerName.
Proof.
  intros Hv Hs1 Hs2 Hq Hq' Hne Hp line Hlines.
  apply verbs_methods in Hv.
  unfold extractRoutesFromContent.
  rewrite split_join_lines by (done || by destruct before).
  apply list_elem_of_In, in_concat.
  exists (routes_of_line routerName (length before) line). split.
  - apply list_elem_of_In.
    apply (elem_of_lookup_imap_2 (routes_of_line routerName)).
    by rewrite lookup_app_r, Nat.sub_diag by done.
  - unfold routes_of_line. apply in_map_iff. exists (verb, path).
    simpl. split; [by rewrite (verbs_lower _ Hv)|].
    apply in_or_app. left.
    pose proof (match_route_call routerName verb sp1 sp2 q path q' rest
                  Hv Hs1 Hs2 Hq Hq' Hne Hp) as Hm.
    fold line in Hm.
    assert (Hline : line <> "").
    { unfold line, route_call. destruct routerName; discriminate. }
    destruct line as [|c l]; [done|].
    cbn [scan_line]. rewrite Hm. by left.
Qed.

(** X21, witness. *)
Lemma scanner_finds_call_witness :
  let content :=
    join_lines ["const users = new Hono()";
                "users.post ( '/items', create)"] in
  mkScanned "post" "/items" 2 ∈ extractRoutesFromContent content "users".
Proof.
  intros content.
  apply (scanner_finds_call "users" "post" " " " " "'" "/items" "'"
           ", create)" ["const users = new Hono()"] []).
  - compute_done.
  - reflexivity.
  - reflexivity.
  - reflexivity.
  - reflexivity.
  - discriminate.
  - reflexivity.
  - repeat constructor.
Defined.

Lemma match_declaration_word keyword s name :
  match_declaration keyword s = Some name ->
  name <> "" /\ all_chars is_word name = true.
Proof.
  unfold match_declaration. intros H.
  destruct (strip_prefix keyword s) as [r1|]; [|done].
  cbn [mbind option_bind] in H.
  destruct (spaces1 r1) as [r2|]; [|done]. cbn [mbind option_bind] in H.
  pose proof (take_word_is_word r2) as Hw.
  destruct (take_word r2) as [|c w]; [done|].
  destruct (match_new_hono _); [|done]. cbn [mbind option_bind] in H.
  injection H as <-. by split.
Qed.

Lemma routerPatterns_word pattern s name :
  pattern ∈ routerPatterns -> pattern s = Some (Some name) ->
  name <> "" /\ all_chars is_word name = true.
Proof.
  unfold routerPatterns. rewrite !elem_of_cons, elem_of_nil.
  intros [->|[->|[->|[->|[->|[]]]]]] H.
  - unfold pattern_const in H.
    destruct (match_declaration "const" s) eqn:E; [|done].
    injection H as ->. by eapply match_declaration_word.
  - unfold pattern_let in H.
    destruct (match_declaration "let" s) eqn:E; [|done].
    injection H as ->. by eapply match_declaration_word.
  - unfold pattern_export_const in H.
    destruct (strip_prefix "export" s) as [r1|]; [|done].
    cbn [mbind option_bind] in H.
    destruct (spaces1 r1) as [r2|]; [|done]. cbn [mbind option_bind] in H.
    destruct (match_declaration "const" r2) eqn:E; [|done].
    injection H as ->. by eapply match_declaration_word.
  - unfold pattern_export_default in H.
    repeat (match type of H with
            | context [?x ≫= _] =>
                destruct x; [cbn [mbind option_bind] in H|done]
            end).
    done.
  - unfold pattern_const in H.
    destruct (match_declaration "const" s) eqn:E; [|done].
    injection H as ->. by eapply match_declaration_word.
Qed.

Lemma exec_match pattern line (found : option string) :
  exec pattern line = Some found -> exists s, pattern s = Some found.
Proof.
  induction line as [|c line IH]; simpl.
  - destruct (pattern "") eqn:E; [|done]. intros [= <-]. eauto.
  - destruct (pattern (String c line)) eqn:E; [intros [= <-]; eauto|].
    exact IH.
Qed.

Lemma first_pattern_word (patterns : list (string -> option (option string)))
    line name exported :
  (forall pattern, pattern ∈ patterns -> pattern ∈ routerPatterns) ->
  first_pattern patterns line = Some (name, exported) ->
  name <> "" /\ all_chars is_word name = true.
Proof.
  induction patterns as [|pattern patterns IH]; intros Hsub; [done|].
  cbn [first_pattern].
  destruct (exec pattern line) as [found|] eqn:E.
  - intros [= <- _]. destruct found as [[|c n]|]; [done| |done].
    apply exec_match in E as [s E].
    apply (routerPatterns_word pattern s); [|done].
    apply Hsub, elem_of_cons. by left.
  - apply IH. intros q Hq. apply Hsub, elem_of_cons. by right.
Qed.

Lemma find_router_word (lines : list string) name exported :
  find_router lines = Some (name, exported) ->
  name <> "" /\ all_chars is_word name = true.
Proof.
  induction lines as [|line lines IH]; [done|]. cbn [find_router].
  destruct (first_pattern routerPatterns line) as [[n e]|] eqn:E.
  - intros [= <- <-]. by eapply first_pattern_word.
  - exact IH.
Qed.

(** X22.  The name under which the scanner looks for route calls is never
    empty and holds [\w] characters only (it is a captured identifier or
    the word default), so that it stands for itself in the pattern that
    [extractRoutesFromContent] builds from it; the descriptor holds the
    path of the file and the routes extracted under that name.  A file
    that cannot be read gives no descriptor. *)
Theorem router_name_is_word filePath content (router : RouterInfo)
    (exported : exportType) :
  extractRouterFromFile filePath content = Some (router, exported) ->
  routerName router <> "" /\
  all_chars is_word (routerName router) = true /\
  Swagger.filePath router = filePath /\
  exists text,
    content = Some text /\
    scanned router = extractRoutesFromContent text (routerName router).
Proof.
  unfold extractRouterFromFile. intros H.
  destruct content as [text|]; [|done]. cbn [mbind option_bind] in H.
  destruct (find_router (split_lines text)) as [[name e]|] eqn:E; [|done].
  cbn [mbind option_bind] in H. injection H as <- <-. simpl.
  destruct (find_router_word _ _ _ E) as [Hne Hw].
  split; [done|]. split; [done|]. split; [done|]. by exists text.
Qed.

(** X22, witness. *)
Lemma router_name_is_word_witness :
  let text := join_lines ["import { Hono } from 'hono'";
                          "export const api = new Hono()";
                          "api.get('/ping', pong)"] in
  exists router exported,
    extractRouterFromFile "src/api.ts" (Some text) = Some (router, exported) /\
    routerName router = "api" /\
    all_chars is_word (routerName router) = true.
Proof.
  intros text.
  destruct (extractRouterFromFile "src/api.ts" (Some text))
    as [[router exported]|] eqn:E; [|vm_compute in E; discriminate].
  exists router, exported. split; [reflexivity|]. split.
  - vm_compute in E. by injection E as <- <-.
  - exact (proj1 (proj2 (router_name_is_word _ _ _ _ E))).
Defined.

Lemma word_not_space c : is_word c = true -> is_space c = false.
Proof.
  destruct c as [[] [] [] [] [] [] [] []]; try reflexivity; discriminate.
Qed.

(** X23.  The first line of a file that declares a router with [const]
    decides the name: when the first line starts with the declaration of
    [name], the descriptor has this name, whatever follows on the line and
    in the file. *)
Theorem first_declaration_wins filePath name rest (others : list string) :
  name <> "" -> all_chars is_word name = true ->
  let line := ("const " ++ name ++ " = new Hono()" ++ rest)%string in
  Forall (fun l => single_line l = true) (line :: others) ->
  exists router exported,
    extractRouterFromFile filePath (Some (join_lines (line :: others)))
    = Some (router, exported) /\
    routerName router = name.
Proof.
  intros Hne Hw line Hlines. unfold extractRouterFromFile.
  cbn [mbind option_bind]. rewrite split_join_lines by done.
  assert (Hm : pattern_const line = Some (Some name)).
  { unfold pattern_const, match_declaration, line.
    change ("const " ++ ?x)%string with ("const" ++ String " " x)%string.
    rewrite strip_prefix_app. cbn [mbind option_bind spaces1].
    replace (is_space " ") with true by reflexivity.
    destruct name as [|c name]; [done|].
    simpl in Hw. apply andb_true_iff in Hw as [Hc Hw].
    assert (Hw' : all_chars is_word (String c name) = true)
      by (simpl; by rewrite Hc, Hw).
    unfold skip_spaces.
    change (String c name ++ ?x)%string with (String c (name ++ x)).
    rewrite drop_while_stop by (by apply word_not_space).
    change (String c (name ++ ?x)) with (String c name ++ x)%string.
    cbn [mbind option_bind].
    rewrite (take_word_app _ _ Hw') by reflexivity.
    rewrite (drop_while_app _ _ _ Hw').
    replace (match_new_hono (drop_while is_word (" = new Hono()" ++ rest)))
      with (Some rest) by reflexivity.
    reflexivity. }
  assert (He : exec pattern_const line = Some (Some name)).
  { revert Hm. unfold line.
    change ("const " ++ ?x)%string with (String "c" ("onst " ++ x))%string.
    intros Hm. cbn [exec]. by rewrite Hm. }
  cbn [find_router routerPatterns first_pattern]. rewrite He.
  cbn [mbind option_bind]. destruct name as [|c name]; [done|].
  eexists _, _. split; reflexivity.
Qed.

(** X23, witness. *)
Lemma first_declaration_wins_witness :
  exists router exported,
    extractRouterFromFile "src/routes/users.ts"
      (Some (join_lines ["const users = new Hono();";
                         "const other = new Hono()"]))
    = Some (router, exported) /\
    routerName router = "users".
Proof.
  apply (first_declaration_wins "src/routes/users.ts" "users" ";"
           ["const other = new Hono()"]).
  - discriminate.
  - reflexivity.
  - repeat constructor.
Defined.

End ScanLaws.

(** * Parameters from a request *)

Section RequestLaws.

Import Requests.

Lemma word_not_brace c : is_word c = true -> Ascii.eqb c "{" = false.
Proof.
  destruct (Ascii.eqb c "{") eqn:E; [|done].
  apply Ascii.eqb_eq in E. by subst.
Qed.

Lemma match_braces_literal text r :
  all_chars (fun c => negb (Ascii.eqb c "{")) text = true ->
  match_braces (text ++ r) = match_braces r.
Proof.
  induction text as [|c text IH]; [done|]. simpl.
  intros [Hc Ht]%andb_true_iff. apply negb_true_iff in Hc.
  rewrite Hc. simpl. by apply IH.
Qed.

Lemma word_chars_no_brace name :
  all_chars is_word name = true ->
  all_chars (fun c => negb (Ascii.eqb c "{")) name = true.
Proof.
  induction name as [|c name IH]; [done|]. simpl.
  intros [Hc Hn]%andb_true_iff.
  by rewrite (word_not_brace _ Hc), (IH Hn).
Qed.

Lemma match_braces_param name r :
  name <> "" -> all_chars is_word name = true ->
  match_braces ("{" ++ name ++ String "}" r)
  = ("{" ++ name ++ "}")%string :: match_braces r.
Proof.
  intros Hne Hw.
  change ("{" ++ name ++ String "}" r)%string
    with (String "{" (name ++ String "}" r)).
  cbn [match_braces]. replace (Ascii.eqb "{" "{") with true by reflexivity.
  rewrite (starts_word_app _ _ Hne Hw). cbn [andb].
  rewrite (drop_while_app _ _ _ Hw).
  rewrite drop_while_stop by reflexivity.
  replace (Ascii.eqb "}" "}") with true by reflexivity.
  rewrite (take_word_app _ _ Hw) by reflexivity.
  rewrite (match_braces_literal _ _ (word_chars_no_brace _ Hw)).
  reflexivity.
Qed.

Lemma remove_braces_word name :
  all_chars is_word name = true -> remove_braces name = name.
Proof.
  induction name as [|c name IH]; [done|]. simpl.
  intros [Hc Hn]%andb_true_iff. rewrite (word_not_brace _ Hc).
  assert (H : Ascii.eqb c "}" = false).
  { destruct (Ascii.eqb c "}") eqn:E; [|done].
    apply Ascii.eqb_eq in E. by subst. }
  rewrite H. simpl. by rewrite (IH Hn).
Qed.

Lemma remove_braces_param name :
  all_chars is_word name = true ->
  remove_braces ("{" ++ name ++ "}") = name.
Proof.
  intros Hw. change ("{" ++ name ++ "}")%string with (String "{" (name ++ "}")).
  cbn [remove_braces]. replace (Ascii.eqb "{" "{") with true by reflexivity.
  cbn [orb]. induction name as [|c name IH]; [done|].
  simpl in Hw. apply andb_true_iff in Hw as [Hc Hw].
  change (String c name ++ "}")%string with (String c (name ++ "}")).
  cbn [remove_braces]. rewrite (word_not_brace _ Hc).
  assert (H : Ascii.eqb c "}" = false).
  { destruct (Ascii.eqb c "}") eqn:E; [|done].
    apply Ascii.eqb_eq in E. by subst. }
  rewrite H. cbn [orb]. by rewrite (IH Hw).
Qed.

Lemma path_parameters_brace_path segs :
  forallb segment_ok segs = true -> forallb brace_free segs = true ->
  map (fun param => parameter (remove_braces param) "path" true)
      (match_braces (brace_path segs))
  = map (fun name => parameter name "path" true) (param_names segs).
Proof.
  induction segs as [|seg segs IH]; [done|].
  simpl forallb. intros [Hseg Hsegs]%andb_true_iff [Hb Hbs]%andb_true_iff.
  specialize (IH Hsegs Hbs). destruct seg as [text|name].
  - change (brace_path (Literal text :: segs))
      with (String "/" (text ++ brace_path segs))%string.
    change (match_braces (String "/" ?x)) with (match_braces x).
    by rewrite (match_braces_literal _ _ Hb).
  - simpl in Hseg. apply andb_true_iff in Hseg as [Hne Hw].
    apply negb_true_iff, String.eqb_neq in Hne.
    change (brace_path (Param name :: segs))
      with (String "/" ("{" ++ name ++ String "}" (brace_path segs)))%string.
    change (match_braces (String "/" ?x)) with (match_braces x).
    rewrite (match_braces_param _ _ Hne Hw).
    change (param_names (Param name :: segs)) with (name :: param_names segs).
    cbn [map]. by rewrite (remove_braces_param _ Hw), IH.
Qed.

Lemma has_name_spec key (param : jsval) :
  has_name key param = true <-> name_of param = Some key.
Proof.
  unfold has_name, name_of.
  destruct (prop_of "name" param); try (split; discriminate).
  rewrite String.eqb_eq. split; congruence.
Qed.

Lemma has_name_exists key (parameters : list jsval) :
  existsb (has_name key) parameters = true
  <-> key ∈ omap name_of parameters.
Proof.
  rewrite existsb_exists, list_elem_of_omap. split.
  - intros (x & Hin & Hx). exists x.
    split; [by apply list_elem_of_In|by apply has_name_spec].
  - intros (x & Hin & Hx). exists x.
    split; [by apply list_elem_of_In|by apply has_name_spec].
Qed.

Lemma query_fold (entries : list (string * string)) (acc : list jsval) :
  let parameters :=
    fold_left
      (fun parameters entry =>
         let key := fst entry in
         if existsb (has_name key) parameters then parameters
         else parameters ++ [parameter key "query" false])
      entries acc in
  acc `prefix_of` parameters /\
  (forall key, key ∈ map fst entries -> key ∈ omap name_of parameters) /\
  (NoDup (omap name_of acc) -> NoDup (omap name_of parameters)).
Proof.
  cbv zeta.
  set (step := fun (parameters : list jsval) (entry : string * string) =>
                 if existsb (has_name (fst entry)) parameters then parameters
                 else parameters ++ [parameter (fst entry) "query" false]).
  revert acc. induction entries as [|[key value] entries IH]; intros acc.
  - simpl. split; [done|]. split; [|done]. intros key Hin.
    by apply elem_of_nil in Hin.
  - change (fold_left step ((key, value) :: entries) acc)
      with (fold_left step entries (step acc (key, value))).
    set (acc' := step acc (key, value)).
    destruct (IH acc') as (Hpre & Hcover & Hnd).
    assert (Hacc : acc `prefix_of` acc').
    { unfold acc', step. simpl.
      destruct (existsb _ acc); [done|by apply prefix_app_r]. }
    assert (Hkey : key ∈ omap name_of acc').
    { unfold acc', step. simpl.
      destruct (existsb (has_name key) acc) eqn:E.
      - by apply has_name_exists.
      - rewrite omap_app. apply elem_of_app. right. simpl.
        apply elem_of_cons. by left. }
    split; [by etrans|]. split.
    + intros k [->|Hin]%elem_of_cons; [|by apply Hcover].
      destruct Hpre as [tail ->]. rewrite omap_app. apply elem_of_app.
      by left.
    + intros Hacc_nd. apply Hnd. unfold acc', step. simpl.
      destruct (existsb (has_name key) acc) eqn:E; [done|].
      rewrite omap_app. simpl. apply NoDup_app. split; [done|]. split.
      * intros k Hk Hk'. apply list_elem_of_singleton in Hk'. subst k.
        apply has_name_exists in Hk. congruence.
      * apply NoDup_singleton.
Qed.

(** X24.  [extractParameters] reads the placeholders of the rewritten
    path: on the rewriting of a path with colon-prefixed names it gives
    one path parameter for each name, in order (where
    [extractParametersFromPath] gives none).  The parameters of the query
    string come after them: each key of the query string is the name of a
    parameter of the result, a key that is the name of a path parameter or
    that occurs again adds nothing, and the names stay distinct when those
    of the path are. *)
Theorem request_parameters :
  (forall segs,
     forallb segment_ok segs = true -> forallb brace_free segs = true ->
     extractParameters (convertToOpenAPIPath (colon_path segs)) None
     = map (fun name => parameter name "path" true) (param_names segs)) /\
  (forall path (entries : list (string * string)),
     let parameters := extractParameters path (Some entries) in
     extractParameters path None `prefix_of` parameters /\
     (forall key, key ∈ map fst entries -> key ∈ omap name_of parameters) /\
     (NoDup (omap name_of (extractParameters path None)) ->
      NoDup (omap name_of parameters))).
Proof.
  split.
  - intros segs Hok Hb. rewrite (convert_segments _ Hok).
    unfold extractParameters. by apply path_parameters_brace_path.
  - intros path entries. unfold extractParameters. apply query_fold.
Qed.

(** X24, witness. *)
Lemma request_parameters_witness :
  let segs := [Literal "users"; Param "id"] in
  forallb segment_ok segs = true /\ forallb brace_free segs = true /\
  extractParameters (convertToOpenAPIPath "/users/:id") None
    = [parameter "id" "path" true] /\
  omap name_of
    (extractParameters "/users/{id}"
       (Some [("page", "2"); ("id", "7"); ("page", "3")]))
    = ["id"; "page"].
Proof.
  intros segs. split; [reflexivity|]. split; [reflexivity|]. split.
  - exact (proj1 request_parameters segs eq_refl eq_refl).
  - reflexivity.
Defined.

End RequestLaws.

(** * More on the schema converter *)

Section ConverterLaws.

Implicit Types (schema value : zod) (f : fragment).

Lemma number_fold (checks : list number_check) f :
  let f' := fold_left number_check_step checks f in
  f_type f'
  = (if existsb is_int_check checks then Some "integer" else f_type f) /\
  f_minimum f'
  = match last (omap min_value checks) with
    | Some v => Some v
    | None => f_minimum f
    end /\
  f_maximum f'
  = match last (omap max_value checks) with
    | Some v => Some v
    | None => f_maximum f
    end /\
  f_format f' = f_format f /\ f_properties f' = f_properties f /\
  f_required f' = f_required f /\ f_enum f' = f_enum f.
Proof.
  cbv zeta. revert f. induction checks as [|check checks IH]; intros f.
  - by repeat split.
  - cbn [fold_left]. destruct (IH (number_check_step f check))
      as (Ht & Hmin & Hmax & Hf & Hp & Hr & He).
    rewrite Ht, Hmin, Hmax, Hf, Hp, Hr, He.
    destruct check as [v|v| |k]; cbn [omap list_omap min_value max_value
      existsb is_int_check orb number_check_step]; rewrite ?last_cons;
      repeat split; try reflexivity;
      try (by destruct (existsb is_int_check checks));
      try (by destruct (last (omap min_value checks)));
      try (by destruct (last (omap max_value checks))).
Qed.

(** X25.  A number schema converts without warning to a fragment whose
    type is integer when one of its checks is the integer check, wherever
    it stands among the checks, and number otherwise; its minimum and its
    maximum are the bounds of the last [min] and of the last [max] check,
    and are absent without such a check. *)
Theorem number_fragment (checks : list number_check) :
  zodToOpenAPI (Some (ZodNumber checks))
  = ([], fold_left number_check_step checks (typed "number")) /\
  let f := snd (zodToOpenAPI (Some (ZodNumber checks))) in
  f_type f
  = Some (if existsb is_int_check checks then "integer" else "number") /\
  f_minimum f = last (omap min_value checks) /\
  f_maximum f = last (omap max_value checks).
Proof.
  split; [reflexivity|]. cbv zeta.
  change (snd (zodToOpenAPI (Some (ZodNumber checks))))
    with (fold_left number_check_step checks (typed "number")).
  destruct (number_fold checks (typed "number")) as (Ht & Hmin & Hmax & _).
  rewrite Ht, Hmin, Hmax. simpl.
  split; [by destruct (existsb is_int_check checks)|].
  split; [by destruct (last (omap min_value checks))|].
  by destruct (last (omap max_value checks)).
Qed.

Lemma convert_entries_eq (shape : list (string * zod)) :
  convert_entries convert shape
  = (concat (map (fun kv => fst (convert (snd kv))) shape),
     map (fun kv => (fst kv, snd (convert (snd kv)))) shape).
Proof.
  induction shape as [|[key value] shape IH]; [done|].
  cbn [convert_entries map concat fst snd]. rewrite IH.
  destruct (convert value) as [w f]. rewrite !logged_bind_eq.
  cbn [fst snd ret mret logged_ret]. by rewrite app_nil_r.
Qed.


Lemma length_concat_sum {A} (ls : list (list A)) :
  length (concat ls) = list_sum (map length ls).
Proof.
  induction ls as [|l ls IH]; [done|].
  simpl. by rewrite length_app, IH.
Qed.

Lemma failures_object (shape : list (string * zod)) :
  failures (ZodObject (Some shape))
  = list_sum (map (fun kv => failures (snd kv)) shape).
Proof.
  simpl. induction shape as [|[k v] shape IH]; [done|].
  simpl. by rewrite IH.
Qed.

Lemma failures_union (options : list zod) :
  failures (ZodUnion options) = list_sum (map failures options).
Proof.
  simpl. induction options as [|o options IH]; [done|].
  simpl. by rewrite IH.
Qed.

Lemma convert_warnings schema :
  length (fst (convert schema)) = failures schema.
Proof.
  revert schema. fix IH 1. intros schema.
  rewrite convert_eq. destruct schema as
    [checks|checks| |[shape|]|type|inner|inner [d|]|values|options|v|k].
  - unfold try_block.
    pose proof (string_checks_outcome checks (typed "string")) as H.
    destruct (string_checks checks (typed "string")); simpl;
      [destruct H as [_ H]|]; by rewrite H.
  - reflexivity.
  - reflexivity.
  - unfold try_block. rewrite convert_entries_eq, failures_object.
    rewrite !logged_bind_eq. simpl. rewrite !app_nil_r, length_concat_sum.
    rewrite map_map. f_equal.
    induction shape as [|[key value] shape IHs]; [done|].
    simpl. by rewrite (IH value), IHs.
  - reflexivity.
  - unfold try_block. specialize (IH type).
    destruct (convert type) as [w f]. rewrite !logged_bind_eq. simpl.
    rewrite !app_nil_r. exact IH.
  - unfold try_block. specialize (IH inner).
    destruct (convert inner) as [w f]. rewrite !logged_bind_eq. simpl.
    rewrite !app_nil_r. exact IH.
  - unfold try_block. specialize (IH inner).
    destruct (convert inner) as [w f]. rewrite !logged_bind_eq. simpl.
    rewrite !app_nil_r. simpl in IH. lia.
  - unfold try_block. specialize (IH inner).
    destruct (convert inner) as [w f]. rewrite !logged_bind_eq. simpl.
    rewrite !length_app. simpl in *. lia.
  - reflexivity.
  - unfold try_block. rewrite convert_options_eq, failures_union.
    rewrite !logged_bind_eq. simpl. rewrite !app_nil_r, length_concat_sum.
    rewrite map_map. f_equal.
    induction options as [|o options IHo]; [done|].
    simpl. by rewrite (IH o), IHo.
  - reflexivity.
  - reflexivity.
Qed.

(** X27.  The converter logs one warning for each node of the schema at
    which the conversion raises (a string schema with a regular
    expression check that has no expression, an object whose [shape()]
    raises, a default whose [defaultValue()] raises), wherever the node is:
    every part of a schema is converted.  So a schema converts without
    warning exactly when no node raises, and a kind that is not supported
    is replaced by the fallback without a warning. *)
Theorem one_warning_per_failure :
  (forall input : option zod,
     length (fst (zodToOpenAPI input))
     = match input with Some schema => failures schema | None => 0 end) /\
  (forall schema, fst (convert schema) = [] <-> failures schema = 0) /\
  (forall typeName, zodToOpenAPI (Some (ZodOther typeName)) = ([], fallback)).
Proof.
  split; [|split].
  - intros [schema|]; [apply convert_warnings|reflexivity].
  - intros schema. rewrite <- convert_warnings.
    by destruct (fst (convert schema)).
  - reflexivity.
Qed.

End ConverterLaws.
